(** * ccolectivo: the record-identity and clustering engine of
    [colectivo_v6_mini.py], embedded in Rocq.

    Conventions of the embedding.

    - A Python [str] is a [string]: a sequence of code points below 256
      (the Latin-1 repertoire).  The character predicates the source uses
      ([str.isdigit], [str.isspace], [str.lower], [int] on one character)
      are given with the values they take on that range.  The three
      check-digit validators are given a second time on code points of
      any range ([Module Unicode]), with [str.isdigit] and [int] as
      variables.
    - Libraries the script imports are interfaces of the model: the
      transliteration table of [unidecode], the similarity
      [rapidfuzz.fuzz.token_sort_ratio], [os.path.splitext] and the MARC
      reader are variables of [Section Model]; the [pymarc] record is a
      list of fields.
    - The module-level flag [VALIDATE] is an explicit argument.
    - Mutable objects shared by reference (clusters held by the two
      indices, the primary record mutated by the merge) live in a store
      and are named by their position in it.
    - An uncaught exception is the result [None]. *)

From Stdlib Require Import Ascii String ZArith QArith Lia Bool.
From stdpp Require Import gmap strings list sorting pretty.

Local Open Scope string_scope.
Local Open Scope list_scope.

(** ** Characters and strings as Python sees them *)

(** [ord(c)]. *)
Definition ord (c : ascii) : N := N_of_ascii c.

Definition in_range (lo hi : N) (c : ascii) : bool :=
  ((lo <=? ord c) && (ord c <=? hi))%N.

(** [str.isspace] on one character: TAB..CR, FS..US, space, NEL, NBSP. *)
Definition isspace (c : ascii) : bool :=
  in_range 9 13 c || in_range 28 32 c || (ord c =? 133)%N || (ord c =? 160)%N.

(** [str.isdigit] on one character: the decimal digits and the three
    superscript digits of Latin-1. *)
Definition isdigit (c : ascii) : bool :=
  in_range 48 57 c || (ord c =? 178)%N || (ord c =? 179)%N || (ord c =? 185)%N.

(** [int(ch)] for a one-character string: [None] is [ValueError]. *)
Definition int_of_char (c : ascii) : option Z :=
  if in_range 48 57 c then Some (Z.of_N (ord c) - 48)%Z else None.

(** [str(n)] for [0 <= n <= 9]. *)
Definition char_of_digit (n : Z) : ascii := ascii_of_N (Z.to_N (n + 48)).

(** [str.lower] on one character. *)
Definition lower_char (c : ascii) : ascii :=
  if in_range 65 90 c then ascii_of_N (ord c + 32)
  else if in_range 192 222 c && negb (ord c =? 215)%N then ascii_of_N (ord c + 32)
  else c.

(** [ch.upper() == "X"]. *)
Definition is_x (c : ascii) : bool := (ord c =? 120)%N || (ord c =? 88)%N.

Fixpoint map_str (f : ascii → ascii) (s : string) : string :=
  match s with
  | EmptyString => EmptyString
  | String c s' => String (f c) (map_str f s')
  end.

Fixpoint filter_str (p : ascii → bool) (s : string) : string :=
  match s with
  | EmptyString => EmptyString
  | String c s' => if p c then String c (filter_str p s') else filter_str p s'
  end.

Fixpoint all_str (p : ascii → bool) (s : string) : bool :=
  match s with
  | EmptyString => true
  | String c s' => p c && all_str p s'
  end.

Fixpoint mem_str (c : ascii) (s : string) : bool :=
  match s with
  | EmptyString => false
  | String d s' => if Ascii.eqb c d then true else mem_str c s'
  end.

(** [s.lower()]. *)
Definition lower (s : string) : string := map_str lower_char s.

(** [s.split()]: the maximal runs of non-whitespace characters. *)
Fixpoint split (s : string) : list string :=
  match s with
  | EmptyString => []
  | String c s' =>
      if isspace c then split s'
      else match s' with
           | EmptyString => [String c EmptyString]
           | String c' _ =>
               if isspace c' then String c EmptyString :: split s'
               else match split s' with
                    | w :: ws => String c w :: ws
                    | [] => [String c EmptyString]
                    end
           end
  end.

(** [sep.join(l)]. *)
Fixpoint join (sep : string) (l : list string) : string :=
  match l with
  | [] => EmptyString
  | [x] => x
  | x :: l' => x +:+ sep +:+ join sep l'
  end.

Fixpoint lstrip (s : string) : string :=
  match s with
  | EmptyString => EmptyString
  | String c s' => if isspace c then lstrip s' else s
  end.

Fixpoint rstrip (s : string) : string :=
  match s with
  | EmptyString => EmptyString
  | String c s' =>
      match rstrip s' with
      | EmptyString => if isspace c then EmptyString else String c EmptyString
      | r => String c r
      end
  end.

(** [s.strip()]. *)
Definition strip (s : string) : string := rstrip (lstrip s).

(** [s or ""]. *)
Definition or_empty (s : option string) : string := default EmptyString s.

(** Truthiness of a string. *)
Definition nonempty (s : string) : bool :=
  match s with EmptyString => false | _ => true end.

(** [d.isdigit()] on a whole string: non-empty, every character a digit. *)
Definition str_isdigit (d : string) : bool := nonempty d && all_str isdigit d.

(** [int(s)] for a string: surrounding whitespace, an optional sign, then
    decimal digits, single underscores allowed between digits. *)
Fixpoint int_digits (acc : Z) (prev_digit : bool) (s : string) : option Z :=
  match s with
  | EmptyString => if prev_digit then Some acc else None
  | String c s' =>
      if in_range 48 57 c then int_digits (acc * 10 + (Z.of_N (ord c) - 48)) true s'
      else if Ascii.eqb c "_" && prev_digit then int_digits acc false s'
      else None
  end.

Definition py_int (s : string) : option Z :=
  match strip s with
  | String "+" r => int_digits 0 false r
  | String "-" r => Z.opp <$> int_digits 0 false r
  | r => int_digits 0 false r
  end.

(** ** The pymarc record, as the script reads and builds it

    A record is the list of its fields, in order.  A control field (tag
    below 010) carries [data] and no indicators or subfields; any other
    field carries two indicators and subfields and no [data]. *)

Record Subfield := Subf { code : string; value : string }.

Record Field := mkField {
  tag : string;
  indicator1 : option string;
  indicator2 : option string;
  subfields : list Subfield;
  data : option string
}.

Abbreviation MarcRecord := (list Field).

(** The members' records as the merge sees them: one object per member,
    named by the member's position.  The merged record [rec] is the
    object at the primary's position. *)
Abbreviation store := (list MarcRecord).

Global Instance Subfield_eq_dec : EqDecision Subfield.
Proof. solve_decision. Defined.

Global Instance Field_eq_dec : EqDecision Field.
Proof. solve_decision. Defined.

(** pymarc's test for a control field: [tag < "010" and tag.isdigit()]. *)
Definition is_control_tag (t : string) : bool :=
  String.ltb t "010" && str_isdigit t.

Fixpoint zeros (n : nat) : string :=
  match n with O => EmptyString | S n' => String "0" (zeros n') end.

(** [f"{n:03}"]: the decimal numeral filled with zeros to three
    characters, a minus sign first and counted in the width. *)
Definition format_03 (n : Z) : string :=
  let fill (w : nat) (s : string) := zeros (w - String.length s) +:+ s in
  if (n <? 0)%Z then "-" +:+ fill 2%nat (pretty (Z.abs_N n))
  else fill 3%nat (pretty (Z.to_N n)).

(** The tag a field object gets: [Field.__init__] stores
    [f"{int(tag):03}"], and the tag as given when [int] raises. *)
Definition norm_tag (t : string) : string :=
  match py_int t with
  | Some n => format_03 n
  | None => t
  end.

(** [Field(tag=..., indicators=[i1, i2], subfields=...)]: the constructor
    call of the script, which passes no [data].  The constructor
    normalises the tag and tells a control field by the normalised tag. *)
Definition FieldCls (t : string) (i1 i2 : option string)
    (subs : list Subfield) : Field :=
  let t := norm_tag t in
  if is_control_tag t then mkField t None None [] None
  else mkField t i1 i2 subs None.

(** [rec.get_fields(tags...)]: every field when no tag is given. *)
Definition get_fields (rec : MarcRecord) (tags : list string) : list Field :=
  match tags with
  | [] => rec
  | _ => filter (λ f, tag f ∈ tags) rec
  end.

(** [f.get_subfields(codes...)]: the values, in the field's own order. *)
Definition get_subfields (f : Field) (codes : list string) : list string :=
  value <$> filter (λ sf, code sf ∈ codes) (subfields f).

(** [rec.add_field(f)]. *)
Definition add_field (rec : MarcRecord) (f : Field) : MarcRecord := rec ++ [f].

(** [rec.remove_field(f)]: [list.remove], the first field equal to [f]. *)
Fixpoint remove_field (rec : MarcRecord) (f : Field) : MarcRecord :=
  match rec with
  | [] => []
  | g :: rec' => if decide (g = f) then rec' else g :: remove_field rec' f
  end.

(** [len(x)] of an attribute that may be [None]: [TypeError] then. *)
Definition len_opt (x : option string) : option nat := String.length <$> x.

(** ** Authority scoring (source lines 118-157) *)

Definition newline : ascii := ascii_of_N 10.

(** A literal of the pattern under [re.I]; the rest of the string. *)
Fixpoint lit_ci (p s : string) : option string :=
  match p, s with
  | EmptyString, _ => Some s
  | String a p', String b s' =>
      if Ascii.eqb (lower_char a) (lower_char b) then lit_ci p' s' else None
  | String _ _, EmptyString => None
  end.

(** [:?] *)
Definition opt_colon (s : string) : string :=
  match s with String ":" s' => s' | _ => s end.

(** [ *] *)
Fixpoint skip_sp (s : string) : string :=
  match s with String " " s' => skip_sp s' | _ => s end.

(** [\d] *)
Definition re_d (c : ascii) : bool := in_range 48 57 c.

(** [$]: the end of the string, or just before a newline that ends it. *)
Definition at_eos (s : string) : bool :=
  match s with
  | EmptyString => true
  | String c EmptyString => Ascii.eqb c newline
  | _ => false
  end.

(** [p+$] for a character class [p] that excludes the newline. *)
Fixpoint plus_eos (p : ascii → bool) (s : string) : bool :=
  match s with
  | EmptyString => false
  | String c s' => p c && (at_eos s' || plus_eos p s')
  end.

(** [p{n}] then the continuation [k]. *)
Fixpoint count_then (p : ascii → bool) (n : nat) (k : string → bool)
    (s : string) : bool :=
  match n with
  | O => k s
  | S n' => match s with
            | String c s' => p c && count_then p n' k s'
            | EmptyString => false
            end
  end.

(** [.] *)
Definition re_dot (c : ascii) : bool := negb (Ascii.eqb c newline).

Definition after (p : string) (k : string → bool) (s : string) : bool :=
  match lit_ci p s with Some r => k r | None => false end.

(** [^(viaf:? *\d+|\d{8})$] *)
Definition match_VVIAF (s : string) : bool :=
  after "viaf" (λ r, plus_eos re_d (skip_sp (opt_colon r))) s
  || count_then re_d 8 at_eos s.

(** [^(isni:? *\d{15}[0-9xX])$] *)
Definition match_ISNI (s : string) : bool :=
  after "isni"
    (λ r, count_then re_d 15
            (count_then (λ c, in_range 48 57 c || is_x c) 1 at_eos)
            (skip_sp (opt_colon r))) s.

(** [^(wd:Q\d+|wikidata:Q\d+)$] *)
Definition match_WD (s : string) : bool :=
  after "wd:Q" (plus_eos re_d) s || after "wikidata:Q" (plus_eos re_d) s.

(** [^(bne:.+)$], and likewise for [lemac] and [cantic]. *)
Definition match_scheme (name : string) (s : string) : bool :=
  after (name +:+ ":") (plus_eos re_dot) s.

Inductive auth_name := VVIAF | ISNI | WD | BNE | LEMAC | CANTIC | OTHER.

Definition AUTH_PATTERNS : list (auth_name * (string → bool)) :=
  [ (VVIAF, match_VVIAF); (ISNI, match_ISNI); (WD, match_WD);
    (BNE, match_scheme "bne"); (LEMAC, match_scheme "lemac");
    (CANTIC, match_scheme "cantic") ].

Definition AUTH_SCORES (n : auth_name) : Z :=
  match n with
  | VVIAF => 6 | ISNI => 6 | WD => 5
  | BNE => 4 | LEMAC => 4 | CANTIC => 4
  | OTHER => 2
  end.

(** The inner loop over the patterns, with its [break] and the
    [if not matched] that follows it. *)
Fixpoint score_value (pats : list (auth_name * (string → bool)))
    (v2 : string) : Z :=
  match pats with
  | [] => AUTH_SCORES OTHER
  | (name, pat) :: pats' =>
      if pat v2 then AUTH_SCORES name else score_value pats' v2
  end.

Definition auth_tag (t : Z) : bool :=
  ((100 <=? t) && (t <=? 111) || (600 <=? t) && (t <=? 699)
   || (700 <=? t) && (t <=? 799))%Z.

Definition score_authorities (rec : MarcRecord) : Z :=
  foldl (λ score f,
           match py_int (tag f) with
           | None => score
           | Some t =>
               if negb (auth_tag t) then score
               else foldl (λ score v,
                             (score + score_value AUTH_PATTERNS (strip (lower v)))%Z)
                          score (get_subfields f ["9"])
           end)
        0%Z (get_fields rec []).

(** ** Field extraction (source lines 164-203) *)

(** The fallback of [get_local_id]: field 001, [data or ""]. *)
Definition local_id_001 (rec : MarcRecord) : string :=
  match get_fields rec ["001"] with
  | f1 :: _ => strip (or_empty (data f1))
  | [] => EmptyString
  end.

Definition get_local_id (rec : MarcRecord) : string :=
  match get_fields rec ["999"] with
  | f :: _ =>
      match get_subfields f ["c"] with
      | c :: _ => strip c
      | [] => local_id_001 rec
      end
  | [] => local_id_001 rec
  end.

(** [for t in tags: f = rec.get_fields(t); if f: <f[0]>]. *)
Fixpoint first_field (rec : MarcRecord) (tags : list string) : option Field :=
  match tags with
  | [] => None
  | t :: tags' =>
      match get_fields rec [t] with
      | f :: _ => Some f
      | [] => first_field rec tags'
      end
  end.

Definition extract_author (rec : MarcRecord) : string :=
  match first_field rec ["100"; "110"; "111"] with
  | Some f => join " " (get_subfields f ["a"; "b"; "c"; "d"])
  | None => EmptyString
  end.

Definition extract_title (rec : MarcRecord) : string :=
  match get_fields rec ["245"] with
  | f :: _ => join " " (get_subfields f ["a"; "b"])
  | [] => EmptyString
  end.

(** The three nested loops of [extract_year], flattened in their order. *)
Definition date_subfields (rec : MarcRecord) : list string :=
  t ← ["264"; "260"]; f ← get_fields rec [t]; get_subfields f ["c"].

Fixpoint first_year (cs : list string) : option string :=
  match cs with
  | [] => None
  | c :: cs' =>
      let y := filter_str isdigit c in
      if (4 <=? String.length y)%nat then Some (substring 0 4 y) else first_year cs'
  end.

(** [None] is the [TypeError] of [len] on a missing [data]. *)
Definition extract_year (rec : MarcRecord) : option string :=
  match first_year (date_subfields rec) with
  | Some y => Some y
  | None =>
      match get_fields rec ["008"] with
      | f :: _ =>
          n ← len_opt (data f);
          if (11 <=? n)%nat then
            let y := substring 7 4 (default EmptyString (data f)) in
            Some (if str_isdigit y then y else EmptyString)
          else Some EmptyString
      | [] => Some EmptyString
      end
  end.

(** ** Scoring (source lines 253-283) *)

(** [x not in (" ", "", None)]. *)
Definition indicator_set (x : option string) : bool :=
  match x with
  | None => false
  | Some i => negb (String.eqb i " " || String.eqb i EmptyString)
  end.

Definition has (rec : MarcRecord) (t : string) : bool :=
  match get_fields rec [t] with [] => false | _ => true end.

Definition score_record (rec : MarcRecord) : option Z :=
  let score := 0%Z in
  let score := if has rec "245" then (score + 15)%Z else score in
  let score := if has rec "260" || has rec "264" then (score + 10)%Z else score in
  let score := if has rec "100" || has rec "110" || has rec "111"
               then (score + 8)%Z else score in
  let score := if has rec "020" then (score + 12)%Z else score in
  let score := if has rec "022" then (score + 10)%Z else score in
  let score := if has rec "300" then (score + 4)%Z else score in
  score ← match get_fields rec ["008"] with
          | f :: _ => n ← len_opt (data f);
                      Some (if (40 <=? n)%nat then (score + 15)%Z else score)
          | [] => Some score
          end;
  let score :=
    foldl (λ score f,
             let score := if indicator_set (indicator1 f) then (score + 1)%Z else score in
             if indicator_set (indicator2 f) then (score + 1)%Z else score)
          score (get_fields rec []) in
  Some (score + score_authorities rec)%Z.

(** ** Parameters and normalisation (source lines 46-60) *)

Definition dquote : ascii := ascii_of_N 34.

(** The characters of [PUNCT_TABLE], each mapped to a space. *)
Definition PUNCT : string :=
  ",.;:!?/'" +:+ String dquote "()[]{}<>-&_=+*#@$%^`~|".

Definition PUNCT_TABLE (c : ascii) : ascii :=
  if mem_str c PUNCT then " "%char else c.

(** [s.translate(PUNCT_TABLE)]. *)
Definition translate (s : string) : string := map_str PUNCT_TABLE s.

Definition is_ascii (c : ascii) : bool := (ord c <? 128)%N.

Section Model.

(** [unidecode]'s table for the code points from 128 on; code points
    below 128 are passed through by the library itself. *)
Variable unidecode_table : ascii → string.

Fixpoint unidecode (s : string) : string :=
  match s with
  | EmptyString => EmptyString
  | String c s' =>
      (if is_ascii c then String c EmptyString else unidecode_table c)
        +:+ unidecode s'
  end.

Definition normalize_text (s : option string) : string :=
  let s := translate (lower (unidecode (or_empty s))) in
  join " " (split s).

(** The filter keeps digits and both cases of the letter x; the final
    [.upper()] leaves digits alone and turns [x] into [X]. *)
Definition only_digits_x (s : string) : string :=
  map_str (fun ch => if is_x ch then "X"%char else ch)
          (filter_str (fun ch => isdigit ch || is_x ch) s).

(** ** ISBN and ISSN validation (source lines 67-111)

    A computation that may raise is an [option]: [None] is the exception.
    [int] raises [ValueError] on [X] and on the superscript digits. *)

(** [sum(w(i) * int(x) for i, x in enumerate(s))], from index [i]. *)
Fixpoint weighted_sum (w : nat → Z) (i : nat) (s : string) : option Z :=
  match s with
  | EmptyString => Some 0%Z
  | String x s' =>
      v ← int_of_char x;
      rest ← weighted_sum w (S i) s';
      Some (w i * v + rest)%Z
  end.

(** [d[i]] for an index known to be in range. *)
Definition char_at (i : nat) (d : string) : ascii :=
  default "000"%char (String.get i d).

(** [try ... except: return False]. *)
Definition except_false (r : option bool) : bool := default false r.

Definition is_valid_isbn10 (d : string) : bool :=
  if negb (String.length d =? 10)%nat then false
  else except_false (
    total ← weighted_sum (fun i => Z.of_nat i + 1)%Z 0 (substring 0 9 d);
    let mod_ := (total mod 11)%Z in
    let last := char_at 9 d in
    if Ascii.eqb last "X" && (mod_ =? 10)%Z then Some true
    else if isdigit last then v ← int_of_char last; Some (v =? mod_)%Z
    else Some false).

(** No [try] here: a [ValueError] of [int] escapes to the caller. *)
Definition is_valid_isbn13 (d : string) : option bool :=
  if negb (String.length d =? 13)%nat || negb (str_isdigit d) then Some false
  else
    s ← weighted_sum (fun i => if Nat.even i then 1 else 3)%Z 0 (substring 0 12 d);
    v ← int_of_char (char_at 12 d);
    Some ((10 - s mod 10) mod 10 =? v)%Z.

Definition is_valid_issn (d : string) : bool :=
  let d := if (String.length d =? 7)%nat then "0" +:+ d else d in
  if negb (String.length d =? 8)%nat then false
  else except_false (
    tot ← weighted_sum (fun i => 8 - Z.of_nat i)%Z 0 (substring 0 7 d);
    let chk := ((11 - tot mod 11) mod 11)%Z in
    Some (Ascii.eqb (if (chk =? 10)%Z then "X"%char else char_of_digit chk)
                    (char_at 7 d))).

(** The outer [option] is the exception, the inner one Python's [None]. *)
Definition norm_isbn (VALIDATE : bool) (s : string) : option (option string) :=
  let d := only_digits_x s in
  if (String.length d =? 10)%nat then
    Some (if negb VALIDATE || is_valid_isbn10 d then Some d else None)
  else if (String.length d =? 13)%nat then
    if negb VALIDATE then Some (Some d)
    else ok ← is_valid_isbn13 d; Some (if (ok : bool) then Some d else None)
  else Some None.

Definition norm_issn (VALIDATE : bool) (s : string) : option string :=
  let d := only_digits_x s in
  if negb (nonempty d) then None
  else if negb VALIDATE || is_valid_issn d then Some d else None.

(** ** Identity keys (source lines 206-225) *)

Definition build_fuzzy_key (rec : MarcRecord) : option string :=
  y ← extract_year rec;
  Some (normalize_text
          (Some (extract_author rec +:+ "|" +:+ extract_title rec +:+ "|" +:+ y))).

(** The subfield values the two loops of [extract_strong_key] visit. *)
Definition isbn_values (rec : MarcRecord) : list string :=
  f ← get_fields rec ["020"]; get_subfields f ["a"; "z"].

Definition issn_values (rec : MarcRecord) : list string :=
  f ← get_fields rec ["022"]; get_subfields f ["a"; "y"; "z"].

(** Truthiness of an optional string: neither [None] nor empty. *)
Definition truthy (o : option string) : bool :=
  match o with Some s => nonempty s | None => false end.

Fixpoint first_isbn (VALIDATE : bool) (vs : list string)
    : option (option string) :=
  match vs with
  | [] => Some None
  | v :: vs' =>
      i ← norm_isbn VALIDATE v;
      if truthy i then Some i else first_isbn VALIDATE vs'
  end.

Fixpoint first_issn (VALIDATE : bool) (vs : list string) : option string :=
  match vs with
  | [] => None
  | v :: vs' =>
      let i := norm_issn VALIDATE v in
      if truthy i then i else first_issn VALIDATE vs'
  end.

Definition extract_strong_key (VALIDATE : bool) (rec : MarcRecord)
    : option (option string) :=
  i ← first_isbn VALIDATE (isbn_values rec);
  match i with
  | Some d => Some (Some ("ISBN:" +:+ d))
  | None => Some ((λ d, "ISSN:" +:+ d) <$> first_issn VALIDATE (issn_values rec))
  end.

(** ** Internal structures (source lines 232-246) *)

Record SourceRecord := mkSourceRecord {
  lib : string;
  local_id : string;
  record : MarcRecord;
  strong_key : option string;
  fuzzy_key : option string
}.

Record Cluster := mkCluster {
  cluster_id : nat;
  members : list SourceRecord;
  strong_keys : gset string;
  fuzzy_keys : gset string
}.

(** ** Choice of the primary record (source lines 275-283) *)

Fixpoint pick_preferred (prefer : list string)
    (best : list (nat * SourceRecord)) : option nat :=
  match prefer with
  | [] => None
  | l :: prefer' =>
      match List.find (λ im, String.eqb (lib im.2) l) best with
      | Some im => Some im.1
      | None => pick_preferred prefer' best
      end
  end.

(** The chosen member is returned by its position in [members]: the
    caller mutates that very object.  [max] of an empty sequence raises. *)
Definition choose_primary (members : list SourceRecord)
    (prefer : list string) : option nat :=
  scores ← mapM (λ m, score_record (record m)) members;
  match scores with
  | [] => None
  | s0 :: ss =>
      let maxsc := foldl Z.max s0 ss in
      let scored := zip (seq 0 (length members)) (zip members scores) in
      let best := (λ ims, (ims.1, ims.2.1))
                    <$> filter (λ ims, ims.2.2 = maxsc) scored in
      match pick_preferred prefer best with
      | Some i => Some i
      | None => fst <$> head best
      end
  end.

(** ** Merging a cluster (source lines 290-360) *)

(** Python gives no order to the iteration of a [set] of strings (string
    hashes are salted per process): [set_iter] is the order of the run at
    hand. *)
Variable set_iter : gset string → list string.

Definition str_le (a b : string) : Prop := String.leb a b = true.

Global Instance str_le_dec a b : Decision (str_le a b).
Proof. unfold str_le. apply _. Defined.

(** [sorted(s)] for a set of strings. *)
Definition sorted (s : gset string) : list string :=
  merge_sort str_le (set_iter s).

Definition blank : option string := Some " ".

Definition read (st : store) (i : nat) : MarcRecord := default [] (st !! i).

(** First loop: a provenance and a holdings field per member; the set of
    libraries is collected on the way. *)
Definition annotate (p : nat) (prov_tag hold_tag : string)
    (acc : store * gset string) (sr : SourceRecord) : store * gset string :=
  let '(st, libs) := acc in
  let libs := libs ∪ {[ lib sr ]} in
  let lid := local_id sr in
  let st := alter (λ rec, add_field rec
              (FieldCls prov_tag blank blank
                 [Subf "a" ("(" +:+ lib sr +:+ ")" +:+ lid)])) p st in
  let subs := Subf "a" (lib sr) :: (if nonempty lid then [Subf "b" lid] else []) in
  let st := alter (λ rec, add_field rec (FieldCls hold_tag blank blank subs)) p st in
  (st, libs).

(** [newf]: the field built from [f]'s tag, indicators and subfields. *)
Definition copy_field (f : Field) : Field :=
  FieldCls (tag f) (indicator1 f) (indicator2 f)
           ((λ sf, Subf (code sf) (value sf)) <$> subfields f).

(** [for sr in cluster.members: if sr.record.get_fields(tag): ... break],
    on the records as they stand when the loop runs. *)
Fixpoint find_donor (st : store) (t : string) (i : nat) (n : nat) : option nat :=
  match n with
  | O => None
  | S n' =>
      match get_fields (read st i) [t] with
      | _ :: _ => Some i
      | [] => find_donor st t (S i) n'
      end
  end.

(** One round of the second loop.  [best_rec] is the object at position
    [d]; [rec] is the object at position [p]; the fields to copy are read
    from [best_rec] after the removal, as the source does. *)
Definition donate (p : nat) (st : store) (tag0 : string) : store :=
  let t := strip tag0 in
  if negb (nonempty t) then st
  else match find_donor st t 0 (length st) with
       | None => st
       | Some d =>
           let st := alter (λ rec, foldl remove_field rec (get_fields rec [t])) p st in
           foldl (λ st f, alter (λ rec, add_field rec (copy_field f)) p st)
                 st (get_fields (read st d) [t])
       end.

Definition merge_cluster (cluster : Cluster) (prefer prefer_fields : list string)
    (prov_tag hold_tag merge_tag : string) (keep9 : bool) : option MarcRecord :=
  p ← choose_primary (members cluster) prefer;
  let st := record <$> members cluster in
  let '(st, libs) := foldl (annotate p prov_tag hold_tag) (st, ∅) (members cluster) in
  let st := foldl (donate p) st prefer_fields in
  let texto := "Registro colectivo de " +:+ pretty (length (members cluster))
               +:+ " registros. Bibliotecas: " +:+ join ", " (sorted libs) in
  Some (add_field (read st p)
          (FieldCls merge_tag blank blank [Subf "a" texto])).

(** ** The reader (source lines 367-380) *)

(** [os.path.splitext(path)[1]]. *)
Variable splitext_ext : string → string.

(** [MARCReader] over the opened file: [None] when the file cannot be
    opened; a [None] entry is a record the reader could not decode. *)
Variable MARCReader : string → option (list (option MarcRecord)).

Definition iter_records_mrc (path : string) : option (list MarcRecord) :=
  let ext := lower (splitext_ext path) in
  if bool_decide (ext ∈ [".mrc"; ".marc"; ".dat"; ".iso2709"]) then
    match MARCReader path with
    | Some recs => Some (omap (M:=list) (λ rec, rec) recs)
    | None => None
    end
  else None.

(** ** Building the clusters (source lines 387-450) *)

(** [fuzz.token_sort_ratio]: a float, read as the rational it denotes. *)
Variable token_sort_ratio : string → string → Q.

(** A cluster object is named by its position in [clusters], the order
    of creation.  [fuzzy_index] keeps the insertion order of its keys, as
    a [dict] does. *)
Record State := mkState {
  clusters : list Cluster;
  strong_index : gmap string nat;
  fuzzy_index : list (string * nat);
  next_id : nat
}.

Definition init : State := mkState [] ∅ [] 1.

(** [d[k] = v] on an insertion-ordered [dict]. *)
Fixpoint dict_set (k : string) (v : nat) (d : list (string * nat))
    : list (string * nat) :=
  match d with
  | [] => [(k, v)]
  | (k', v') :: d' =>
      if String.eqb k' k then (k, v) :: d' else (k', v') :: dict_set k v d'
  end.

(** [sc > best_sc] and [best_sc >= weak]. *)
Definition Qgtb (a b : Q) : bool := negb (Qle_bool a b).

Definition scan_step (fk : string) (best : Q * option nat)
    (item : string * nat) : Q * option nat :=
  let sc := token_sort_ratio fk item.1 in
  if Qgtb sc best.1 then (sc, Some item.2) else best.

Definition fuzzy_scan (fk : string) (index : list (string * nat))
    : Q * option nat :=
  foldl (scan_step fk) (0%Q, None) index.

(** The cluster the record is assigned to by the indices, if any. *)
Definition find_cluster (weak : Z) (use_fuzzy strong_only : bool)
    (st : State) (sk fk : option string) : option nat :=
  match (if truthy sk then strong_index st !! or_empty sk else None) with
  | Some cl => Some cl
  | None =>
      if use_fuzzy && negb strong_only && truthy fk then
        let '(best_sc, best_cluster) := fuzzy_scan (or_empty fk) (fuzzy_index st) in
        match best_cluster with
        | Some c => if Qle_bool (inject_Z weak) best_sc then Some c else None
        | None => None
        end
      else None
  end.

Definition add_member (sr : SourceRecord) (c : Cluster) : Cluster :=
  mkCluster (cluster_id c) (members c ++ [sr]) (strong_keys c) (fuzzy_keys c).

Definition add_strong_key (sk : string) (c : Cluster) : Cluster :=
  mkCluster (cluster_id c) (members c) (strong_keys c ∪ {[ sk ]}) (fuzzy_keys c).

Definition add_fuzzy_key (fk : string) (c : Cluster) : Cluster :=
  mkCluster (cluster_id c) (members c) (strong_keys c) (fuzzy_keys c ∪ {[ fk ]}).

(** Steps 4-7: the record joins the cluster found, or a new one, and the
    two indices and the cluster's key sets are updated. *)
Definition place (sr : SourceRecord) (found : option nat) (st : State) : State :=
  let '(cl, st) :=
    match found with
    | Some cl => (cl, st)
    | None =>
        (length (clusters st),
         mkState (clusters st ++ [mkCluster (next_id st) [] ∅ ∅])
                 (strong_index st) (fuzzy_index st) (S (next_id st)))
    end in
  let st := mkState (alter (add_member sr) cl (clusters st))
                    (strong_index st) (fuzzy_index st) (next_id st) in
  let st := if truthy (strong_key sr) then
              let sk := or_empty (strong_key sr) in
              mkState (alter (add_strong_key sk) cl (clusters st))
                      (<[ sk := cl ]> (strong_index st))
                      (fuzzy_index st) (next_id st)
            else st in
  let st := if truthy (fuzzy_key sr) then
              let fk := or_empty (fuzzy_key sr) in
              mkState (alter (add_fuzzy_key fk) cl (clusters st))
                      (strong_index st)
                      (dict_set fk cl (fuzzy_index st)) (next_id st)
            else st in
  st.

(** The body of the inner loop, for one record [r] of source [lib_]. *)
Definition process_record (VALIDATE : bool) (weak : Z)
    (use_fuzzy strong_only : bool) (lib_ : string)
    (st : State) (r : MarcRecord) : option State :=
  sk ← extract_strong_key VALIDATE r;
  fk ← (if use_fuzzy then Some <$> build_fuzzy_key r else Some None);
  let sr := mkSourceRecord lib_ (get_local_id r) r sk fk in
  Some (place sr (find_cluster weak use_fuzzy strong_only st sk fk) st).

(** A loop whose body may raise. *)
Fixpoint fold_exc {A B} (f : B → A → option B) (b : B) (l : list A) : option B :=
  match l with
  | [] => Some b
  | x :: l' => b' ← f b x; fold_exc f b' l'
  end.

Definition process_source (VALIDATE : bool) (weak : Z)
    (use_fuzzy strong_only : bool) (st : State) (src : string * string)
    : option State :=
  recs ← iter_records_mrc src.2;
  fold_exc (process_record VALIDATE weak use_fuzzy strong_only src.1) st recs.

Definition run_clusters (VALIDATE : bool) (sources : list (string * string))
    (weak : Z) (use_fuzzy strong_only : bool) : option State :=
  fold_exc (process_source VALIDATE weak use_fuzzy strong_only) init sources.

Definition build_clusters (VALIDATE : bool) (sources : list (string * string))
    (weak : Z) (use_fuzzy strong_only : bool) : option (list Cluster) :=
  clusters <$> run_clusters VALIDATE sources weak use_fuzzy strong_only.

(** ** Results (source lines 457-507): what is written, as values *)

Definition write_union (cls : list Cluster) (prefer prefer_fields : list string)
    (prov hold merge : string) (keep9 : bool) : option (list MarcRecord) :=
  mapM (λ cl, merge_cluster cl prefer prefer_fields prov hold merge keep9) cls.

(** A row of the CSV report. *)
Definition report_row (c : Cluster) : nat * nat * string * string :=
  (cluster_id c, length (members c), join ";" (sorted (strong_keys c)),
   join ";" (sorted (list_to_set (lib <$> members c)))).

Definition write_report (cls : list Cluster) : list (nat * nat * string * string) :=
  report_row <$> cls.

(** An object of the JSON manifest. *)
Definition json_entry (c : Cluster) : nat * list string * list (string * string) :=
  (cluster_id c, sorted (strong_keys c),
   (λ m, (lib m, local_id m)) <$> members c).

Definition write_json (cls : list Cluster)
    : list (nat * list string * list (string * string)) :=
  json_entry <$> cls.

(** ** The entry point (source lines 538-581) *)

(** The parsed command line. *)
Record Args := mkArgs {
  src : list string;
  prefer_ : string;
  prefer_fields_ : string;
  provenance_tag : string;
  holdings_tag : string;
  merge_note_tag : string;
  keep_9xx : bool;
  no_fuzzy : bool;
  weak_threshold : Z;
  strong_only_ : bool;
  no_checksum : bool;
  clusters_json : bool
}.

(** [s.split(sep)] for a one-character separator. *)
Fixpoint split_on (sep : ascii) (s : string) : list string :=
  match s with
  | EmptyString => [EmptyString]
  | String c s' =>
      if Ascii.eqb c sep then EmptyString :: split_on sep s'
      else match split_on sep s' with
           | w :: ws => String c w :: ws
           | [] => [String c EmptyString]
           end
  end.

(** [lib, path = s.split("=", 1)] for a string that contains the sign. *)
Fixpoint split_once (sep : ascii) (s : string) : string * string :=
  match s with
  | EmptyString => (EmptyString, EmptyString)
  | String c s' =>
      if Ascii.eqb c sep then (EmptyString, s')
      else let '(a, b) := split_once sep s' in (String c a, b)
  end.

(** The loop over [a.src]. *)
Definition parse_sources (srcs : list string) : list (string * string) :=
  flat_map (λ s, if negb (mem_str "=" s) then []
                 else let '(l, path) := split_once "=" s in
                      [(strip l, strip path)]) srcs.

(** [[x.strip() for x in s.split(",") if x.strip()]]. *)
Definition comma_list (s : string) : list string :=
  strip <$> List.filter (λ x, nonempty (strip x)) (split_on "," s).

Record Outputs := mkOutputs {
  union : list MarcRecord;
  report : list (nat * nat * string * string);
  manifest : option (list (nat * list string * list (string * string)))
}.

Definition main (a : Args) : option Outputs :=
  let VALIDATE := negb (no_checksum a) in
  let sources := parse_sources (src a) in
  let prefer := comma_list (prefer_ a) in
  let prefer_fields := comma_list (prefer_fields_ a) in
  cls ← build_clusters VALIDATE sources (weak_threshold a)
          (negb (no_fuzzy a)) (strong_only_ a);
  merged ← write_union cls prefer prefer_fields (provenance_tag a)
             (holdings_tag a) (merge_note_tag a) (keep_9xx a);
  Some (mkOutputs merged (write_report cls)
          (if clusters_json a then Some (write_json cls) else None)).

End Model.

(** * Vocabulary of the statements *)

(** A token: a non-empty run without whitespace. *)
Definition token (w : string) : Prop :=
  w ≠ EmptyString ∧ all_str (λ c, negb (isspace c)) w = true.

(** The text just before it is split into words. *)
Definition prep (table : ascii → string) (s : string) : string :=
  translate (lower (unidecode table s)).

(** What one pass leaves of a character of 7-bit text: 7-bit, fixed by
    [lower] and by the punctuation table. *)
Definition settled (c : ascii) : bool :=
  is_ascii c && Ascii.eqb (lower_char c) c && Ascii.eqb (PUNCT_TABLE c) c.

(** ** The ISSN check, as the specification words it *)

(** Left-padding of a 7-character string with one zero. *)
Definition pad7 (d : string) : string :=
  if (String.length d =? 7)%nat then "0" +:+ d else d.

Definition digit_value (c : ascii) : Z := (Z.of_N (ord c) - 48)%Z.

(** The sum of [(8 - i) * digit_i] over the positions 0..6. *)
Definition issn_sum (d : string) : Z :=
  foldr (λ i acc, ((8 - Z.of_nat i) * digit_value (char_at i d) + acc)%Z) 0%Z (seq 0 7).

Definition issn_check_char (d : string) : ascii :=
  let chk := ((11 - issn_sum d mod 11) mod 11)%Z in
  if (chk =? 10)%Z then "X"%char else char_of_digit chk.

Definition issn_valid_spec (d : string) : bool :=
  let d' := pad7 d in
  (String.length d' =? 8)%nat
  && all_str re_d (substring 0 7 d')
  && Ascii.eqb (issn_check_char d') (char_at 7 d').

(** ** The fuzzy scan *)

Definition score (ratio : string → string → Q) (fk : string)
    (item : string * nat) : Q := ratio fk item.1.

(** The item at [i] is the first to reach the maximum of the scores. *)
Definition first_max (ratio : string → string → Q) (fk : string)
    (index : list (string * nat)) (i : nat) (item : string * nat) : Prop :=
  index !! i = Some item
  ∧ (∀ item', item' ∈ index → (score ratio fk item' <= score ratio fk item)%Q)
  ∧ (∀ j item', j < i → index !! j = Some item' →
       (score ratio fk item' < score ratio fk item)%Q).

(** ** One record *)

(** What joining a cluster does to it. *)
Definition joined (sr : SourceRecord) (c : Cluster) : Cluster :=
  let c := add_member sr c in
  let c := if truthy (strong_key sr)
           then add_strong_key (or_empty (strong_key sr)) c else c in
  if truthy (fuzzy_key sr) then add_fuzzy_key (or_empty (fuzzy_key sr)) c else c.

(** The position of the cluster a record is placed in. *)
Definition target (found : option nat) (st : State) : nat :=
  default (length (clusters st)) found.

Definition with_new (found : option nat) (st : State) : list Cluster :=
  match found with
  | Some _ => clusters st
  | None => clusters st ++ [mkCluster (next_id st) [] ∅ ∅]
  end.

(** ** The indices point into the store *)

Definition refers (st : State) (c : nat) : Prop :=
  (∃ k, strong_index st !! k = Some c) ∨ (∃ k, (k, c) ∈ fuzzy_index st).

Definition wf (st : State) : Prop :=
  ∀ c, refers st c → c < length (clusters st).

Section Vocabulary.

Variable table : ascii → string.
Variable splitext_ext : string → string.
Variable MARCReader : string → option (list (option MarcRecord)).
Variable ratio : string → string → Q.
Variables (VALIDATE : bool) (weak : Z) (use_fuzzy strong_only : bool).

(** One labelled record of the stream. *)
Definition step (st : State) (lr : string * MarcRecord) : option State :=
  process_record table ratio VALIDATE weak use_fuzzy strong_only lr.1 st lr.2.

Definition steps (st : State) (l : list (string * MarcRecord)) : option State :=
  fold_exc step st l.

(** The records of all sources, in the order they are processed, each
    with the label of its source. *)
Fixpoint stream (srcs : list (string * string))
    : option (list (string * MarcRecord)) :=
  match srcs with
  | [] => Some []
  | src :: srcs' =>
      recs ← iter_records_mrc splitext_ext MARCReader src.2;
      rest ← stream srcs';
      Some (((λ r, (src.1, r)) <$> recs) ++ rest)
  end.

(** The keys of a record, or the exception their extraction raises. *)
Definition keys_of (r : MarcRecord) : option (option string * option string) :=
  sk ← extract_strong_key VALIDATE r;
  fk ← (if use_fuzzy then Some <$> build_fuzzy_key table r else Some None);
  Some (sk, fk).

Definition source_record (lib_ : string) (r : MarcRecord)
    (ks : option string * option string) : SourceRecord :=
  mkSourceRecord lib_ (get_local_id r) r ks.1 ks.2.

(** Author, title and year leave no word after normalisation. *)
Definition no_text (r : MarcRecord) : Prop :=
  normalize_text table (Some (extract_author r)) = EmptyString
  ∧ normalize_text table (Some (extract_title r)) = EmptyString
  ∧ extract_year r = Some EmptyString.

End Vocabulary.

(** The strong index has no cluster for the record's strong key. *)
Definition no_strong_hit (st : State) (sk : option string) : Prop :=
  (if truthy sk then strong_index st !! or_empty sk else None) = None.

(** An iteration order of sets: each set is enumerated once. *)
Definition enumerates (set_iter : gset string → list string) : Prop :=
  ∀ s, set_iter s ≡ₚ elements s.

(** ** Further vocabulary *)

(** The weighted sum of the digit values of a string, from index [i]. *)
Fixpoint wsum (w : nat → Z) (i : nat) (s : string) : Z :=
  match s with
  | EmptyString => 0
  | String x s' => w i * digit_value x + wsum w (S i) s'
  end.

(** The check character of an ISSN whose check value is [chk]. *)
Definition issn_check (chk : Z) : ascii :=
  if (chk =? 10)%Z then "X"%char else char_of_digit chk.

(** The alphabet of a normalised identifier. *)
Definition digit_or_X (c : ascii) : bool := isdigit c || Ascii.eqb c "X".

Section Runs.

Variable table : ascii → string.
Variable splitext_ext : string → string.
Variable MARCReader : string → option (list (option MarcRecord)).
Variable ratio : string → string → Q.
Variables (VALIDATE : bool) (weak : Z) (use_fuzzy strong_only : bool).

(** Steps 2-7 for a record whose keys are known. *)
Definition assign (st : State) (sr : SourceRecord) : State :=
  place sr (find_cluster ratio weak use_fuzzy strong_only st
              (strong_key sr) (fuzzy_key sr)) st.

Definition assign_all (st : State) (srs : list SourceRecord) : State :=
  foldl assign st srs.

(** The records of a stream with their keys, or the first exception. *)
Definition records_of (l : list (string * MarcRecord)) : option (list SourceRecord) :=
  mapM (λ lr, source_record lr.1 lr.2 <$> keys_of table VALIDATE use_fuzzy lr.2) l.

(** The records of a run, in the order they are processed. *)
Definition run_records (srcs : list (string * string)) : option (list SourceRecord) :=
  stream splitext_ext MARCReader srcs ≫= records_of.

End Runs.

(** The extensions [iter_records_mrc] accepts. *)
Definition MRC_EXTENSIONS : list string := [".mrc"; ".marc"; ".dat"; ".iso2709"].

(** ** Invariants of the clustering state *)

(** Clusters are numbered by their position, and the counter is one
    ahead. *)
Definition numbered (st : State) : Prop :=
  next_id st = S (length (clusters st))
  ∧ ∀ k c, clusters st !! k = Some c → cluster_id c = S k.

(** The member lists hold the records [srs], each once, in their order. *)
Definition conserved (st : State) (srs : list SourceRecord) : Prop :=
  concat (members <$> clusters st) ≡ₚ srs
  ∧ Forall (λ c, members c `sublist_of` srs) (clusters st).

(** The strong index sends the key of every member to the member's
    cluster. *)
Definition strong_indexed (st : State) : Prop :=
  ∀ i c m, clusters st !! i = Some c → m ∈ members c →
           truthy (strong_key m) = true →
           strong_index st !! or_empty (strong_key m) = Some i.

(** The key sets of a cluster are the keys of its members. *)
Definition keys_recorded (c : Cluster) : Prop :=
  (∀ k, k ∈ strong_keys c
        ↔ ∃ m, m ∈ members c ∧ strong_key m = Some k ∧ k ≠ EmptyString)
  ∧ (∀ k, k ∈ fuzzy_keys c
          ↔ ∃ m, m ∈ members c ∧ fuzzy_key m = Some k ∧ k ≠ EmptyString).

(** All members of cluster [i] carry the strong key [sk]; without a
    usable key the cluster has one member; the strong index refers to the
    cluster by that key only. *)
Definition keyed_by (st : State) (i : nat) (c : Cluster)
    (sk : option string) : Prop :=
  members c ≠ []
  ∧ (∀ m, m ∈ members c → strong_key m = sk)
  ∧ (truthy sk = false → length (members c) = 1)
  ∧ (∀ k, strong_index st !! k = Some i → sk = Some k).

Definition strong_classes (st : State) : Prop :=
  ∀ i c, clusters st !! i = Some c → ∃ sk, keyed_by st i c sk.

(** ** The parts of a merged record *)

(** [scored] of [choose_primary], each member with its position. *)
Definition scored_of (members : list SourceRecord) (scores : list Z)
  : list (nat * (SourceRecord * Z)) :=
  zip (seq 0 (length members)) (zip members scores).

(** The provenance and the holdings field the first loop of
    [merge_cluster] builds for a member. *)
Definition annotations (prov_tag hold_tag : string) (sr : SourceRecord)
  : list Field :=
  [ FieldCls prov_tag blank blank
      [Subf "a" ("(" +:+ lib sr +:+ ")" +:+ local_id sr)];
    FieldCls hold_tag blank blank
      (Subf "a" (lib sr)
         :: (if nonempty (local_id sr) then [Subf "b" (local_id sr)] else [])) ].

(** The closing note of [merge_cluster]. *)
Definition merge_note (set_iter : gset string → list string)
    (merge_tag : string) (ms : list SourceRecord) : Field :=
  FieldCls merge_tag blank blank
    [Subf "a" ("Registro colectivo de " +:+ pretty (length ms)
               +:+ " registros. Bibliotecas: "
               +:+ join ", " (sorted set_iter (list_to_set (lib <$> ms))))].

(** The columns of a report row and of a manifest entry. *)
Definition row_id (row : nat * nat * string * string) : nat := row.1.1.1.
Definition row_size (row : nat * nat * string * string) : nat := row.1.1.2.
Definition row_keys (row : nat * nat * string * string) : string := row.1.2.
Definition entry_id (e : nat * list string * list (string * string)) : nat := e.1.1.
Definition entry_keys (e : nat * list string * list (string * string))
  : list string := e.1.2.
Definition entry_members (e : nat * list string * list (string * string))
  : list (string * string) := e.2.

(** A character [normalize_text] can leave in a word: no punctuation of
    [PUNCT], no capital A-Z. *)
Definition plain (c : ascii) : bool :=
  negb (mem_str c PUNCT) && negb (in_range 65 90 c).

(** A string without whitespace at either end. *)
Definition trimmed (s : string) : Prop := strip s = s.

(** Some field of [r] with tag [t] has a subfield, with a code among
    [codes], whose value is [v]. *)
Definition holds_value (r : MarcRecord) (t : string) (codes : list string)
    (v : string) : Prop :=
  ∃ f sf, f ∈ r ∧ tag f = t ∧ sf ∈ subfields f ∧ code sf ∈ codes ∧ value sf = v.

(** ** Where a record sits *)

(** Record [m] is a member of the cluster at position [i]. *)
Definition in_cluster (cls : list Cluster) (i : nat) (m : SourceRecord) : Prop :=
  ∃ c, cls !! i = Some c ∧ m ∈ members c.

(** The fuzzy index holds each key once, as a [dict] does. *)
Definition one_entry_per_key (st : State) : Prop :=
  NoDup (fuzzy_index st).*1.

(** ** The ISBN checks, as the specification words them *)

(** The sum of [(i + 1) * digit_i] over the positions 0..8. *)
Definition isbn10_sum (d : string) : Z :=
  foldr (λ i acc, ((Z.of_nat i + 1) * digit_value (char_at i d) + acc)%Z) 0%Z (seq 0 9).

(** Exactly 10 characters, the first nine of them digits; with
    [mod = sum % 11], the tenth is [X] and [mod = 10], or the tenth is the
    digit [mod]. *)
Definition isbn10_valid_spec (d : string) : bool :=
  (String.length d =? 10)%nat
  && all_str re_d (substring 0 9 d)
  && (let m := (isbn10_sum d mod 11)%Z in
      Ascii.eqb (char_at 9 d) "X" && (m =? 10)%Z
      || re_d (char_at 9 d) && (digit_value (char_at 9 d) =? m)%Z).

(** The sum of [weight_i * digit_i] over the positions 0..11, the weight
    1 at an even position and 3 at an odd one. *)
Definition isbn13_sum (d : string) : Z :=
  foldr (λ i acc, ((if Nat.even i then 1 else 3) * digit_value (char_at i d) + acc)%Z)
        0%Z (seq 0 12).

(** Exactly 13 digits, the thirteenth equal to [(10 - sum % 10) % 10]. *)
Definition isbn13_valid_spec (d : string) : bool :=
  (String.length d =? 13)%nat
  && all_str re_d d
  && ((10 - isbn13_sum d mod 10) mod 10 =? digit_value (char_at 12 d))%Z.

(** A record with no valid standard identifier: no value of a subfield a
    or z of a field 020 reduces, by [only_digits_x], to a valid ISBN-10 or
    ISBN-13, and no value of a subfield a, y or z of a field 022 to a
    valid ISSN.  Validity is the specification's, whatever the checksum
    flag of the run. *)
Definition no_valid_identifier (r : MarcRecord) : Prop :=
  (∀ v, holds_value r "020" ["a"; "z"] v →
        isbn10_valid_spec (only_digits_x v) = false
        ∧ isbn13_valid_spec (only_digits_x v) = false)
  ∧ (∀ v, holds_value r "022" ["a"; "y"; "z"] v →
          issn_valid_spec (only_digits_x v) = false).

(** The members of a cluster by local identifier, each with its strong
    key. *)
Definition keys_by_id (c : Cluster) : list (string * option string) :=
  (λ m, (local_id m, strong_key m)) <$> members c.

(** * Instances of the library interfaces, for examples *)

(** An excerpt of [unidecode]'s table: the accented letters of Spanish;
    every other code point above 127 is dropped. *)
Definition latin_table (c : ascii) : string :=
  match ord c with
  | 193 => "A" | 201 => "E" | 205 => "I" | 211 => "O" | 218 => "U"
  | 209 => "N" | 220 => "U"
  | 225 => "a" | 233 => "e" | 237 => "i" | 243 => "o" | 250 => "u"
  | 241 => "n" | 252 => "u"
  | _ => EmptyString
  end%N.

(** The longest common subsequence of two strings. *)
Fixpoint lcs (a b : string) : nat :=
  match a with
  | EmptyString => 0
  | String x a' =>
      (fix inner (b : string) : nat :=
         match b with
         | EmptyString => 0
         | String y b' =>
             if Ascii.eqb x y then S (lcs a' b')
             else Nat.max (inner b') (lcs a' b)
         end) b
  end.

(** [token_sort_ratio] in exact arithmetic: the words of each string are
    sorted and joined by spaces, and the two results [a], [b] score
    [200 * lcs a b / (len a + len b)], or 100 when both are empty. *)
Definition token_sort (s : string) : string :=
  join " " (merge_sort str_le (split s)).

Definition indel_ratio (s1 s2 : string) : Q :=
  let a := token_sort s1 in
  let b := token_sort s2 in
  match (String.length a + String.length b)%nat with
  | O => 100%Q
  | S n => Qmake (200 * Z.of_nat (lcs a b)) (Pos.of_succ_nat n)
  end.

(** [os.path.splitext(path)[1]] on POSIX: the text from the last dot of
    the last path component, leading dots of the component apart. *)
Fixpoint basename (s : string) : string :=
  match s with
  | EmptyString => EmptyString
  | String c s' => if mem_str "/" s' then basename s'
                   else if Ascii.eqb c "/" then s' else s
  end.

Fixpoint skip_dots (s : string) : string :=
  match s with String "." s' => skip_dots s' | _ => s end.

Fixpoint last_ext (s : string) : string :=
  match s with
  | EmptyString => EmptyString
  | String c s' => if mem_str "." s' then last_ext s'
                   else if Ascii.eqb c "." then s else EmptyString
  end.

Definition posix_ext (path : string) : string :=
  last_ext (skip_dots (basename path)).

(** A reader over a fixed association of paths to decoded records. *)
Definition reader_of (files : list (string * list (option MarcRecord)))
    (path : string) : option (list (option MarcRecord)) :=
  snd <$> List.find (λ f, String.eqb f.1 path) files.

Definition title_record (ident title : string) : MarcRecord :=
  [ mkField "001" None None [] (Some ident);
    mkField "245" (Some "1") (Some "0") [Subf "a" title] None ].

(** ** Example data *)
Definition ficciones : MarcRecord := title_record "1" "Ficciones".

Definition lone_cluster : Cluster :=
  mkCluster 1 [mkSourceRecord "L1" "1" ficciones None (Some "ficciones")]
            ∅ {[ "ficciones" ]}.

Definition issn_record (v : string) : MarcRecord :=
  [ mkField "022" (Some " ") (Some " ") [Subf "a" v] None ].

(** [a] with its source arguments replaced. *)
Definition with_src (a : Args) (l : list string) : Args :=
  mkArgs l (prefer_ a) (prefer_fields_ a) (provenance_tag a) (holdings_tag a)
         (merge_note_tag a) (keep_9xx a) (no_fuzzy a) (weak_threshold a)
         (strong_only_ a) (no_checksum a) (clusters_json a).

(** The text of the fuzzy key with spaces between its components. *)
Definition key_text (rec : MarcRecord) : option string :=
  y ← extract_year rec;
  Some (extract_author rec +:+ " " +:+ extract_title rec +:+ " " +:+ y).

Definition rec_abcd : MarcRecord := title_record "1" "abcd".
Definition rec_abcde : MarcRecord := title_record "2" "abcde".
Definition rec_bcdef : MarcRecord := title_record "7" "bcdef".
Definition rec_abc : MarcRecord := title_record "1" "abc".
Definition rec_xyz : MarcRecord := title_record "2" "xyz".
Definition rec_keyless : MarcRecord := [ mkField "001" None None [] (Some "k") ].

Definition rec_rich : MarcRecord :=
  [ mkField "100" (Some "1") (Some " ") [Subf "a" "Borges, Jorge Luis"] None;
    mkField "245" (Some "1") (Some "0") [Subf "a" "Ficciones completas"] None;
    mkField "260" (Some " ") (Some " ") [Subf "c" "1944"] None ].

(** The first member has the title, the second the higher score. *)
Definition pair_cluster : Cluster :=
  mkCluster 1 [ mkSourceRecord "L1" "1" ficciones None None;
                mkSourceRecord "L2" "9" rec_rich None None ] ∅ ∅.

Definition chain_files : list (string * list (option MarcRecord)) :=
  [ ("a.mrc", [Some rec_abcd; None; Some rec_abcde]);
    ("b.mrc", [Some rec_bcdef]) ].

Definition sources_ab : list (string * string) :=
  [ ("L1", "a.mrc"); ("L2", "b.mrc") ].

Definition keyless_files : list (string * list (option MarcRecord)) :=
  [ ("a.mrc", [Some rec_abcd; Some rec_keyless]);
    ("b.mrc", [Some rec_abcde]) ].

Definition zero_files : list (string * list (option MarcRecord)) :=
  [ ("a.mrc", [Some rec_abc; Some rec_xyz]) ].

Definition state_abcd : State :=
  mkState [mkCluster 1 [mkSourceRecord "L1" "1" rec_abcd None (Some "abcd")]
             ∅ {[ "abcd" ]}]
          ∅ [("abcd", 0)] 2.

Definition state_abc : State :=
  mkState [mkCluster 1 [mkSourceRecord "L1" "1" rec_abc None (Some "abc")]
             ∅ {[ "abc" ]}]
          ∅ [("abc", 0)] 2.

Definition args_malformed : Args :=
  mkArgs ["LIB1"; "L2=b.mrc"] "" "245,260,264" "035" "910" "948"
         false false 92 false false true.

Definition args_chain : Args :=
  mkArgs ["L1=a.mrc"; "L2=b.mrc"] "L2" "245,260,264" "035" "910" "948"
         false false 70 false false true.

Definition cafe : string := "  Caf" +:+ String (ascii_of_N 233) " -- DEL|Mar, 1999 ".

Definition rec_split_1 : MarcRecord :=
  [ mkField "100" (Some "1") (Some " ") [Subf "a" "Ana Maria"] None;
    mkField "245" (Some "1") (Some "0") [Subf "a" "Lopez obras"] None ].

Definition rec_split_2 : MarcRecord :=
  [ mkField "100" (Some "1") (Some " ") [Subf "a" "Ana"] None;
    mkField "245" (Some "1") (Some "0") [Subf "a" "Maria Lopez obras"] None ].

(** Two descriptions of one edition, the ISBN written in two ways. *)
Definition rec_isbn_a : MarcRecord :=
  [ mkField "001" None None [] (Some "11");
    mkField "020" (Some " ") (Some " ") [Subf "a" "978-0-306-40615-7"] None;
    mkField "245" (Some "1") (Some "0") [Subf "a" "Plasma physics"] None ].

Definition rec_isbn_b : MarcRecord :=
  [ mkField "001" None None [] (Some "12");
    mkField "020" (Some " ") (Some " ") [Subf "a" "9780306406157 (hbk)"] None;
    mkField "245" (Some "0") (Some "0") [Subf "a" "Introduction to plasmas"] None ].

Definition isbn_files : list (string * list (option MarcRecord)) :=
  [ ("a.mrc", [Some rec_isbn_a; Some rec_abcd]);
    ("b.mrc", [Some rec_isbn_b]) ].

(** Three records with the same score; the last two come from [L2]. *)
Definition tied_members : list SourceRecord :=
  [ mkSourceRecord "L1" "1" rec_abcd None (Some "abcd");
    mkSourceRecord "L2" "2" rec_abcde None (Some "abcde");
    mkSourceRecord "L2" "7" rec_bcdef None (Some "bcdef") ].

Definition sources_txt : list (string * string) :=
  [ ("L1", "a.mrc"); ("L9", "notes.txt") ].

(** A run for the chaining of fuzzy keys: X, then A, B and an unrelated
    record in the first file, C in the second. *)
Definition rec_x : MarcRecord :=
  [ mkField "001" None None [] (Some "10");
    mkField "020" (Some " ") (Some " ") [Subf "a" "9780306406157"] None;
    mkField "245" (Some "1") (Some "0") [Subf "a" "qqqq"] None ].

Definition rec_n : MarcRecord := title_record "13" "yyyy".

(** A second description of X's edition under B's title. *)
Definition rec_e : MarcRecord :=
  [ mkField "001" None None [] (Some "14");
    mkField "020" (Some " ") (Some " ") [Subf "a" "9780306406157"] None;
    mkField "245" (Some "1") (Some "0") [Subf "a" "abcde"] None ].

Definition growth_files : list (string * list (option MarcRecord)) :=
  [ ("a.mrc", [Some rec_x; Some rec_abcd; Some rec_abcde; Some rec_n]);
    ("b.mrc", [Some rec_bcdef]) ].

Definition repoint_files : list (string * list (option MarcRecord)) :=
  [ ("a.mrc", [Some rec_x; Some rec_abcd; Some rec_abcde; Some rec_e]);
    ("b.mrc", [Some rec_bcdef]) ].

Definition sr_X : SourceRecord :=
  mkSourceRecord "L1" "10" rec_x (Some "ISBN:9780306406157") (Some "qqqq").
Definition sr_A : SourceRecord :=
  mkSourceRecord "L1" "1" rec_abcd None (Some "abcd").
Definition sr_B : SourceRecord :=
  mkSourceRecord "L1" "2" rec_abcde None (Some "abcde").
Definition sr_N : SourceRecord :=
  mkSourceRecord "L1" "13" rec_n None (Some "yyyy").
Definition sr_E : SourceRecord :=
  mkSourceRecord "L1" "14" rec_e (Some "ISBN:9780306406157") (Some "abcde").
Definition sr_C : SourceRecord :=
  mkSourceRecord "L2" "7" rec_bcdef None (Some "bcdef").

(** C's title under X's identifier. *)
Definition rec_bcdef_keyed : MarcRecord :=
  [ mkField "001" None None [] (Some "15");
    mkField "020" (Some " ") (Some " ") [Subf "a" "9780306406157"] None;
    mkField "245" (Some "1") (Some "0") [Subf "a" "bcdef"] None ].

Definition strong_hit_files : list (string * list (option MarcRecord)) :=
  [ ("a.mrc", [Some rec_x; Some rec_abcd; Some rec_abcde]);
    ("b.mrc", [Some rec_bcdef_keyed]) ].

Definition sr_C_keyed : SourceRecord :=
  mkSourceRecord "L2" "15" rec_bcdef_keyed (Some "ISBN:9780306406157") (Some "bcdef").

(** Two records with the same two identifiers, both invalid, and no
    author, title or year. *)
Definition rec_unkeyed : MarcRecord :=
  [ mkField "001" None None [] (Some "k");
    mkField "020" (Some " ") (Some " ") [Subf "a" "1234567890"] None;
    mkField "022" (Some " ") (Some " ") [Subf "a" "12"] None ].

Definition rec_unkeyed_twin : MarcRecord :=
  [ mkField "001" None None [] (Some "k2");
    mkField "020" (Some " ") (Some " ") [Subf "a" "1234567890"] None;
    mkField "022" (Some " ") (Some " ") [Subf "a" "12"] None ].

Definition unkeyed_files : list (string * list (option MarcRecord)) :=
  [ ("a.mrc", [Some rec_abcd; Some rec_unkeyed]);
    ("b.mrc", [Some rec_unkeyed_twin; Some rec_abcde]) ].

(** ** The validators on strings of any script

    The three validators read a character only through [str.isdigit],
    through [int] and through its comparison with a fixed ASCII
    character.  Here a [str] is the list of its code points, of any
    range, and the two library functions are variables: [isdigit c] is
    [ch.isdigit()], and [int_of_char c] is [int(ch)], [None] for
    [ValueError].  Digits of every script are within reach this way, which
    the Latin-1 strings of the rest of the model are not. *)

Module Unicode.

Section Validators.

Variable isdigit : N → bool.
Variable int_of_char : N → option Z.

(** [ord("X")] and [ord("0")]. *)
Definition X : N := 88.
Definition zero : N := 48.

(** [d[i]] for an index known to be in range. *)
Definition char_at (i : nat) (d : list N) : N := default 0%N (d !! i).

(** [sum(w(i) * int(x) for i, x in enumerate(s))], from index [i]. *)
Fixpoint weighted_sum (w : nat → Z) (i : nat) (s : list N) : option Z :=
  match s with
  | [] => Some 0%Z
  | x :: s' =>
      v ← int_of_char x;
      rest ← weighted_sum w (S i) s';
      Some (w i * v + rest)%Z
  end.

(** [d.isdigit()]: non-empty, every character a digit. *)
Definition str_isdigit (d : list N) : bool :=
  match d with [] => false | _ => forallb isdigit d end.

Definition is_valid_isbn10 (d : list N) : bool :=
  if negb (length d =? 10)%nat then false
  else except_false (
    total ← weighted_sum (fun i => Z.of_nat i + 1)%Z 0 (take 9 d);
    let mod_ := (total mod 11)%Z in
    let last := char_at 9 d in
    if (last =? X)%N && (mod_ =? 10)%Z then Some true
    else if isdigit last then v ← int_of_char last; Some (v =? mod_)%Z
    else Some false).

Definition is_valid_isbn13 (d : list N) : option bool :=
  if negb (length d =? 13)%nat || negb (str_isdigit d) then Some false
  else
    s ← weighted_sum (fun i => if Nat.even i then 1 else 3)%Z 0 (take 12 d);
    v ← int_of_char (char_at 12 d);
    Some ((10 - s mod 10) mod 10 =? v)%Z.

(** [str(chk)] for [0 <= chk <= 9] is the ASCII digit. *)
Definition is_valid_issn (d : list N) : bool :=
  let d := if (length d =? 7)%nat then zero :: d else d in
  if negb (length d =? 8)%nat then false
  else except_false (
    tot ← weighted_sum (fun i => 8 - Z.of_nat i)%Z 0 (take 7 d);
    let chk := ((11 - tot mod 11) mod 11)%Z in
    Some ((if (chk =? 10)%Z then X else (zero + Z.to_N chk)%N) =? char_at 7 d)%N).

(** Two characters that [int] reads as the same digit. *)
Definition same_digit (a b : N) : Prop :=
  ∃ v, int_of_char a = Some v ∧ int_of_char b = Some v.

End Validators.

(** The code points of a Latin-1 string. *)
Definition codes (s : string) : list N := N_of_ascii <$> list_ascii_of_string s.

(** The two library functions as the rest of the model has them, read on
    code points: the values they take below 256. *)
Definition latin_isdigit (c : N) : bool := (c <? 256)%N && isdigit (ascii_of_N c).

Definition latin_int (c : N) : option Z :=
  if (c <? 256)%N then int_of_char (ascii_of_N c) else None.

(** A part of the tables of the library: the ASCII digits and the
    fullwidth digits U+FF10..U+FF19 are decimal digits, the three
    superscript digits of Latin-1 are digits that [int] refuses. *)
Definition sample_int (c : N) : option Z :=
  if ((48 <=? c) && (c <=? 57))%N then Some (Z.of_N c - 48)%Z
  else if ((65296 <=? c) && (c <=? 65305))%N then Some (Z.of_N c - 65296)%Z
  else None.

Definition sample_isdigit (c : N) : bool :=
  bool_decide (is_Some (sample_int c))
  || (c =? 178)%N || (c =? 179)%N || (c =? 185)%N.

End Unicode.

(** * Properties *)

(** ** Strings *)

Lemma app_str_nil (b : string) : EmptyString +:+ b = b.
Proof. reflexivity. Qed.

Lemma app_str_cons c (a b : string) : String c a +:+ b = String c (a +:+ b).
Proof. reflexivity. Qed.

Lemma app_str_nil_r (a : string) : a +:+ EmptyString = a.
Proof. induction a as [|x a IH]; [done |]. by rewrite app_str_cons, IH. Qed.

Lemma app_str_assoc (a b c : string) : (a +:+ b) +:+ c = a +:+ (b +:+ c).
Proof.
  induction a as [|x a IH]; [done |]. by rewrite !app_str_cons, IH.
Qed.

Lemma map_str_app f (a b : string) :
  map_str f (a +:+ b) = map_str f a +:+ map_str f b.
Proof.
  induction a as [|x a IH]; [done |].
  rewrite app_str_cons. simpl. by rewrite IH, app_str_cons.
Qed.

Lemma all_str_app p (a b : string) :
  all_str p (a +:+ b) = all_str p a && all_str p b.
Proof.
  induction a as [|x a IH]; [done |].
  rewrite app_str_cons. simpl. by rewrite IH, andb_assoc.
Qed.

Lemma all_str_map p f (s : string) :
  all_str p (map_str f s) = all_str (λ c, p (f c)) s.
Proof. induction s as [|x s IH]; simpl; [done | by rewrite IH]. Qed.

Lemma all_str_impl (p q : ascii → bool) (s : string) :
  (∀ c, p c = true → q c = true) → all_str p s = true → all_str q s = true.
Proof.
  intros Hpq. induction s as [|x s IH]; simpl; [done |].
  rewrite !andb_true_iff. intros [Hx Hs]. auto.
Qed.

Lemma map_str_id_on (f : ascii → ascii) (s : string) :
  all_str (λ c, Ascii.eqb (f c) c) s = true → map_str f s = s.
Proof.
  induction s as [|x s IH]; simpl; [done |].
  rewrite andb_true_iff. intros [Hx Hs].
  apply Ascii.eqb_eq in Hx. by rewrite Hx, IH.
Qed.

Lemma split_space c (s : string) : isspace c = true → split (String c s) = split s.
Proof. intros H. simpl. by rewrite H. Qed.

Lemma split_single c : isspace c = false → split (String c EmptyString) = [String c EmptyString].
Proof. intros H. simpl. by rewrite H. Qed.

Lemma split_cons2 c c' (s : string) :
  isspace c = false →
  split (String c (String c' s)) =
    if isspace c' then String c EmptyString :: split (String c' s)
    else match split (String c' s) with
         | w :: ws => String c w :: ws
         | [] => [String c EmptyString]
         end.
Proof.
  intros H. change (split (String c (String c' s))) with
    (if isspace c then split (String c' s)
     else if isspace c' then String c EmptyString :: split (String c' s)
     else match split (String c' s) with
          | w :: ws => String c w :: ws
          | [] => [String c EmptyString]
          end).
  by rewrite H.
Qed.

Lemma split_nonspace_head c (s : string) :
  isspace c = false → split (String c s) ≠ [].
Proof.
  intros H. destruct s as [|c' s']; [by rewrite split_single |].
  rewrite split_cons2 by done.
  destruct (isspace c'); [done |]. by destruct (split (String c' s')).
Qed.

Lemma split_tokens (s : string) : Forall token (split s).
Proof.
  induction s as [|c s IH]; [constructor |].
  destruct (isspace c) eqn:Hc; [by rewrite split_space |].
  assert (Ht : token (String c EmptyString)).
  { split; [done |]. simpl. by rewrite Hc. }
  destruct s as [|c' s'].
  { rewrite split_single by done. by constructor; [| constructor]. }
  rewrite split_cons2 by done.
  destruct (isspace c') eqn:Hc'; [by constructor |].
  destruct (split (String c' s')) as [|w ws] eqn:Hsp; [by constructor; [| constructor] |].
  inversion IH as [|? ? [Hw1 Hw2] Hws]; subst.
  constructor; [|done]. split; [done |]. simpl. by rewrite Hc, Hw2.
Qed.

Lemma split_all p (s : string) :
  all_str p s = true → Forall (λ w, all_str p w = true) (split s).
Proof.
  induction s as [|c s IH]; [constructor |].
  intros Hall. assert (Hall' := Hall). simpl in Hall'.
  apply andb_true_iff in Hall' as [Hpc Hps]. specialize (IH Hps).
  destruct (isspace c) eqn:Hc; [by rewrite split_space |].
  assert (Ht : all_str p (String c EmptyString) = true).
  { simpl. by rewrite Hpc. }
  destruct s as [|c' s'].
  { rewrite split_single by done. by constructor; [| constructor]. }
  rewrite split_cons2 by done.
  destruct (isspace c') eqn:Hc'; [by constructor |].
  destruct (split (String c' s')) as [|w ws] eqn:Hsp; [by constructor; [| constructor] |].
  inversion IH as [|? ? Hw Hws]; subst.
  constructor; [|done]. simpl. by rewrite Hpc, Hw.
Qed.

(** Splitting a token followed by a space and more text. *)
Lemma split_token_space (w rest : string) :
  token w → split (w +:+ String " " rest) = w :: split rest.
Proof.
  intros [Hne Hns]. induction w as [|c w IH]; [done |].
  simpl in Hns. apply andb_true_iff in Hns as [Hc Hw].
  apply negb_true_iff in Hc.
  rewrite app_str_cons.
  destruct w as [|c' w'].
  - rewrite app_str_nil. rewrite split_cons2 by done.
    change (isspace " ") with true. cbv iota.
    by rewrite split_space.
  - assert (Hc' : isspace c' = false).
    { simpl in Hw. apply andb_true_iff in Hw as [Hc' _]. by apply negb_true_iff. }
    rewrite app_str_cons in *.
    rewrite split_cons2 by done.
    rewrite Hc'. rewrite IH by done. done.
Qed.

Lemma split_token (w : string) : token w → split w = [w].
Proof.
  intros [Hne Hns]. induction w as [|c w IH]; [done |].
  simpl in Hns. apply andb_true_iff in Hns as [Hc Hw].
  apply negb_true_iff in Hc.
  destruct w as [|c' w']; [by rewrite split_single |].
  rewrite split_cons2 by done.
  assert (Hc' : isspace c' = false).
  { simpl in Hw. apply andb_true_iff in Hw as [Hc' _]. by apply negb_true_iff. }
  rewrite Hc'. by rewrite IH.
Qed.

Lemma join_cons sep (x : string) (l : list string) :
  l ≠ [] → join sep (x :: l) = x +:+ sep +:+ join sep l.
Proof. by destruct l. Qed.

Lemma split_join (ws : list string) :
  Forall token ws → split (join " " ws) = ws.
Proof.
  induction 1 as [|w ws Hw Hws IH]; [done |].
  destruct ws as [|w' ws'].
  - simpl. by apply split_token.
  - rewrite join_cons by done.
    rewrite (app_str_cons " " EmptyString), app_str_nil.
    rewrite split_token_space by done. by rewrite IH.
Qed.

Lemma map_str_join f (ws : list string) :
  f " "%char = " "%char →
  map_str f (join " " ws) = join " " (map_str f <$> ws).
Proof.
  intros Hf. induction ws as [|w ws IH]; [done |].
  destruct ws as [|w' ws']; [done |].
  rewrite join_cons by done.
  rewrite !fmap_cons. rewrite !fmap_cons in IH.
  rewrite (join_cons _ (map_str f w)) by done.
  rewrite !map_str_app, IH. simpl. by rewrite Hf.
Qed.

(** ** Normalisation *)

Section Normalize.

Variable table : ascii → string.

Local Abbreviation prep := (prep table).

Lemma normalize_text_prep (s : option string) :
  normalize_text table s = join " " (split (prep (or_empty s))).
Proof. reflexivity. Qed.

Lemma unidecode_app (a b : string) :
  unidecode table (a +:+ b) = unidecode table a +:+ unidecode table b.
Proof.
  induction a as [|x a IH]; [done |].
  rewrite app_str_cons. simpl. by rewrite IH, app_str_assoc.
Qed.

Lemma prep_app (a b : string) : prep (a +:+ b) = prep a +:+ prep b.
Proof.
  unfold prep, translate, lower. by rewrite unidecode_app, !map_str_app.
Qed.

Lemma prep_bar : prep "|" = " ".
Proof. reflexivity. Qed.

Lemma prep_space : prep " " = " ".
Proof. reflexivity. Qed.

(** The bar between the components of the fuzzy key is read as a space. *)
Lemma prep_bar_space (a t y : string) :
  prep (a +:+ "|" +:+ t +:+ "|" +:+ y) = prep (a +:+ " " +:+ t +:+ " " +:+ y).
Proof. by rewrite !prep_app, prep_bar, prep_space. Qed.

Lemma settled_char (c : ascii) :
  is_ascii c = true → settled (PUNCT_TABLE (lower_char c)) = true.
Proof.
  destruct c as [[] [] [] [] [] [] [] []]; intros H;
    first [discriminate H | vm_compute; reflexivity].
Qed.

Hypothesis table_ascii : ∀ c, all_str is_ascii (table c) = true.

Lemma unidecode_ascii (s : string) : all_str is_ascii (unidecode table s) = true.
Proof.
  induction s as [|c s IH]; [done |]. simpl.
  rewrite all_str_app, IH, andb_true_r.
  destruct (is_ascii c) eqn:Hc; [simpl; by rewrite Hc | apply table_ascii].
Qed.

Lemma prep_settled (s : string) : all_str settled (prep s) = true.
Proof.
  unfold prep, translate, lower. rewrite !all_str_map.
  eapply all_str_impl; [| apply unidecode_ascii].
  intros c Hc. by apply settled_char.
Qed.

Lemma unidecode_id (s : string) :
  all_str is_ascii s = true → unidecode table s = s.
Proof.
  induction s as [|c s IH]; [done |]. simpl.
  rewrite andb_true_iff. intros [Hc Hs]. by rewrite Hc, IH.
Qed.

Lemma prep_id (s : string) : all_str settled s = true → prep s = s.
Proof.
  intros Hs. unfold prep, translate, lower.
  rewrite unidecode_id.
  - rewrite (map_str_id_on lower_char).
    + apply map_str_id_on. eapply all_str_impl; [| exact Hs].
      intros c. unfold settled. rewrite !andb_true_iff. tauto.
    + eapply all_str_impl; [| exact Hs].
      intros c. unfold settled. rewrite !andb_true_iff. tauto.
  - eapply all_str_impl; [| exact Hs].
    intros c. unfold settled. rewrite !andb_true_iff. tauto.
Qed.

Lemma all_str_join p (ws : list string) :
  p " "%char = true → Forall (λ w, all_str p w = true) ws →
  all_str p (join " " ws) = true.
Proof.
  intros Hsp. induction 1 as [|w ws Hw Hws IH]; [done |].
  destruct ws as [|w' ws']; [done |].
  rewrite join_cons by done. rewrite !all_str_app, Hw, IH. simpl. by rewrite Hsp.
Qed.

Lemma normalize_text_settled (s : option string) :
  all_str settled (normalize_text table s) = true.
Proof.
  rewrite normalize_text_prep. apply all_str_join; [done |].
  apply split_all, prep_settled.
Qed.

Lemma normalize_text_idem (s : option string) :
  normalize_text table (Some (normalize_text table s)) = normalize_text table s.
Proof.
  rewrite (normalize_text_prep (Some _)). simpl.
  rewrite prep_id by apply normalize_text_settled.
  rewrite normalize_text_prep, split_join; [done | apply split_tokens].
Qed.

End Normalize.

(** ** The ISSN check *)

Lemma length_8_inv (s : string) :
  String.length s = 8%nat →
  ∃ c0 c1 c2 c3 c4 c5 c6 c7,
    s = String c0 (String c1 (String c2 (String c3 (String c4 (String c5
          (String c6 (String c7 EmptyString))))))).
Proof.
  intros H.
  do 8 (destruct s as [|? s]; [discriminate H |]).
  destruct s; [| discriminate H]. by do 8 eexists.
Qed.

Lemma int_of_char_digit c :
  int_of_char c = if re_d c then Some (digit_value c) else None.
Proof. reflexivity. Qed.

Lemma is_valid_issn_pad (d : string) :
  is_valid_issn d =
    let d := pad7 d in
    if negb (String.length d =? 8)%nat then false
    else except_false (
      tot ← weighted_sum (fun i => 8 - Z.of_nat i)%Z 0 (substring 0 7 d);
      let chk := ((11 - tot mod 11) mod 11)%Z in
      Some (Ascii.eqb (if (chk =? 10)%Z then "X"%char else char_of_digit chk)
                      (char_at 7 d))).
Proof. reflexivity. Qed.

(** C8: [is_valid_issn] is the check the specification words.  A string
    of length 7 is first padded on the left with one zero; a string whose
    padded length is not 8 is rejected; otherwise the sum of
    [(8 - i) * digit_i] over the positions 0..6 gives
    [chk = (11 - sum mod 11) mod 11], and the string is valid exactly when
    its position 7 is [X] for [chk = 10] and the digit [chk] otherwise.
    The sum exists only when the positions 0..6 hold decimal digits: with
    an [X] among them [int] raises and the result is [False], which is the
    conjunct [all_str re_d] of [issn_valid_spec].  The equation holds for
    every string, digit/[X] strings among them. *)
Theorem is_valid_issn_spec (d : string) : is_valid_issn d = issn_valid_spec d.
Proof.
  rewrite is_valid_issn_pad. unfold issn_valid_spec.
  generalize (pad7 d). clear d. intros d. cbv zeta.
  destruct (String.length d =? 8)%nat eqn:Hlen; [| reflexivity].
  apply Nat.eqb_eq, length_8_inv in Hlen
    as (c0 & c1 & c2 & c3 & c4 & c5 & c6 & c7 & ->).
  cbn [negb andb substring weighted_sum all_str].
  rewrite !int_of_char_digit.
  destruct (re_d c0); [| reflexivity].
  destruct (re_d c1); [| reflexivity].
  destruct (re_d c2); [| reflexivity].
  destruct (re_d c3); [| reflexivity].
  destruct (re_d c4); [| reflexivity].
  destruct (re_d c5); [| reflexivity].
  destruct (re_d c6); [| reflexivity].
  cbn [mbind option_bind except_false default andb].
  unfold issn_check_char, issn_sum.
  cbn [foldr seq char_at String.get default Z.of_nat].
  reflexivity.
Qed.

(** ** The fuzzy scan *)

Lemma Qgtb_true (a b : Q) : Qgtb a b = true ↔ (b < a)%Q.
Proof.
  unfold Qgtb. rewrite negb_true_iff. split.
  - intros H. apply Qnot_le_lt. intros Hle.
    apply Qle_bool_iff in Hle. congruence.
  - intros H. destruct (Qle_bool a b) eqn:E; [| done].
    apply Qle_bool_iff in E. exfalso. by apply (Qlt_not_le b a).
Qed.

Lemma Qgtb_false (a b : Q) : Qgtb a b = false ↔ (a <= b)%Q.
Proof.
  unfold Qgtb. rewrite negb_false_iff. apply Qle_bool_iff.
Qed.

Section Scan.

Variable ratio : string → string → Q.
Variable fk : string.

Local Abbreviation score := (score ratio fk).
Local Abbreviation first_max := (first_max ratio fk).

Lemma scan_from (index : list (string * nat)) (b : Q) (bc : option nat) :
  let r := foldl (scan_step ratio fk) (b, bc) index in
  (r = (b, bc) ∧ ∀ item, item ∈ index → (score item <= b)%Q)
  ∨ (∃ i item, first_max index i item
       ∧ r = (score item, Some item.2) ∧ (b < score item)%Q).
Proof.
  revert b bc. induction index as [|it index IH]; intros b bc; simpl.
  { left. split; [reflexivity |]. intros item H. by apply not_elem_of_nil in H. }
  change (scan_step ratio fk (b, bc) it)
    with (if Qgtb (ratio fk it.1) b then (ratio fk it.1, Some it.2) else (b, bc)).
  destruct (Qgtb (ratio fk it.1) b) eqn:Hgt.
  - apply Qgtb_true in Hgt.
    destruct (IH (ratio fk it.1) (Some it.2)) as [[Hr Hle] | (i & item & (Hi & Hmax & Hfirst) & Hr & Hlt)].
    + right. exists 0, it. split; [| split; [exact Hr | exact Hgt]].
      split; [done |]. split.
      * intros item' [-> | Hin]%elem_of_cons; [apply Qle_refl | by apply Hle].
      * intros j item' Hj. lia.
    + right. exists (S i), item. split; [| split; [exact Hr |]].
      * split; [done |]. split.
        -- intros item' [-> | Hin]%elem_of_cons; [by apply Qlt_le_weak | by apply Hmax].
        -- intros [|j] item' Hj Hlook; simpl in Hlook.
           ++ by injection Hlook as <-.
           ++ apply (Hfirst j); [lia | done].
      * by apply Qlt_trans with (ratio fk it.1).
  - apply Qgtb_false in Hgt.
    destruct (IH b bc) as [[Hr Hle] | (i & item & (Hi & Hmax & Hfirst) & Hr & Hlt)].
    + left. split; [exact Hr |].
      intros item' [-> | Hin]%elem_of_cons; [done | by apply Hle].
    + right. exists (S i), item. split; [| split; [exact Hr | exact Hlt]].
      split; [done |]. split.
      * intros item' [-> | Hin]%elem_of_cons; [| by apply Hmax].
        apply Qlt_le_weak. by apply Qle_lt_trans with b.
      * intros [|j] item' Hj Hlook; simpl in Hlook.
        -- injection Hlook as <-. by apply Qle_lt_trans with b.
        -- apply (Hfirst j); [lia | done].
Qed.

Lemma first_max_unique index i item i' item' :
  first_max index i item → first_max index i' item' → i = i' ∧ item = item'.
Proof.
  intros (Hi & Hmax & Hfirst) (Hi' & Hmax' & Hfirst').
  assert (i = i') as ->.
  { destruct (lt_eq_lt_dec i i') as [[Hlt | Heq] | Hlt]; [| done |].
    - exfalso. apply (Qlt_not_le _ _ (Hfirst' _ _ Hlt Hi)).
      apply Hmax. by eapply list_elem_of_lookup_2.
    - exfalso. apply (Qlt_not_le _ _ (Hfirst _ _ Hlt Hi')).
      apply Hmax'. by eapply list_elem_of_lookup_2. }
  split; [done | congruence].
Qed.

(** The scan returns the cluster of the first key that reaches the
    maximum, provided that maximum is above zero; otherwise no cluster. *)
Lemma fuzzy_scan_spec (index : list (string * nat)) :
  (fuzzy_scan ratio fk index = (0%Q, None)
   ∧ ∀ item, item ∈ index → (score item <= 0)%Q)
  ∨ (∃ i item, first_max index i item
       ∧ fuzzy_scan ratio fk index = (score item, Some item.2)
       ∧ (0 < score item)%Q).
Proof. apply scan_from. Qed.

End Scan.

(** ** The dictionary with insertion order *)

Lemma elem_of_dict_set k v d k' v' :
  (k', v') ∈ dict_set k v d → (k' = k ∧ v' = v) ∨ (k', v') ∈ d.
Proof.
  induction d as [|[k0 v0] d IH]; simpl.
  - intros [= -> ->]%list_elem_of_singleton. left. by split.
  - destruct (String.eqb k0 k) eqn:E.
    + intros [Heq | Hin]%elem_of_cons.
      * left. by injection Heq.
      * right. by apply elem_of_cons; right.
    + intros [Heq | Hin]%elem_of_cons.
      * right. rewrite Heq. by apply elem_of_cons; left.
      * destruct (IH Hin) as [? | ?]; [by left | right].
        by apply elem_of_cons; right.
Qed.

Lemma dict_set_elem_of k v d : (k, v) ∈ dict_set k v d.
Proof.
  induction d as [|[k0 v0] d IH]; simpl.
  - by apply list_elem_of_singleton.
  - destruct (String.eqb k0 k); apply elem_of_cons; [by left | by right].
Qed.

(** ** One record *)

Lemma members_joined sr c : members (joined sr c) = members c ++ [sr].
Proof. unfold joined. by destruct (truthy (strong_key sr)), (truthy (fuzzy_key sr)). Qed.

Lemma cluster_id_joined sr c : cluster_id (joined sr c) = cluster_id c.
Proof. unfold joined. by destruct (truthy (strong_key sr)), (truthy (fuzzy_key sr)). Qed.

Lemma place_clusters sr found st :
  clusters (place sr found st) = alter (joined sr) (target found st) (with_new found st).
Proof.
  unfold place, joined, target, with_new.
  destruct found as [c|]; simpl;
    destruct (truthy (strong_key sr)), (truthy (fuzzy_key sr)); simpl;
    rewrite ?list_alter_alter_eq; reflexivity.
Qed.

Lemma place_strong_index sr found st :
  strong_index (place sr found st) =
    if truthy (strong_key sr)
    then <[ or_empty (strong_key sr) := target found st ]> (strong_index st)
    else strong_index st.
Proof.
  unfold place, target.
  by destruct found as [c|]; simpl;
    destruct (truthy (strong_key sr)), (truthy (fuzzy_key sr)).
Qed.

Lemma place_fuzzy_index sr found st :
  fuzzy_index (place sr found st) =
    if truthy (fuzzy_key sr)
    then dict_set (or_empty (fuzzy_key sr)) (target found st) (fuzzy_index st)
    else fuzzy_index st.
Proof.
  unfold place, target.
  by destruct found as [c|]; simpl;
    destruct (truthy (strong_key sr)), (truthy (fuzzy_key sr)).
Qed.

Lemma place_next_id sr found st :
  next_id (place sr found st) =
    match found with Some _ => next_id st | None => S (next_id st) end.
Proof.
  unfold place.
  by destruct found as [c|]; simpl;
    destruct (truthy (strong_key sr)), (truthy (fuzzy_key sr)).
Qed.

Lemma length_with_new found st :
  length (with_new found st) =
    match found with Some _ => length (clusters st) | None => S (length (clusters st)) end.
Proof. destruct found; simpl; [done |]. rewrite length_app. simpl. lia. Qed.

Lemma length_place sr found st :
  length (clusters (place sr found st)) = length (with_new found st).
Proof. by rewrite place_clusters, length_alter. Qed.

Lemma place_other sr found st n :
  n < length (clusters st) → n ≠ target found st →
  clusters (place sr found st) !! n = clusters st !! n.
Proof.
  intros Hn Hne. rewrite place_clusters, list_lookup_alter_ne by done.
  destruct found; simpl; [done |]. by rewrite lookup_app_l.
Qed.

(** ** The indices point into the store *)

Lemma wf_init : wf init.
Proof.
  intros c [[k Hk] | [k Hk]]; simpl in *.
  - by rewrite lookup_empty in Hk.
  - by apply not_elem_of_nil in Hk.
Qed.

Lemma refers_place sr found st c :
  refers (place sr found st) c → c = target found st ∨ refers st c.
Proof.
  intros [[k Hk] | [k Hk]].
  - rewrite place_strong_index in Hk.
    destruct (truthy (strong_key sr)); [| right; left; eauto].
    destruct (decide (or_empty (strong_key sr) = k)) as [<- | Hne].
    + rewrite lookup_insert_eq in Hk. left. congruence.
    + rewrite lookup_insert_ne in Hk by done. right; left; eauto.
  - rewrite place_fuzzy_index in Hk.
    destruct (truthy (fuzzy_key sr)); [| right; right; eauto].
    apply elem_of_dict_set in Hk as [[_ ->] | Hin]; [by left | right; right; eauto].
Qed.

Section Find.

Variable ratio : string → string → Q.
Variables (weak : Z) (use_fuzzy strong_only : bool).

Lemma find_cluster_refers st sk fk c :
  find_cluster ratio weak use_fuzzy strong_only st sk fk = Some c → refers st c.
Proof.
  unfold find_cluster.
  destruct (if truthy sk then strong_index st !! or_empty sk else None) as [c'|] eqn:Hs.
  - intros [= ->]. destruct (truthy sk); [| done]. left. eauto.
  - destruct (use_fuzzy && negb strong_only && truthy fk); [| done].
    destruct (fuzzy_scan_spec ratio (or_empty fk) (fuzzy_index st))
      as [[-> _] | (i & item & (Hi & _) & -> & _)]; [done |].
    destruct (Qle_bool (inject_Z weak) _); [| done].
    intros [= <-]. right. exists item.1.
    apply list_elem_of_lookup_2 with i. by destruct item.
Qed.

Lemma wf_place sr st sk fk :
  wf st →
  wf (place sr (find_cluster ratio weak use_fuzzy strong_only st sk fk) st).
Proof.
  intros Hwf c Hc. rewrite length_place, length_with_new.
  apply refers_place in Hc as [-> | Hc].
  - unfold target.
    destruct (find_cluster _ _ _ _ _ _ _) as [c'|] eqn:Hf; simpl; [| lia].
    by apply Hwf, find_cluster_refers with sk fk.
  - specialize (Hwf _ Hc). destruct (find_cluster _ _ _ _ _ _ _); lia.
Qed.

(** A cluster no index refers to is out of reach of every later record. *)
Lemma place_unreferred sr st sk fk n :
  wf st → n < length (clusters st) → ¬ refers st n →
  let st' := place sr (find_cluster ratio weak use_fuzzy strong_only st sk fk) st in
  clusters st' !! n = clusters st !! n
  ∧ n < length (clusters st') ∧ ¬ refers st' n.
Proof.
  intros Hwf Hn Hun st'.
  assert (Hne : n ≠ target (find_cluster ratio weak use_fuzzy strong_only st sk fk) st).
  { unfold target.
    destruct (find_cluster _ _ _ _ _ _ _) as [c'|] eqn:Hf; simpl; [| lia].
    intros ->. by apply Hun, find_cluster_refers with sk fk. }
  split; [by apply place_other |]. split.
  - unfold st'. rewrite length_place, length_with_new.
    destruct (find_cluster _ _ _ _ _ _ _); lia.
  - intros [-> | Hc]%refers_place; [done | by apply Hun].
Qed.

End Find.

Lemma fold_exc_app {A B} (f : B → A → option B) (b : B) (l1 l2 : list A) :
  fold_exc f b (l1 ++ l2) = fold_exc f b l1 ≫= λ b', fold_exc f b' l2.
Proof.
  revert b. induction l1 as [|x l1 IH]; intros b; simpl; [done |].
  destruct (f b x) as [b'|]; simpl; [apply IH | done].
Qed.

Lemma fold_exc_cons {A B} (f : B → A → option B) (b : B) (x : A) (l : list A) :
  fold_exc f b (x :: l) = f b x ≫= λ b', fold_exc f b' l.
Proof. reflexivity. Qed.

Lemma split_app_space (a b : string) :
  split (a +:+ String " " b) = split a ++ split b.
Proof.
  induction a as [|c a IH].
  - rewrite app_str_nil. by rewrite split_space.
  - rewrite app_str_cons.
    destruct (isspace c) eqn:Hc.
    { by rewrite !split_space. }
    destruct a as [|c' a'].
    + rewrite app_str_nil, split_cons2, split_single by done.
      change (isspace " ") with true. cbv iota. by rewrite split_space.
    + rewrite app_str_cons in *. rewrite !split_cons2 by done.
      rewrite IH.
      destruct (isspace c') eqn:Hc'; [done |].
      pose proof (split_nonspace_head c' a' Hc') as Hne.
      by destruct (split (String c' a')).
Qed.

Lemma join_empty (ws : list string) :
  Forall token ws → join " " ws = EmptyString → ws = [].
Proof.
  intros Hws. destruct Hws as [|w ws [Hne _] Hws]; [done |].
  destruct ws as [|w' ws']; simpl; [done |].
  destruct w; [done | discriminate].
Qed.

Section Engine.

Variable table : ascii → string.
Variable splitext_ext : string → string.
Variable MARCReader : string → option (list (option MarcRecord)).
Variable ratio : string → string → Q.
Variables (VALIDATE : bool) (weak : Z) (use_fuzzy strong_only : bool).

Local Abbreviation step := (step table ratio VALIDATE weak use_fuzzy strong_only).
Local Abbreviation steps := (steps table ratio VALIDATE weak use_fuzzy strong_only).
Local Abbreviation stream := (stream splitext_ext MARCReader).
Local Abbreviation keys_of := (keys_of table VALIDATE use_fuzzy).
Local Abbreviation no_text := (no_text table).

Lemma step_keys st lr :
  step st lr =
    ks ← keys_of lr.2;
    Some (place (source_record lr.1 lr.2 ks)
            (find_cluster ratio weak use_fuzzy strong_only st ks.1 ks.2) st).
Proof.
  unfold step, process_record, keys_of.
  destruct (extract_strong_key VALIDATE lr.2) as [sk|]; simpl; [| done].
  by destruct (if use_fuzzy then Some <$> build_fuzzy_key table lr.2 else Some None).
Qed.

Lemma steps_cons st lr l :
  steps st (lr :: l) = step st lr ≫= λ st', steps st' l.
Proof. reflexivity. Qed.

Lemma steps_source lib_ st (recs : list MarcRecord) :
  fold_exc (process_record table ratio VALIDATE weak use_fuzzy strong_only lib_) st recs
  = steps st ((λ r, (lib_, r)) <$> recs).
Proof.
  revert st. induction recs as [|r recs IH]; intros st; [done |].
  rewrite fmap_cons, steps_cons. simpl.
  change (step st (lib_, r))
    with (process_record table ratio VALIDATE weak use_fuzzy strong_only lib_ st r).
  destruct (process_record _ _ _ _ _ _ _ _ _); simpl; [apply IH | done].
Qed.

Lemma process_source_eq st (src : string * string) :
  process_source table splitext_ext MARCReader ratio VALIDATE weak use_fuzzy
    strong_only st src
  = iter_records_mrc splitext_ext MARCReader src.2 ≫=
      fold_exc (process_record table ratio VALIDATE weak use_fuzzy strong_only src.1) st.
Proof. reflexivity. Qed.

Lemma run_from_stream st srcs :
  fold_exc (process_source table splitext_ext MARCReader ratio
              VALIDATE weak use_fuzzy strong_only) st srcs
  = stream srcs ≫= steps st.
Proof.
  revert st. induction srcs as [|src srcs IH]; intros st; [done |].
  rewrite fold_exc_cons, process_source_eq. simpl stream.
  destruct (iter_records_mrc splitext_ext MARCReader src.2) as [recs|]; simpl; [| done].
  rewrite steps_source.
  destruct (stream srcs) as [rest|] eqn:Hrest; simpl.
  - unfold steps at 2. rewrite fold_exc_app.
    fold (steps st ((λ r, (src.1, r)) <$> recs)).
    destruct (steps st _) as [st'|]; simpl; [| done].
    by rewrite IH.
  - destruct (steps st _) as [st'|]; simpl; [| done].
    by rewrite IH.
Qed.

Lemma build_clusters_stream srcs :
  build_clusters table splitext_ext MARCReader ratio VALIDATE srcs weak
    use_fuzzy strong_only
  = clusters <$> (stream srcs ≫= steps init).
Proof. unfold build_clusters, run_clusters. by rewrite run_from_stream. Qed.

Lemma wf_step st lr st' : wf st → step st lr = Some st' → wf st'.
Proof.
  intros Hwf. rewrite step_keys.
  destruct (keys_of lr.2) as [ks|]; simpl; [| done].
  intros [= <-]. by apply wf_place.
Qed.

Lemma wf_steps l st st' : wf st → steps st l = Some st' → wf st'.
Proof.
  revert st. induction l as [|lr l IH]; intros st Hwf.
  - by intros [= <-].
  - rewrite steps_cons.
    destruct (step st lr) as [st1|] eqn:Hst; simpl; [| done].
    apply IH. by eapply wf_step.
Qed.

Lemma unreferred_steps l st st' n :
  wf st → n < length (clusters st) → ¬ refers st n →
  steps st l = Some st' → clusters st' !! n = clusters st !! n.
Proof.
  revert st. induction l as [|lr l IH]; intros st Hwf Hn Hun.
  - by intros [= <-].
  - rewrite steps_cons.
    destruct (step st lr) as [st1|] eqn:Hst; simpl; [| done].
    intros Hrest.
    assert (Hwf1 := wf_step _ _ _ Hwf Hst).
    rewrite step_keys in Hst.
    destruct (keys_of lr.2) as [ks|]; simpl in Hst; [| done].
    injection Hst as <-.
    destruct (place_unreferred ratio weak use_fuzzy strong_only
                (source_record lr.1 lr.2 ks) st ks.1 ks.2 n Hwf Hn Hun)
      as (Heq & Hn' & Hun').
    rewrite <- Heq. by apply IH.
Qed.

(** *** Records without keys *)

Lemma normalize_empty_split s :
  normalize_text table (Some s) = EmptyString → split (prep table s) = [].
Proof.
  rewrite normalize_text_prep. simpl. apply join_empty, split_tokens.
Qed.

Lemma no_text_fuzzy_key r :
  no_text r → build_fuzzy_key table r = Some EmptyString.
Proof.
  intros (Ha & Ht & Hy). unfold build_fuzzy_key. rewrite Hy. simpl. f_equal.
  rewrite normalize_text_prep. simpl.
  rewrite !prep_app, prep_bar.
  rewrite !(app_str_cons " " EmptyString), !app_str_nil.
  rewrite !split_app_space.
  rewrite (normalize_empty_split _ Ha), (normalize_empty_split _ Ht).
  reflexivity.
Qed.

End Engine.

Section Claims.

Variable table : ascii → string.
Variable splitext_ext : string → string.
Variable MARCReader : string → option (list (option MarcRecord)).
Variable ratio : string → string → Q.
Variables (VALIDATE : bool) (weak : Z).

Local Abbreviation steps' uf so := (steps table ratio VALIDATE weak uf so).
Local Abbreviation step' uf so := (step table ratio VALIDATE weak uf so).
Local Abbreviation build uf so srcs :=
  (build_clusters table splitext_ext MARCReader ratio VALIDATE srcs weak uf so).

Lemma steps_app (uf so : bool) st l1 l2 :
  steps' uf so st (l1 ++ l2) = steps' uf so st l1 ≫= λ st', steps' uf so st' l2.
Proof. apply fold_exc_app. Qed.

Lemma truthy_empty_fuzzy (uf : bool) :
  truthy (if uf then Some EmptyString else None) = false.
Proof. by destruct uf. Qed.

(** The step of a record without keys. *)
Lemma keyless_step (uf so : bool) st lib_ r :
  extract_strong_key VALIDATE r = Some None → no_text table r →
  let sr := mkSourceRecord lib_ (get_local_id r) r None
              (if uf then Some EmptyString else None) in
  step' uf so st (lib_, r) =
    Some (mkState (clusters st ++ [mkCluster (next_id st) [sr] ∅ ∅])
            (strong_index st) (fuzzy_index st) (S (next_id st))).
Proof.
  intros Hid Htx sr. rewrite step_keys. unfold keys_of. simpl.
  rewrite Hid. simpl.
  rewrite (no_text_fuzzy_key _ _ Htx).
  assert (Hfk : (if uf then Some <$> Some EmptyString else Some None)
                = Some (if uf then Some EmptyString else None)) by by destruct uf.
  rewrite Hfk. simpl. f_equal.
  unfold source_record. simpl. fold sr.
  assert (Hfind : find_cluster ratio weak uf so st None
                    (if uf then Some EmptyString else None) = None).
  { unfold find_cluster. simpl. rewrite truthy_empty_fuzzy.
    by rewrite andb_false_r. }
  rewrite Hfind. unfold place. simpl. rewrite truthy_empty_fuzzy. simpl.
  f_equal.
  rewrite <- (Nat.add_0_r (length (clusters st))), alter_app_r. done.
Qed.

End Claims.

Lemma nonempty_true (s : string) : s ≠ EmptyString → nonempty s = true.
Proof. by destruct s. Qed.

Section Fuzzy.

Variable table : ascii → string.
Variable ratio : string → string → Q.
Variables (VALIDATE : bool) (weak : Z).

Lemma find_cluster_fuzzy st sk fk :
  no_strong_hit st sk → fk ≠ EmptyString →
  find_cluster ratio weak true false st sk (Some fk) =
    match (fuzzy_scan ratio fk (fuzzy_index st)).2 with
    | Some c =>
        if Qle_bool (inject_Z weak) (fuzzy_scan ratio fk (fuzzy_index st)).1
        then Some c else None
    | None => None
    end.
Proof.
  intros Hs Hfk. unfold find_cluster. rewrite Hs. simpl.
  rewrite (nonempty_true _ Hfk).
  by destruct (fuzzy_scan ratio fk (fuzzy_index st)).
Qed.

Lemma find_cluster_first_max st sk fk c :
  no_strong_hit st sk → fk ≠ EmptyString →
  find_cluster ratio weak true false st sk (Some fk) = Some c
  ↔ ∃ i item, first_max ratio fk (fuzzy_index st) i item
       ∧ item.2 = c
       ∧ (0 < score ratio fk item)%Q
       ∧ (inject_Z weak <= score ratio fk item)%Q.
Proof.
  intros Hs Hfk. rewrite find_cluster_fuzzy by done.
  destruct (fuzzy_scan_spec ratio fk (fuzzy_index st))
    as [[-> Hle] | (i & item & Hfm & -> & Hpos)]; simpl.
  - split; [done |].
    intros (i & item & (Hi & _) & _ & Hpos & _). exfalso.
    apply (Qlt_not_le _ _ Hpos), Hle. by eapply list_elem_of_lookup_2.
  - destruct (Qle_bool (inject_Z weak) (score ratio fk item)) eqn:Hw.
    + apply Qle_bool_iff in Hw. split.
      * intros [= <-]. by exists i, item.
      * intros (i' & item' & Hfm' & <- & _).
        by destruct (first_max_unique _ _ _ _ _ _ _ Hfm Hfm') as [_ ->].
    + split; [done |].
      intros (i' & item' & Hfm' & _ & _ & Hw').
      destruct (first_max_unique _ _ _ _ _ _ _ Hfm Hfm') as [_ <-].
      apply Qle_bool_iff in Hw'. congruence.
Qed.

(** C3, as amended: for a record with a fuzzy key and no hit in the
    strong index, fuzzy matching on and strong-only off, the record is
    placed in cluster [c] exactly when [c] is the cluster of the first key
    of the fuzzy index, in insertion order, that reaches the maximum
    similarity (every key scores at most as much, every earlier key
    strictly less), and that maximum is above zero and at or above the
    threshold; otherwise the record opens a new cluster. *)
Theorem fuzzy_pass_first_maximum_above_zero
    (st : State) (lib_ : string) (r : MarcRecord)
    (sk : option string) (fk : string) :
  extract_strong_key VALIDATE r = Some sk →
  build_fuzzy_key table r = Some fk →
  fk ≠ EmptyString →
  no_strong_hit st sk →
  ∃ found,
    process_record table ratio VALIDATE weak true false lib_ st r
      = Some (place (mkSourceRecord lib_ (get_local_id r) r sk (Some fk)) found st)
    ∧ ∀ c, found = Some c
        ↔ ∃ i item, first_max ratio fk (fuzzy_index st) i item
             ∧ item.2 = c
             ∧ (0 < score ratio fk item)%Q
             ∧ (inject_Z weak <= score ratio fk item)%Q.
Proof.
  intros Hsk Hfk Hne Hs.
  exists (find_cluster ratio weak true false st sk (Some fk)). split.
  - unfold process_record. rewrite Hsk. simpl. by rewrite Hfk.
  - intros c. by apply find_cluster_first_max.
Qed.

End Fuzzy.

Lemma bind_some {A B} (x : A) (f : A → option B) : Some x ≫= f = f x.
Proof. reflexivity. Qed.

(** ** The order of strings *)

Lemma ascii_compare_N (x y : ascii) :
  Ascii.compare x y = N.compare (N_of_ascii x) (N_of_ascii y).
Proof. reflexivity. Qed.

Lemma string_compare_cons x y (a b : string) :
  String.compare (String x a) (String y b) =
    match Ascii.compare x y with
    | Eq => String.compare a b
    | o => o
    end.
Proof. simpl. by destruct (Ascii.compare x y). Qed.

Lemma string_compare_le_trans (a b c : string) :
  String.compare a b ≠ Gt → String.compare b c ≠ Gt → String.compare a c ≠ Gt.
Proof.
  revert b c. induction a as [|x a IH]; intros [|y b] [|z c]; try done.
  rewrite !string_compare_cons, !ascii_compare_N.
  destruct (N.compare_spec (N_of_ascii x) (N_of_ascii y)) as [Hxy | Hxy | Hxy];
    destruct (N.compare_spec (N_of_ascii y) (N_of_ascii z)) as [Hyz | Hyz | Hyz];
    destruct (N.compare_spec (N_of_ascii x) (N_of_ascii z)) as [Hxz | Hxz | Hxz];
    try done; try lia.
  apply IH.
Qed.

Lemma str_le_compare (a b : string) : str_le a b ↔ String.compare a b ≠ Gt.
Proof. unfold str_le, String.leb. by destruct (String.compare a b). Qed.

Global Instance str_le_trans : Transitive str_le.
Proof.
  intros a b c. rewrite !str_le_compare. apply string_compare_le_trans.
Qed.

Global Instance str_le_total : Total str_le.
Proof. intros a b. apply String.leb_total. Qed.

Global Instance str_le_antisym : AntiSymm (=) str_le.
Proof. intros a b. apply String.leb_antisym. Qed.

(** ** Independence of the iteration order of sets *)

Section Determinism.

Variables iter1 iter2 : gset string → list string.
Hypothesis Hiter1 : enumerates iter1.
Hypothesis Hiter2 : enumerates iter2.

Lemma sorted_indep (s : gset string) : sorted iter1 s = sorted iter2 s.
Proof.
  unfold sorted. apply (Sorted_unique str_le).
  - apply Sorted_merge_sort, _.
  - apply Sorted_merge_sort, _.
  - rewrite !merge_sort_Permutation.
    etrans; [apply Hiter1 | symmetry; apply Hiter2].
Qed.

Lemma merge_cluster_indep cl prefer prefer_fields prov hold merge keep9 :
  merge_cluster iter1 cl prefer prefer_fields prov hold merge keep9
  = merge_cluster iter2 cl prefer prefer_fields prov hold merge keep9.
Proof.
  unfold merge_cluster.
  destruct (choose_primary (members cl) prefer) as [p|]; simpl; [| done].
  destruct (foldl _ _ _) as [st libs]. by rewrite sorted_indep.
Qed.

Lemma write_union_indep cls prefer prefer_fields prov hold merge keep9 :
  write_union iter1 cls prefer prefer_fields prov hold merge keep9
  = write_union iter2 cls prefer prefer_fields prov hold merge keep9.
Proof.
  unfold write_union. induction cls as [|cl cls IH]; [done |].
  simpl. by rewrite merge_cluster_indep, IH.
Qed.

Lemma write_report_indep cls : write_report iter1 cls = write_report iter2 cls.
Proof.
  unfold write_report. apply list_fmap_ext. intros _ c _.
  unfold report_row. by rewrite !sorted_indep.
Qed.

Lemma write_json_indep cls : write_json iter1 cls = write_json iter2 cls.
Proof.
  unfold write_json. apply list_fmap_ext. intros _ c _.
  unfold json_entry. by rewrite sorted_indep.
Qed.

End Determinism.

(** C6: the engine is a function of its ordered input and configuration.
    The one thing a run does not fix is the order in which the interpreter
    iterates a set of strings; two runs on the same arguments, with the
    same library functions and the same files, but with any two such
    orders, return the same result: the same merged records, the same
    report rows (cluster ids, sizes, keys, libraries) and the same manifest
    (cluster ids and members in their order).  [build_clusters] itself
    takes no iteration order at all. *)
Theorem engine_deterministic
    (table : ascii → string) (splitext_ext : string → string)
    (MARCReader : string → option (list (option MarcRecord)))
    (ratio : string → string → Q)
    (iter1 iter2 : gset string → list string) (a : Args) :
  enumerates iter1 → enumerates iter2 →
  main table iter1 splitext_ext MARCReader ratio a
  = main table iter2 splitext_ext MARCReader ratio a
  ∧ ∀ cls, write_json iter1 cls = write_json iter2 cls
           ∧ write_report iter1 cls = write_report iter2 cls.
Proof.
  intros H1 H2.
  split; [| intros cls; split;
            [by apply write_json_indep | by apply write_report_indep]].
  unfold main.
  destruct (build_clusters _ _ _ _ _ _ _ _ _) as [cls|]; simpl; [| done].
  rewrite (write_union_indep iter1 iter2 H1 H2).
  destruct (write_union _ _ _ _ _ _ _ _) as [merged|]; simpl; [| done].
  by rewrite (write_report_indep iter1 iter2 H1 H2),
             (write_json_indep iter1 iter2 H1 H2).
Qed.

(** ** The donation of a preferred field *)

Lemma tag_FieldCls t i1 i2 subs : tag (FieldCls t i1 i2 subs) = norm_tag t.
Proof. unfold FieldCls. cbv zeta. by destruct (is_control_tag (norm_tag t)). Qed.

Lemma copy_field_verbatim (f : Field) :
  tag (copy_field f) = norm_tag (tag f)
  ∧ (is_control_tag (norm_tag (tag f)) = false →
     indicator1 (copy_field f) = indicator1 f
     ∧ indicator2 (copy_field f) = indicator2 f
     ∧ subfields (copy_field f) = subfields f).
Proof.
  split; [apply tag_FieldCls |]. intros Hc. unfold copy_field, FieldCls.
  cbv zeta. rewrite Hc. simpl. split; [done |]. split; [done |].
  induction (subfields f) as [|[c v] l IH]; [done |]. simpl. by f_equal.
Qed.

Lemma get_fields_one (rec : MarcRecord) (t : string) :
  get_fields rec [t] = filter (λ f, tag f ∈ [t]) rec.
Proof. reflexivity. Qed.

Lemma remove_field_head_ne (g : Field) (rec : MarcRecord) (l : list Field) :
  g ∉ l → foldl remove_field (g :: rec) l = g :: foldl remove_field rec l.
Proof.
  revert rec. induction l as [|f l IH]; intros rec Hg; [done |].
  apply not_elem_of_cons in Hg as [Hne Hg]. simpl.
  destruct (decide (g = f)) as [-> | _]; [done |]. by apply IH.
Qed.

(** Removing, one by one, the fields a tag selects leaves the others,
    in their order. *)
Lemma remove_selected (rec : MarcRecord) (t : string) :
  foldl remove_field rec (get_fields rec [t]) = filter (λ f, tag f ∉ [t]) rec.
Proof.
  rewrite get_fields_one. induction rec as [|g rec IH]; [done |].
  rewrite !filter_cons. destruct (decide (tag g ∈ [t])) as [Hg | Hg].
  - rewrite decide_False by (intros H; by apply H).
    simpl. rewrite decide_True by done. exact IH.
  - rewrite decide_True by done.
    rewrite remove_field_head_ne; [by rewrite IH |].
    intros Hin. apply list_elem_of_filter in Hin as [Hin _]. by apply Hg.
Qed.

Lemma read_alter_eq (g : MarcRecord → MarcRecord) (p : nat) (st : store) :
  p < length st → read (alter g p st) p = g (read st p).
Proof.
  intros Hp. unfold read. rewrite list_lookup_alter_eq.
  destruct (lookup_lt_is_Some_2 st p Hp) as [rec ->]. done.
Qed.

Lemma read_alter_ne (g : MarcRecord → MarcRecord) (p i : nat) (st : store) :
  p ≠ i → read (alter g p st) i = read st i.
Proof. intros Hne. unfold read. by rewrite list_lookup_alter_ne. Qed.

Lemma add_copies (p : nat) (l : list Field) (st : store) :
  p < length st →
  let st' := foldl (λ st f, alter (λ rec, add_field rec (copy_field f)) p st) st l in
  length st' = length st
  ∧ read st' p = read st p ++ (copy_field <$> l)
  ∧ ∀ i, i ≠ p → read st' i = read st i.
Proof.
  revert st. induction l as [|f l IH]; intros st Hp; simpl.
  { split; [done |]. split; [by rewrite app_nil_r | done]. }
  destruct (IH (alter (λ rec, add_field rec (copy_field f)) p st))
    as (Hlen & Hp' & Hother); [by rewrite length_alter |].
  split; [by rewrite Hlen, length_alter |]. split.
  - rewrite Hp', read_alter_eq by done. unfold add_field.
    by rewrite <- app_assoc.
  - intros i Hi. rewrite Hother by done. by apply read_alter_ne.
Qed.

Lemma filter_copies_none (t : string) (rec : MarcRecord) :
  filter (λ f, tag f ∈ [t]) (filter (λ f, tag f ∉ [t]) rec) = [].
Proof.
  induction rec as [|g rec IH]; [done |].
  rewrite filter_cons. destruct (decide (tag g ∉ [t])) as [Hg | Hg]; [| exact IH].
  rewrite filter_cons, decide_False by done. exact IH.
Qed.

Lemma filter_copies_all (t : string) (l : list Field) :
  norm_tag t = t →
  Forall (λ f, tag f ∈ [t]) l →
  filter (λ f, tag f ∈ [t]) (copy_field <$> l) = copy_field <$> l.
Proof.
  intros Hn. induction 1 as [|f l Hf _ IH]; [done |].
  rewrite fmap_cons, filter_cons, decide_True, IH; [done |].
  rewrite (proj1 (copy_field_verbatim f)).
  apply list_elem_of_singleton in Hf. rewrite Hf, Hn.
  by apply list_elem_of_singleton.
Qed.

Lemma donate_eq (p d : nat) (st : store) (tag0 : string) :
  strip tag0 ≠ EmptyString →
  find_donor st (strip tag0) 0 (length st) = Some d →
  donate p st tag0 =
    let st1 := alter (λ rec, foldl remove_field rec (get_fields rec [strip tag0])) p st in
    foldl (λ st f, alter (λ rec, add_field rec (copy_field f)) p st)
          st1 (get_fields (read st1 d) [strip tag0]).
Proof.
  intros Ht Hd. unfold donate. by rewrite (nonempty_true _ Ht), Hd.
Qed.

(** One round of the second loop, when a donor is found: the merged
    record ends with the copies of the donor's fields if the donor is
    another member, and with no field of the tag if the donor is the
    primary itself, whose fields were removed before they were read.
    The tag is one the field constructor leaves as it is, as the tag of
    every field object is. *)
Lemma donate_fields (p d : nat) (st : store) (tag0 : string) :
  p < length st →
  strip tag0 ≠ EmptyString →
  norm_tag (strip tag0) = strip tag0 →
  find_donor st (strip tag0) 0 (length st) = Some d →
  get_fields (read (donate p st tag0) p) [strip tag0]
    = (if decide (d = p) then []
       else copy_field <$> get_fields (read st d) [strip tag0])
  ∧ ∀ i, i ≠ p → read (donate p st tag0) i = read st i.
Proof.
  intros Hp Ht Hn Hd. rewrite (donate_eq p d st tag0 Ht Hd). cbv zeta.
  set (t := strip tag0).
  set (st1 := alter (λ rec, foldl remove_field rec (get_fields rec [t])) p st).
  assert (Hp1 : p < length st1) by (unfold st1; by rewrite length_alter).
  assert (Hst1p : read st1 p = filter (λ f, tag f ∉ [t]) (read st p)).
  { unfold st1. rewrite read_alter_eq by done. apply remove_selected. }
  assert (Hst1o : ∀ i, i ≠ p → read st1 i = read st i).
  { intros i Hi. unfold st1. by apply read_alter_ne. }
  destruct (add_copies p (get_fields (read st1 d) [t]) st1 Hp1)
    as (_ & Hp' & Hother).
  split.
  - rewrite Hp', Hst1p.
    rewrite (get_fields_one (_ ++ _)), filter_app, filter_copies_none, app_nil_l.
    destruct (decide (d = p)) as [-> | Hne].
    + by rewrite Hst1p, get_fields_one, filter_copies_none.
    + rewrite Hst1o by done. apply filter_copies_all; [exact Hn |].
      rewrite get_fields_one. apply Forall_forall.
      by intros f [Hf _]%list_elem_of_filter.
  - intros i Hi. rewrite Hother by done. by apply Hst1o.
Qed.

(** *** The whole merge, for one preferred tag *)

Lemma pick_preferred_in prefer (best : list (nat * SourceRecord)) i :
  pick_preferred prefer best = Some i → ∃ m, (i, m) ∈ best.
Proof.
  induction prefer as [|l prefer IH]; simpl; [done |].
  destruct (List.find _ best) as [[j m]|] eqn:Hf; [| exact IH].
  intros [= <-]. exists m. apply find_some in Hf as [Hin _].
  by apply list_elem_of_In.
Qed.

Lemma choose_primary_lt (ms : list SourceRecord) (prefer : list string) (p : nat) :
  choose_primary ms prefer = Some p → p < length ms.
Proof.
  unfold choose_primary.
  destruct (mapM _ ms) as [scores|]; simpl; [| done].
  destruct scores as [|s0 ss]; [done |].
  set (best := _ <$> filter _ _).
  assert (Hbest : ∀ i m, (i, m) ∈ best → i < length ms).
  { intros i m Hin. unfold best in Hin.
    apply list_elem_of_fmap in Hin as ([j [m' s]] & [= -> ->] & Hin).
    apply list_elem_of_filter in Hin as [_ Hin].
    apply elem_of_zip_l in Hin. simpl in Hin.
    apply elem_of_seq in Hin. lia. }
  destruct (pick_preferred prefer best) as [i|] eqn:Hpick.
  - intros [= <-]. apply pick_preferred_in in Hpick as [m Hm]. by eapply Hbest.
  - destruct best as [|[i m] best']; [done |]. simpl. intros [= <-].
    apply (Hbest i m). by left.
Qed.

Lemma annotate_store p prov hold (ms : list SourceRecord) (st : store)
    (libs : gset string) (t : string) :
  t ≠ norm_tag prov → t ≠ norm_tag hold →
  length (foldl (annotate p prov hold) (st, libs) ms).1 = length st
  ∧ ∀ i, get_fields (read (foldl (annotate p prov hold) (st, libs) ms).1 i) [t]
         = get_fields (read st i) [t].
Proof.
  intros Hprov Hhold. revert st libs.
  induction ms as [|sr ms IH]; intros st libs; [done |].
  change (foldl (annotate p prov hold) (st, libs) (sr :: ms))
    with (foldl (annotate p prov hold) (annotate p prov hold (st, libs) sr) ms).
  destruct (annotate p prov hold (st, libs) sr) as [st2 libs2] eqn:Hann.
  assert (Hst2 : length st2 = length st
                 ∧ ∀ i, get_fields (read st2 i) [t] = get_fields (read st i) [t]).
  { unfold annotate in Hann. injection Hann as <- _.
    split; [by rewrite !length_alter |]. intros i.
    destruct (decide (p = i)) as [<- | Hne]; [| by rewrite !read_alter_ne].
    destruct (decide (p < length st)) as [Hp | Hp].
    - rewrite !read_alter_eq by (by rewrite ?length_alter).
      unfold add_field.
      rewrite !get_fields_one, !filter_app, !filter_cons, !filter_nil.
      rewrite !decide_False, !app_nil_r; [done | |];
        rewrite tag_FieldCls; intros H%list_elem_of_singleton; congruence.
    - unfold read. rewrite !list_lookup_alter_eq.
      rewrite (lookup_ge_None_2 st p) by lia. done. }
  destruct Hst2 as [Hlen2 Hget2]. destruct (IH st2 libs2) as [Hlen Hget].
  split; [by rewrite Hlen | intros i; by rewrite Hget].
Qed.

Lemma find_donor_S (st : store) (t : string) (i n : nat) :
  find_donor st t i (S n) =
    match get_fields (read st i) [t] with
    | _ :: _ => Some i
    | [] => find_donor st t (S i) n
    end.
Proof. reflexivity. Qed.

Lemma find_donor_ext (st st' : store) (t : string) (i n : nat) :
  (∀ j, get_fields (read st j) [t] = get_fields (read st' j) [t]) →
  find_donor st t i n = find_donor st' t i n.
Proof.
  intros Hext. revert i. induction n as [|n IH]; intros i; [done |].
  rewrite !find_donor_S, Hext.
  destruct (get_fields (read st' i) [t]); [apply IH | done].
Qed.

(** What [merge_cluster] leaves of a preferred tag, when it is the only
    one configured, is written as field objects carry it, and is none of
    the three annotation tags as the field constructor writes them: the
    copies of the donor's fields when the donor (the first member with a
    field of that tag) is not the primary, and nothing when it is. *)
Lemma merge_cluster_preferred_tag
    (set_iter : gset string → list string) (cl : Cluster)
    (prefer : list string) (tag0 prov hold mt : string) (keep9 : bool)
    (p d : nat) :
  strip tag0 ≠ EmptyString →
  norm_tag (strip tag0) = strip tag0 →
  strip tag0 ≠ norm_tag prov → strip tag0 ≠ norm_tag hold →
  strip tag0 ≠ norm_tag mt →
  choose_primary (members cl) prefer = Some p →
  find_donor (record <$> members cl) (strip tag0) 0 (length (members cl)) = Some d →
  ∃ rec,
    merge_cluster set_iter cl prefer [tag0] prov hold mt keep9 = Some rec
    ∧ get_fields rec [strip tag0]
      = if decide (d = p) then []
        else copy_field <$> get_fields (read (record <$> members cl) d) [strip tag0].
Proof.
  intros Ht Hn Hprov Hhold Hmt Hp Hd. unfold merge_cluster. rewrite Hp.
  pose proof (choose_primary_lt _ _ _ Hp) as Hlt.
  pose proof (annotate_store p prov hold (members cl) (record <$> members cl)
                ∅ (strip tag0) Hprov Hhold) as [Hlen Hget].
  rewrite bind_some.
  destruct (foldl (annotate p prov hold) _ (members cl)) as [st1 libs].
  change (foldl (donate p) st1 [tag0]) with (donate p st1 tag0).
  cbn [fst] in Hlen, Hget. rewrite length_fmap in Hlen.
  eexists. split; [reflexivity |].
  assert (Hd1 : find_donor st1 (strip tag0) 0 (length st1) = Some d).
  { rewrite Hlen, <- Hd. by apply find_donor_ext. }
  destruct (donate_fields p d st1 tag0) as [Hfields _]; [lia | done | done | done |].
  unfold add_field. rewrite get_fields_one, filter_app, filter_cons, filter_nil.
  rewrite decide_False, app_nil_r
    by (rewrite tag_FieldCls; intros H%list_elem_of_singleton; congruence).
  rewrite <- get_fields_one, Hfields, Hget. done.
Qed.

(** C1: the code at a failing input.  The cluster has one member, the
    primary, whose record has one field 245; that member is the donor of
    tag 245.  The merge removes the field from the merged record, which
    is the donor's own record, and then finds nothing left to copy: the
    merged record has no field 245, where the claim has the donor's. *)
Theorem merge_loses_fields_donated_by_primary :
  choose_primary (members lone_cluster) [] = Some 0
  ∧ find_donor (record <$> members lone_cluster) "245" 0 1 = Some 0
  ∧ get_fields ficciones ["245"]
      = [mkField "245" (Some "1") (Some "0") [Subf "a" "Ficciones"] None]
  ∧ ∀ set_iter, ∃ rec,
      merge_cluster set_iter lone_cluster [] ["245"] "035" "910" "948" false
        = Some rec
      ∧ get_fields rec ["245"] = [].
Proof.
  split; [reflexivity |]. split; [reflexivity |]. split; [reflexivity |].
  intros set_iter. eexists. split; [reflexivity |]. reflexivity.
Qed.

(** ** Identifier normalisation without checksums *)

Lemma norm_isbn_unchecked (s : string) :
  norm_isbn false s =
    Some (if (String.length (only_digits_x s) =? 10)%nat
             || (String.length (only_digits_x s) =? 13)%nat
          then Some (only_digits_x s) else None).
Proof.
  unfold norm_isbn. simpl.
  destruct (String.length (only_digits_x s) =? 10)%nat; [done |].
  by destruct (String.length (only_digits_x s) =? 13)%nat.
Qed.

Lemma norm_issn_unchecked (s : string) :
  norm_issn false s =
    if nonempty (only_digits_x s) then Some (only_digits_x s) else None.
Proof. unfold norm_issn. simpl. by destruct (nonempty (only_digits_x s)). Qed.

(** C4: the code at a failing input.  With checksum enforcement off,
    [norm_issn] accepts the two-character string 12, whose length is not
    8, and the record gets the strong key ISSN:12; with enforcement on the
    same string is rejected. *)
Theorem norm_issn_unchecked_accepts_any_length :
  norm_issn false "12" = Some "12"
  ∧ String.length "12" ≠ 8
  ∧ extract_strong_key false (issn_record "12") = Some (Some "ISSN:12")
  ∧ norm_issn true "12" = None.
Proof. repeat split; done. Qed.

(** ** Source arguments *)

Lemma parse_sources_filter (l : list string) :
  parse_sources (List.filter (mem_str "=") l) = parse_sources l.
Proof.
  unfold parse_sources. induction l as [|s l IH]; [done |]. simpl.
  destruct (mem_str "=" s) eqn:Hs; simpl; [by rewrite Hs, IH | exact IH].
Qed.

Lemma parse_sources_good (l : list string) :
  parse_sources l
  = (λ s, (strip (split_once "=" s).1, strip (split_once "=" s).2))
      <$> List.filter (mem_str "=") l.
Proof.
  unfold parse_sources. induction l as [|s l IH]; [done |]. simpl.
  destruct (mem_str "=" s) eqn:Hs; simpl; [| exact IH].
  rewrite IH. by destruct (split_once "=" s).
Qed.

(** C5, as amended: a source argument without the sign [=] is skipped
    and no error is raised for it.  The sources of the run are those of
    the arguments that have the sign, in their order, each split at its
    first sign with both parts stripped.  When some argument has the
    sign, the run is the run on the arguments that have it; when none
    has, the run completes with no cluster: no merged record, no report
    row, and an empty manifest when one is asked for. *)
Theorem malformed_sources_are_skipped
    (table : ascii → string) (set_iter : gset string → list string)
    (splitext_ext : string → string)
    (MARCReader : string → option (list (option MarcRecord)))
    (ratio : string → string → Q) (a : Args) :
  let good := List.filter (mem_str "=") (src a) in
  parse_sources (src a)
    = (λ s, (strip (split_once "=" s).1, strip (split_once "=" s).2)) <$> good
  ∧ (good ≠ [] →
       main table set_iter splitext_ext MARCReader ratio a
       = main table set_iter splitext_ext MARCReader ratio (with_src a good))
  ∧ (good = [] →
       main table set_iter splitext_ext MARCReader ratio a
       = Some (mkOutputs [] [] (if clusters_json a then Some [] else None))).
Proof.
  intros good. split; [apply parse_sources_good |]. split.
  - intros _. subst good. unfold main. simpl. by rewrite parse_sources_filter.
  - intros Hgood. subst good. unfold main.
    rewrite parse_sources_good, Hgood. reflexivity.
Qed.

(** C9: [normalize_text] never fails (it is a function to [string]: no
    operation it uses can raise), it maps [None] and the empty string to
    the empty string, and it is idempotent.  [unidecode] is taken to
    return 7-bit text, as the library documents. *)
Theorem normalize_text_total_idempotent (table : ascii → string) :
  (∀ c, all_str is_ascii (table c) = true) →
  normalize_text table None = EmptyString
  ∧ normalize_text table (Some EmptyString) = EmptyString
  ∧ ∀ s : option string,
      normalize_text table (Some (normalize_text table s)) = normalize_text table s.
Proof.
  intros Htable. split; [reflexivity |]. split; [reflexivity |].
  intros s. by apply normalize_text_idem.
Qed.

(** C10: the bar that [build_fuzzy_key] puts between author, title and
    year is in the punctuation table, so the key is the normalisation of
    the three texts joined by spaces; hence two records whose joined texts
    are equal, wherever the boundaries between the three fall, have the
    same fuzzy key. *)
Theorem fuzzy_key_has_no_delimiter (table : ascii → string) :
  (∀ rec, build_fuzzy_key table rec
          = (λ s, normalize_text table (Some s)) <$> key_text rec)
  ∧ (∀ r1 r2, key_text r1 = key_text r2 →
              build_fuzzy_key table r1 = build_fuzzy_key table r2).
Proof.
  assert (H : ∀ rec, build_fuzzy_key table rec
                     = (λ s, normalize_text table (Some s)) <$> key_text rec).
  { intros rec. unfold build_fuzzy_key, key_text.
    destruct (extract_year rec) as [y|]; simpl; [| done]. f_equal.
    rewrite !normalize_text_prep. simpl. by rewrite prep_bar_space. }
  split; [exact H |]. intros r1 r2 Heq. by rewrite !H, Heq.
Qed.

Lemma latin_table_ascii (c : ascii) : all_str is_ascii (latin_table c) = true.
Proof. destruct c as [[] [] [] [] [] [] [] []]; reflexivity. Qed.

Lemma indel_ratio_nonneg (a b : string) : (0 <= indel_ratio a b)%Q.
Proof.
  unfold indel_ratio.
  destruct (String.length (token_sort a) + String.length (token_sort b))%nat;
    unfold Qle; simpl; lia.
Qed.

Lemma enumerates_elements : enumerates (λ s, elements s).
Proof. intros s. reflexivity. Qed.

Lemma enumerates_reverse : enumerates (λ s, reverse (elements s)).
Proof. intros s. apply reverse_Permutation. Qed.

Lemma zero_threshold_counterexample :
  first_max indel_ratio "xyz" (fuzzy_index state_abc) 0 ("abc", 0)
  ∧ (inject_Z 0 <= score indel_ratio "xyz" ("abc", 0%nat))%Q
  ∧ extract_strong_key true rec_xyz = Some None
  ∧ build_fuzzy_key latin_table rec_xyz = Some "xyz"
  ∧ no_strong_hit state_abc None
  ∧ find_cluster indel_ratio 0 true false state_abc None (Some "xyz") = None
  ∧ (clusters <$> process_record latin_table indel_ratio true 0 true false "L1"
                    state_abc rec_xyz)
    = Some [ mkCluster 1 [mkSourceRecord "L1" "1" rec_abc None (Some "abc")]
               ∅ {[ "abc" ]};
             mkCluster 2 [mkSourceRecord "L1" "2" rec_xyz None (Some "xyz")]
               ∅ (∅ ∪ {[ "xyz" ]}) ].
Proof.
  split.
  { split; [reflexivity |]. split.
    - intros item ->%list_elem_of_singleton. apply Qle_refl.
    - intros j item Hj. lia. }
  split; [vm_compute; discriminate |].
  repeat split; reflexivity.
Qed.

Lemma fuzzy_pass_first_maximum_above_zero_witness :
  ∃ found,
    process_record latin_table indel_ratio true 70 true false "L1" state_abcd rec_abcde
      = Some (place (mkSourceRecord "L1" (get_local_id rec_abcde) rec_abcde None
                       (Some "abcde")) found state_abcd)
    ∧ ∀ c, found = Some c
        ↔ ∃ i item, first_max indel_ratio "abcde" (fuzzy_index state_abcd) i item
             ∧ item.2 = c
             ∧ (0 < score indel_ratio "abcde" item)%Q
             ∧ (inject_Z 70 <= score indel_ratio "abcde" item)%Q.
Proof.
  apply (fuzzy_pass_first_maximum_above_zero latin_table indel_ratio true 70
           state_abcd "L1" rec_abcde None "abcde").
  - reflexivity.
  - reflexivity.
  - discriminate.
  - reflexivity.
Defined.

Lemma malformed_source_counterexample :
  mem_str "=" "LIB1" = false
  ∧ src args_malformed = ["LIB1"; "L2=b.mrc"]
  ∧ ∃ out,
      main latin_table (λ s, elements s) posix_ext (reader_of chain_files)
           indel_ratio args_malformed = Some out
      ∧ report out = [(1, 1, EmptyString, "L2")]
      ∧ manifest out = Some [(1, [], [("L2", "7")])].
Proof.
  split; [reflexivity |]. split; [reflexivity |].
  eexists. split; [vm_compute; reflexivity |]. split; reflexivity.
Qed.

(** The malformed argument next to a well-formed one, and alone. *)
Lemma malformed_sources_are_skipped_witness :
  main latin_table (λ s, elements s) posix_ext (reader_of chain_files)
       indel_ratio args_malformed
  = main latin_table (λ s, elements s) posix_ext (reader_of chain_files)
         indel_ratio (with_src args_malformed ["L2=b.mrc"])
  ∧ main latin_table (λ s, elements s) posix_ext (reader_of chain_files)
         indel_ratio (with_src args_malformed ["LIB1"])
    = Some (mkOutputs [] [] (Some [])).
Proof.
  split.
  - apply (proj1 (proj2 (malformed_sources_are_skipped latin_table
                           (λ s, elements s) posix_ext (reader_of chain_files)
                           indel_ratio args_malformed))).
    discriminate.
  - apply (proj2 (proj2 (malformed_sources_are_skipped latin_table
                           (λ s, elements s) posix_ext (reader_of chain_files)
                           indel_ratio (with_src args_malformed ["LIB1"])))).
    reflexivity.
Defined.

Lemma engine_deterministic_witness :
  main latin_table (λ s, elements s) posix_ext (reader_of chain_files)
       indel_ratio args_chain
  = main latin_table (λ s, reverse (elements s)) posix_ext (reader_of chain_files)
         indel_ratio args_chain
  ∧ ∀ cls, write_json (λ s, elements s) cls = write_json (λ s, reverse (elements s)) cls
           ∧ write_report (λ s, elements s) cls
             = write_report (λ s, reverse (elements s)) cls.
Proof.
  apply (engine_deterministic latin_table posix_ext (reader_of chain_files)
           indel_ratio (λ s, elements s) (λ s, reverse (elements s)) args_chain).
  - exact enumerates_elements.
  - exact enumerates_reverse.
Defined.

Lemma normalize_text_total_idempotent_witness :
  normalize_text latin_table None = EmptyString
  ∧ normalize_text latin_table (Some EmptyString) = EmptyString
  ∧ ∀ s : option string,
      normalize_text latin_table (Some (normalize_text latin_table s))
      = normalize_text latin_table s.
Proof. exact (normalize_text_total_idempotent latin_table latin_table_ascii). Defined.

Lemma fuzzy_key_has_no_delimiter_witness :
  build_fuzzy_key latin_table rec_split_1 = build_fuzzy_key latin_table rec_split_2.
Proof.
  apply (proj2 (fuzzy_key_has_no_delimiter latin_table) rec_split_1 rec_split_2).
  reflexivity.
Defined.

Example normalize_cafe : normalize_text latin_table (Some cafe) = "cafe del mar 1999".
Proof. reflexivity. Qed.

Example split_keys_equal :
  build_fuzzy_key latin_table rec_split_1 = Some "ana maria lopez obras".
Proof. reflexivity. Qed.

Example isbn13_vector : is_valid_isbn13 "9780306406157" = Some true.
Proof. reflexivity. Qed.

Example isbn13_altered : is_valid_isbn13 "9780306406158" = Some false.
Proof. reflexivity. Qed.

Example isbn10_vector : is_valid_isbn10 "0306406152" = true.
Proof. reflexivity. Qed.

Example isbn10_x_vector : is_valid_isbn10 "080442957X" = true.
Proof. reflexivity. Qed.

Example issn_vector : is_valid_issn "03785955" = true.
Proof. reflexivity. Qed.

Example issn_x_vector : is_valid_issn "2434561X" = true.
Proof. reflexivity. Qed.

Example issn_padded : is_valid_issn "3785955" = true.
Proof. reflexivity. Qed.

Example isbn13_superscript_raises :
  is_valid_isbn13 ("978030640615" +:+ String (ascii_of_N 178) EmptyString) = None.
Proof. reflexivity. Qed.

Example pair_primary : choose_primary (members pair_cluster) [] = Some 1.
Proof. reflexivity. Qed.

(** A donor that is not the primary: its title replaces the primary's. *)
Example merge_copies_other_donor :
  (λ rec, get_fields rec ["245"])
    <$> merge_cluster (λ s, elements s) pair_cluster [] ["245"] "035" "910" "948" false
  = Some [mkField "245" (Some "1") (Some "0") [Subf "a" "Ficciones"] None].
Proof. reflexivity. Qed.

Example merge_general_at_pair :
  ∃ rec,
    merge_cluster (λ s, elements s) pair_cluster [] ["245"] "035" "910" "948" false
      = Some rec
    ∧ get_fields rec ["245"] = copy_field <$> get_fields ficciones ["245"].
Proof.
  apply (merge_cluster_preferred_tag (λ s, elements s) pair_cluster []
           "245" "035" "910" "948" false 1 0); done.
Qed.

(** * Further properties of the code *)

(** ** What the validators accept *)

Lemma weighted_sum_wsum w i (s : string) :
  weighted_sum w i s = if all_str re_d s then Some (wsum w i s) else None.
Proof.
  revert i. induction s as [|x s IH]; intros i; [done |].
  simpl. rewrite int_of_char_digit, IH.
  destruct (re_d x); [| done]. simpl. by destruct (all_str re_d s).
Qed.

Tactic Notation "explicit_string" ident(d) integer(n) :=
  do n (destruct d as [|? d]; [discriminate |]);
  destruct d; [| discriminate].

Lemma is_valid_isbn13_inv (d : string) :
  is_valid_isbn13 d = Some true →
  String.length d = 13
  ∧ all_str re_d (substring 0 12 d) = true
  ∧ re_d (char_at 12 d) = true
  ∧ ((10 - wsum (λ i, if Nat.even i then 1 else 3) 0 (substring 0 12 d) mod 10)
       mod 10 = digit_value (char_at 12 d))%Z.
Proof.
  unfold is_valid_isbn13.
  destruct (String.length d =? 13)%nat eqn:Hlen; [| done].
  destruct (str_isdigit d); [| done]. simpl.
  rewrite weighted_sum_wsum.
  destruct (all_str re_d (substring 0 12 d)); [| done]. simpl.
  rewrite int_of_char_digit. destruct (re_d (char_at 12 d)); [| done]. simpl.
  intros [= H%Z.eqb_eq]. by apply Nat.eqb_eq in Hlen.
Qed.

Lemma is_valid_isbn10_inv (d : string) :
  is_valid_isbn10 d = true →
  String.length d = 10
  ∧ all_str re_d (substring 0 9 d) = true
  ∧ ((char_at 9 d = "X"%char
      ∧ wsum (λ i, Z.of_nat i + 1) 0 (substring 0 9 d) mod 11 = 10)
     ∨ (re_d (char_at 9 d) = true
        ∧ digit_value (char_at 9 d)
          = wsum (λ i, Z.of_nat i + 1) 0 (substring 0 9 d) mod 11))%Z.
Proof.
  unfold is_valid_isbn10.
  destruct (String.length d =? 10)%nat eqn:Hlen; [| done]. simpl.
  rewrite weighted_sum_wsum.
  destruct (all_str re_d (substring 0 9 d)); [| done]. simpl.
  apply Nat.eqb_eq in Hlen. intros H. split; [done |]. split; [done |].
  destruct (Ascii.eqb (char_at 9 d) "X" && _) eqn:HX.
  { apply andb_true_iff in HX as [->%Ascii.eqb_eq ->%Z.eqb_eq]. by left. }
  destruct (isdigit (char_at 9 d)); [| done].
  rewrite int_of_char_digit in H.
  destruct (re_d (char_at 9 d)); [| done]. simpl in H.
  apply Z.eqb_eq in H. by right.
Qed.

Lemma is_valid_issn_inv (d : string) :
  is_valid_issn d = true →
  String.length (pad7 d) = 8
  ∧ all_str re_d (substring 0 7 (pad7 d)) = true
  ∧ issn_check ((11 - wsum (λ i, 8 - Z.of_nat i) 0 (substring 0 7 (pad7 d)) mod 11)
                  mod 11)%Z
    = char_at 7 (pad7 d).
Proof.
  rewrite is_valid_issn_pad. cbv zeta.
  destruct (String.length (pad7 d) =? 8)%nat eqn:Hlen; [| done]. simpl.
  rewrite weighted_sum_wsum.
  destruct (all_str re_d (substring 0 7 (pad7 d))); [| done]. simpl.
  intros H%Ascii.eqb_eq. by apply Nat.eqb_eq in Hlen.
Qed.

(** ** Identifiers and keys *)

Lemma filter_str_all p (s : string) : all_str p s = true → filter_str p s = s.
Proof.
  induction s as [|x s IH]; simpl; [done |].
  rewrite andb_true_iff. intros [-> Hs]. by rewrite IH.
Qed.

Lemma all_str_filter p (s : string) : all_str p (filter_str p s) = true.
Proof.
  induction s as [|x s IH]; simpl; [done |].
  destruct (p x) eqn:Hx; [simpl; by rewrite Hx | done].
Qed.

Lemma all_str_filter_other p q (s : string) :
  all_str q s = true → all_str q (filter_str p s) = true.
Proof.
  induction s as [|x s IH]; simpl; [done |].
  rewrite andb_true_iff. intros [Hx Hs].
  destruct (p x); simpl; [by rewrite Hx, IH | by apply IH].
Qed.

Lemma only_digits_x_alphabet (s : string) :
  all_str digit_or_X (only_digits_x s) = true.
Proof.
  unfold only_digits_x. rewrite all_str_map.
  eapply all_str_impl; [| apply all_str_filter].
  intros c. unfold digit_or_X.
  destruct (is_x c); [done |]. rewrite orb_false_r. by intros ->.
Qed.

Lemma only_digits_x_fixed (d : string) :
  all_str digit_or_X d = true → only_digits_x d = d.
Proof.
  intros Hd. unfold only_digits_x. rewrite filter_str_all.
  - apply map_str_id_on. eapply all_str_impl; [| exact Hd].
    intros c. unfold digit_or_X.
    destruct (is_x c) eqn:Hx; [| intros _; apply Ascii.eqb_refl].
    destruct (Ascii.eqb c "X") eqn:HX.
    + apply Ascii.eqb_eq in HX as ->. done.
    + rewrite orb_false_r. intros Hdig.
      destruct c as [[] [] [] [] [] [] [] []]; done.
  - eapply all_str_impl; [| exact Hd].
    intros c. unfold digit_or_X.
    destruct (Ascii.eqb c "X") eqn:HX; [| by rewrite !orb_false_r; intros ->].
    apply Ascii.eqb_eq in HX as ->. done.
Qed.

Lemma only_digits_x_idem (s : string) :
  only_digits_x (only_digits_x s) = only_digits_x s.
Proof. apply only_digits_x_fixed, only_digits_x_alphabet. Qed.

(** X4: a normalised identifier is a fixed point of the normalisation, with
    checksums on or off: the key can be normalised again without change. *)
Theorem normalised_identifier_stable (VALIDATE : bool) (s d : string) :
  (norm_isbn VALIDATE s = Some (Some d) → norm_isbn VALIDATE d = Some (Some d))
  ∧ (norm_issn VALIDATE s = Some d → norm_issn VALIDATE d = Some d).
Proof.
  split.
  - unfold norm_isbn. intros H.
    assert (d = only_digits_x s) as Hd.
    { destruct (String.length (only_digits_x s) =? 10)%nat.
      { destruct (negb VALIDATE || is_valid_isbn10 (only_digits_x s)); congruence. }
      destruct (String.length (only_digits_x s) =? 13)%nat; [| done].
      destruct (negb VALIDATE); [congruence |].
      destruct (is_valid_isbn13 (only_digits_x s)) as [[]|]; simpl in H; congruence. }
    subst d. cbv zeta. rewrite only_digits_x_idem. exact H.
  - unfold norm_issn. intros H.
    assert (d = only_digits_x s) as Hd.
    { destruct (negb (nonempty (only_digits_x s))); [done |].
      destruct (negb VALIDATE || is_valid_issn (only_digits_x s)); congruence. }
    subst d. cbv zeta. rewrite only_digits_x_idem. exact H.
Qed.

Lemma norm_isbn_checked (v d : string) :
  norm_isbn true v = Some (Some d) →
  is_valid_isbn10 d = true ∨ is_valid_isbn13 d = Some true.
Proof.
  unfold norm_isbn. simpl.
  destruct (String.length (only_digits_x v) =? 10)%nat.
  { destruct (is_valid_isbn10 (only_digits_x v)) eqn:E; [| done].
    intros [= <-]. by left. }
  destruct (String.length (only_digits_x v) =? 13)%nat; [| done].
  destruct (is_valid_isbn13 (only_digits_x v)) as [[]|] eqn:E; simpl; [| done | done].
  intros [= <-]. by right.
Qed.

Lemma norm_issn_checked (v d : string) :
  norm_issn true v = Some d → is_valid_issn d = true.
Proof.
  unfold norm_issn. simpl.
  destruct (negb (nonempty (only_digits_x v))); [done |].
  destruct (is_valid_issn (only_digits_x v)) eqn:E; [| done]. by intros [= <-].
Qed.

Lemma first_isbn_found (VALIDATE : bool) (vs : list string) (d : string) :
  first_isbn VALIDATE vs = Some (Some d) →
  ∃ v, v ∈ vs ∧ norm_isbn VALIDATE v = Some (Some d).
Proof.
  induction vs as [|v vs IH]; simpl; [done |].
  destruct (norm_isbn VALIDATE v) as [i|] eqn:Hv; simpl; [| done].
  destruct (truthy i) eqn:Ht.
  - intros [= ->]. exists v. split; [by left | done].
  - intros H. destruct (IH H) as (v' & Hin & Hv'). exists v'. split; [by right | done].
Qed.

Lemma first_isbn_missed (VALIDATE : bool) (vs : list string) :
  first_isbn VALIDATE vs = Some None →
  Forall (λ v, ∃ i, norm_isbn VALIDATE v = Some i ∧ truthy i = false) vs.
Proof.
  induction vs as [|v vs IH]; simpl; [constructor |].
  destruct (norm_isbn VALIDATE v) as [i|] eqn:Hv; simpl; [| done].
  destruct (truthy i) eqn:Ht.
  - intros [= ->]. done.
  - intros H. constructor; [by exists i | by apply IH].
Qed.

Lemma first_issn_found (VALIDATE : bool) (vs : list string) (d : string) :
  first_issn VALIDATE vs = Some d →
  ∃ v, v ∈ vs ∧ norm_issn VALIDATE v = Some d.
Proof.
  induction vs as [|v vs IH]; simpl; [done |].
  destruct (truthy (norm_issn VALIDATE v)) eqn:Ht.
  - intros H. exists v. split; [by left | done].
  - intros H. destruct (IH H) as (v' & Hin & Hv'). exists v'. split; [by right | done].
Qed.

Lemma values_of_fields (r : MarcRecord) (t : string) (codes : list string)
    (v : string) :
  v ∈ (f ← get_fields r [t]; get_subfields f codes) ↔ holds_value r t codes v.
Proof.
  rewrite list_elem_of_bind. unfold holds_value, get_subfields. split.
  - intros (f & Hv & Hf). rewrite get_fields_one in Hf.
    apply list_elem_of_filter in Hf as [Ht%list_elem_of_singleton Hf].
    apply list_elem_of_fmap in Hv as (sf & -> & Hsf).
    apply list_elem_of_filter in Hsf as [Hc Hsf].
    exists f, sf. done.
  - intros (f & sf & Hf & Ht & Hsf & Hc & <-). exists f. split.
    + apply list_elem_of_fmap. exists sf. split; [done |].
      by apply list_elem_of_filter.
    + rewrite get_fields_one. apply list_elem_of_filter.
      split; [by apply list_elem_of_singleton | done].
Qed.

Lemma norm_isbn_digits (VALIDATE : bool) (v d : string) :
  norm_isbn VALIDATE v = Some (Some d) → d = only_digits_x v ∧ d ≠ EmptyString.
Proof.
  unfold norm_isbn.
  destruct (String.length (only_digits_x v) =? 10)%nat eqn:H10.
  { destruct (negb VALIDATE || is_valid_isbn10 (only_digits_x v)); [| done].
    intros [= <-]. split; [done |]. intros E. by rewrite E in H10. }
  destruct (String.length (only_digits_x v) =? 13)%nat eqn:H13; [| done].
  assert (Hne : only_digits_x v ≠ EmptyString) by (intros E; by rewrite E in H13).
  destruct (negb VALIDATE); [by intros [= <-] |].
  destruct (is_valid_isbn13 (only_digits_x v)) as [[]|]; simpl; [| done | done].
  by intros [= <-].
Qed.

Lemma norm_issn_digits (VALIDATE : bool) (v d : string) :
  norm_issn VALIDATE v = Some d → d = only_digits_x v.
Proof.
  unfold norm_issn.
  destruct (negb (nonempty (only_digits_x v))); [done |].
  destruct (negb VALIDATE || is_valid_issn (only_digits_x v)); [| done].
  by intros [= <-].
Qed.

(** X5: with checksums enforced, a strong key is the tagged digits-and-X form
    of a subfield value of the record that passes its check: the value of
    a subfield a or z of a field 020, for an ISBN, or, only when no such
    value gives an ISBN, the value of a subfield a, y or z of a field 022,
    for an ISSN. *)
Theorem strong_key_is_checked (r : MarcRecord) (k : string) :
  extract_strong_key true r = Some (Some k) →
  (∃ v, holds_value r "020" ["a"; "z"] v
        ∧ norm_isbn true v = Some (Some (only_digits_x v))
        ∧ k = "ISBN:" +:+ only_digits_x v
        ∧ (is_valid_isbn10 (only_digits_x v) = true
           ∨ is_valid_isbn13 (only_digits_x v) = Some true))
  ∨ ((∀ v, holds_value r "020" ["a"; "z"] v → norm_isbn true v = Some None)
     ∧ ∃ v, holds_value r "022" ["a"; "y"; "z"] v
            ∧ norm_issn true v = Some (only_digits_x v)
            ∧ k = "ISSN:" +:+ only_digits_x v
            ∧ is_valid_issn (only_digits_x v) = true).
Proof.
  unfold extract_strong_key.
  destruct (first_isbn true (isbn_values r)) as [[d|]|] eqn:Hb; simpl; [| | done].
  - intros [= <-]. left.
    destruct (first_isbn_found _ _ _ Hb) as (v & Hin & Hv).
    destruct (norm_isbn_digits _ _ _ Hv) as [-> _].
    exists v. split; [by apply values_of_fields |]. split; [done |].
    split; [done |]. by eapply norm_isbn_checked.
  - destruct (first_issn true (issn_values r)) as [d|] eqn:Hs; simpl; [| done].
    intros [= <-]. right. split.
    + intros v Hv%values_of_fields.
      pose proof (first_isbn_missed _ _ Hb) as Hall.
      rewrite Forall_forall in Hall.
      destruct (Hall v Hv) as ([d'|] & Hn & Ht); [| done].
      destruct (norm_isbn_digits _ _ _ Hn) as [_ Hne].
      simpl in Ht. by destruct d'.
    + destruct (first_issn_found _ _ _ Hs) as (v & Hin & Hv).
      pose proof (norm_issn_digits _ _ _ Hv) as ->.
      exists v. split; [by apply values_of_fields |]. split; [done |].
      split; [done |]. by eapply norm_issn_checked.
Qed.

(** ** The year *)

Lemma length_substring (n m : nat) (s : string) :
  (n + m ≤ String.length s)%nat → String.length (substring n m s) = m.
Proof.
  revert n m. induction s as [|x s IH]; intros n m; simpl.
  - intros H. assert (n = 0 ∧ m = 0) as [-> ->] by lia. done.
  - destruct n as [|n]; [destruct m as [|m]; [done |] |]; simpl; intros H.
    + f_equal. apply IH. simpl. lia.
    + apply IH. lia.
Qed.

Lemma all_str_substring p (n m : nat) (s : string) :
  all_str p s = true → all_str p (substring n m s) = true.
Proof.
  revert n m. induction s as [|x s IH]; intros n m; simpl.
  - by destruct n, m.
  - rewrite andb_true_iff. intros [Hx Hs].
    destruct n as [|n]; [destruct m as [|m]; [done |] |]; simpl.
    + by rewrite Hx, IH.
    + by apply IH.
Qed.

Lemma first_year_cons (c : string) (cs : list string) :
  first_year (c :: cs) =
    if (4 <=? String.length (filter_str isdigit c))%nat
    then Some (substring 0 4 (filter_str isdigit c)) else first_year cs.
Proof. reflexivity. Qed.

Lemma first_year_shape (cs : list string) (y : string) :
  first_year cs = Some y →
  String.length y = 4 ∧ all_str isdigit y = true.
Proof.
  induction cs as [|c cs IH]; [done |]. rewrite first_year_cons.
  destruct (4 <=? String.length (filter_str isdigit c))%nat eqn:Hlen; [| exact IH].
  intros [= <-]. apply Nat.leb_le in Hlen. split.
  - apply length_substring. simpl. lia.
  - apply all_str_substring, all_str_filter.
Qed.

(** X6: the year of a record is empty or made of exactly four digits. *)
Theorem extract_year_shape (r : MarcRecord) (y : string) :
  extract_year r = Some y →
  y = EmptyString ∨ (String.length y = 4 ∧ all_str isdigit y = true).
Proof.
  unfold extract_year.
  destruct (first_year (date_subfields r)) as [y'|] eqn:Hy.
  { intros [= <-]. right. by eapply first_year_shape. }
  destruct (get_fields r ["008"]) as [|f fs]; [intros [= <-]; by left |].
  destruct (data f) as [dat|]; [| done].
  change (len_opt (Some dat) ≫= _)
    with (if (11 <=? String.length dat)%nat
          then Some (if str_isdigit (substring 7 4 dat)
                     then substring 7 4 dat else EmptyString)
          else Some EmptyString).
  destruct (11 <=? String.length dat)%nat eqn:Hlen; [| intros [= <-]; by left].
  destruct (str_isdigit (substring 7 4 dat)) eqn:Hd; intros [= <-]; [| by left].
  right. apply Nat.leb_le in Hlen. split; [apply length_substring; lia |].
  unfold str_isdigit in Hd. by apply andb_true_iff in Hd as [_ ?].
Qed.

(** ** Runs as folds over the records with their keys *)

Section Runs.

Variable table : ascii → string.
Variable splitext_ext : string → string.
Variable MARCReader : string → option (list (option MarcRecord)).
Variable ratio : string → string → Q.
Variables (VALIDATE : bool) (weak : Z) (use_fuzzy strong_only : bool).

Local Abbreviation step := (step table ratio VALIDATE weak use_fuzzy strong_only).
Local Abbreviation steps := (steps table ratio VALIDATE weak use_fuzzy strong_only).
Local Abbreviation stream := (stream splitext_ext MARCReader).
Local Abbreviation keys_of := (keys_of table VALIDATE use_fuzzy).
Local Abbreviation find := (find_cluster ratio weak use_fuzzy strong_only).
Local Abbreviation assign := (assign ratio weak use_fuzzy strong_only).
Local Abbreviation assign_all := (assign_all ratio weak use_fuzzy strong_only).
Local Abbreviation records_of := (records_of table VALIDATE use_fuzzy).
Local Abbreviation run_records :=
  (run_records table splitext_ext MARCReader VALIDATE use_fuzzy).
Local Abbreviation build srcs :=
  (build_clusters table splitext_ext MARCReader ratio VALIDATE srcs weak
     use_fuzzy strong_only).

Lemma records_of_cons lr l :
  records_of (lr :: l) =
    ks ← keys_of lr.2; srs ← records_of l; Some (source_record lr.1 lr.2 ks :: srs).
Proof.
  unfold records_of. simpl. by destruct (keys_of lr.2).
Qed.

Lemma records_of_project l srs :
  records_of l = Some srs → (λ sr, (lib sr, record sr)) <$> srs = l.
Proof.
  revert srs. induction l as [|[lb r] l IH]; intros srs.
  - by intros [= <-].
  - rewrite records_of_cons. simpl.
    destruct (keys_of r) as [ks|]; simpl; [| done].
    destruct (records_of l) as [srs'|]; simpl; [| done].
    intros [= <-]. simpl. f_equal. by apply IH.
Qed.

Lemma steps_assign_all st l :
  steps st l = assign_all st <$> records_of l.
Proof.
  revert st. induction l as [|lr l IH]; intros st; [done |].
  rewrite steps_cons, step_keys, records_of_cons.
  destruct (keys_of lr.2) as [ks|]; simpl; [| done].
  rewrite IH. by destruct (records_of l).
Qed.

Lemma build_assign_all srcs :
  build srcs = (λ srs, clusters (assign_all init srs)) <$> run_records srcs.
Proof.
  rewrite build_clusters_stream. unfold run_records.
  destruct (stream srcs) as [l|]; simpl; [| done].
  rewrite steps_assign_all. by destruct (records_of l).
Qed.

Lemma assign_all_snoc st srs sr :
  assign_all st (srs ++ [sr]) = assign (assign_all st srs) sr.
Proof. unfold assign_all. by rewrite foldl_app. Qed.

Lemma wf_assign st sr : wf st → wf (assign st sr).
Proof. apply wf_place. Qed.

Lemma wf_assign_all srs : wf (assign_all init srs).
Proof.
  induction srs as [|sr srs IH] using rev_ind; [apply wf_init |].
  rewrite assign_all_snoc. by apply wf_assign.
Qed.

(** The two shapes of the cluster list after a record is placed. *)
Lemma assign_cases st sr :
  wf st →
  (∃ l1 cl l2,
      find st (strong_key sr) (fuzzy_key sr) = Some (length l1)
      ∧ clusters st = l1 ++ cl :: l2
      ∧ clusters (assign st sr) = l1 ++ joined sr cl :: l2)
  ∨ (find st (strong_key sr) (fuzzy_key sr) = None
     ∧ clusters (assign st sr)
       = clusters st ++ [joined sr (mkCluster (next_id st) [] ∅ ∅)]).
Proof.
  intros Hwf. unfold assign. rewrite place_clusters.
  destruct (find st (strong_key sr) (fuzzy_key sr)) as [c|] eqn:Hf.
  - left. assert (Hc : c < length (clusters st)).
    { apply Hwf. by eapply find_cluster_refers. }
    destruct (lookup_lt_is_Some_2 _ _ Hc) as [cl Hcl].
    exists (take c (clusters st)), cl, (drop (S c) (clusters st)).
    assert (Hlen : length (take c (clusters st)) = c) by (rewrite length_take; lia).
    split; [by rewrite Hlen |]. split; [by rewrite take_drop_middle |].
    simpl. rewrite <- (take_drop_middle _ _ _ Hcl) at 1.
    rewrite <- Hlen at 1. rewrite <- (Nat.add_0_r (length _)), alter_app_r. done.
  - right. split; [done |]. simpl.
    rewrite <- (Nat.add_0_r (length (clusters st))), alter_app_r. done.
Qed.

Lemma next_id_assign st sr :
  next_id (assign st sr) =
    match find st (strong_key sr) (fuzzy_key sr) with
    | Some _ => next_id st
    | None => S (next_id st)
    end.
Proof. apply place_next_id. Qed.

(** *** Identifiers and sizes *)

Lemma numbered_assign st sr : wf st → numbered st → numbered (assign st sr).
Proof.
  intros Hwf [Hnext Hid]. unfold numbered. rewrite next_id_assign.
  destruct (assign_cases st sr Hwf)
    as [(l1 & cl & l2 & Hf & Hcl & Hcl') | [Hf Hcl']]; rewrite Hf, Hcl'.
  - rewrite Hcl in Hnext, Hid. split.
    { rewrite Hnext, !length_app. simpl. done. }
    intros k c Hk.
    destruct (decide (k = length l1)) as [-> | Hne].
    + rewrite list_lookup_middle in Hk by done. injection Hk as <-.
      rewrite cluster_id_joined. apply Hid. by rewrite list_lookup_middle.
    + apply Hid. rewrite <- Hk.
      destruct (decide (k < length l1)) as [Hlt | Hge].
      * by rewrite !lookup_app_l.
      * rewrite !lookup_app_r by lia.
        destruct (k - length l1) as [|j] eqn:Hj; [lia | done].
  - split; [rewrite length_app; simpl; lia |].
    intros k c Hk. apply lookup_app_Some in Hk as [Hk | [Hge Hk]]; [by apply Hid |].
    destruct (k - length (clusters st)) as [|j] eqn:Hj; [| by destruct j].
    injection Hk as <-. rewrite cluster_id_joined. simpl. lia.
Qed.

Lemma numbered_assign_all srs : numbered (assign_all init srs).
Proof.
  induction srs as [|sr srs IH] using rev_ind; [by split |].
  rewrite assign_all_snoc. apply numbered_assign; [apply wf_assign_all | done].
Qed.

Lemma nonempty_assign st sr :
  wf st → Forall (λ c, members c ≠ []) (clusters st) →
  Forall (λ c, members c ≠ []) (clusters (assign st sr)).
Proof.
  intros Hwf Hne.
  assert (Hj : ∀ c, members (joined sr c) ≠ []).
  { intros c. rewrite members_joined. by destruct (members c). }
  destruct (assign_cases st sr Hwf)
    as [(l1 & cl & l2 & Hf & Hcl & Hcl') | [Hf Hcl']]; rewrite Hcl'.
  - rewrite Hcl in Hne. apply Forall_app in Hne as [H1 H2].
    apply Forall_cons in H2 as [_ H2].
    apply Forall_app. split; [done |]. by constructor.
  - apply Forall_app. split; [done |]. by constructor.
Qed.

Lemma nonempty_assign_all srs :
  Forall (λ c, members c ≠ []) (clusters (assign_all init srs)).
Proof.
  induction srs as [|sr srs IH] using rev_ind; [constructor |].
  rewrite assign_all_snoc. apply nonempty_assign; [apply wf_assign_all | done].
Qed.

(** X7: the clusters of a run are numbered 1, 2, ... in the order of the
    list, and none of them is empty. *)
Theorem clusters_numbered_and_inhabited srcs cls :
  build_clusters table splitext_ext MARCReader ratio VALIDATE srcs weak
    use_fuzzy strong_only = Some cls →
  (∀ k c, cls !! k = Some c → cluster_id c = S k)
  ∧ Forall (λ c, members c ≠ []) cls.
Proof.
  rewrite build_assign_all.
  destruct (run_records srcs) as [srs|]; simpl; [| done]. intros [= <-].
  split; [apply numbered_assign_all | apply nonempty_assign_all].
Qed.

(** *** Every record is placed once, and order is kept *)

Lemma conserved_assign st srs sr :
  wf st → conserved st srs → conserved (assign st sr) (srs ++ [sr]).
Proof.
  intros Hwf [Hperm Hsub]. unfold conserved.
  assert (Hold : ∀ l, Forall (λ c, members c `sublist_of` srs) l →
                      Forall (λ c, members c `sublist_of` srs ++ [sr]) l).
  { intros l Hl. eapply Forall_impl; [exact Hl |].
    intros c Hc. by apply sublist_inserts_r. }
  destruct (assign_cases st sr Hwf)
    as [(l1 & cl & l2 & Hf & Hcl & Hcl') | [Hf Hcl']]; rewrite Hcl'.
  - rewrite Hcl in Hperm, Hsub. split.
    + rewrite <- Hperm. rewrite !fmap_app, !fmap_cons, !concat_app, !concat_cons.
      rewrite members_joined. solve_Permutation.
    + apply Forall_app in Hsub as [H1 H2]. apply Forall_cons in H2 as [Hc H2].
      apply Forall_app. split; [by apply Hold |].
      constructor; [| by apply Hold].
      rewrite members_joined. by apply sublist_app.
  - split.
    + rewrite fmap_app, concat_app. simpl. rewrite members_joined. simpl.
      rewrite ?app_nil_r. by rewrite Hperm.
    + apply Forall_app. split; [by apply Hold |].
      constructor; [| constructor]. rewrite members_joined. simpl.
      by apply sublist_inserts_l.
Qed.

Lemma conserved_assign_all srs : conserved (assign_all init srs) srs.
Proof.
  induction srs as [|sr srs IH] using rev_ind; [by split |].
  rewrite assign_all_snoc. apply conserved_assign; [apply wf_assign_all | done].
Qed.

(** X8: the clusters of a run partition its records: their member lists
    together are a rearrangement of the records processed, and each
    member list keeps the order in which the records were read. *)
Theorem clusters_partition_the_stream srcs cls :
  build_clusters table splitext_ext MARCReader ratio VALIDATE srcs weak
    use_fuzzy strong_only = Some cls →
  ∃ l srs, stream srcs = Some l
           ∧ (λ sr, (lib sr, record sr)) <$> srs = l
           ∧ concat (members <$> cls) ≡ₚ srs
           ∧ Forall (λ c, members c `sublist_of` srs) cls.
Proof.
  rewrite build_assign_all. unfold run_records.
  destruct (stream srcs) as [l|]; simpl; [| done].
  destruct (records_of l) as [srs|] eqn:Hsrs; simpl; [| done]. intros [= <-].
  exists l, srs. split; [done |]. split; [by apply records_of_project |].
  apply conserved_assign_all.
Qed.

End Runs.

Lemma truthy_Some (o : option string) :
  truthy o = true → o = Some (or_empty o) ∧ or_empty o ≠ EmptyString.
Proof. destruct o as [[|c s]|]; simpl; try done. Qed.

Section Keys.

Variable table : ascii → string.
Variable splitext_ext : string → string.
Variable MARCReader : string → option (list (option MarcRecord)).
Variable ratio : string → string → Q.
Variables (VALIDATE : bool) (weak : Z) (use_fuzzy strong_only : bool).

Local Abbreviation find := (find_cluster ratio weak use_fuzzy strong_only).
Local Abbreviation assign := (assign ratio weak use_fuzzy strong_only).
Local Abbreviation assign_all := (assign_all ratio weak use_fuzzy strong_only).
Local Abbreviation run_records :=
  (run_records table splitext_ext MARCReader VALIDATE use_fuzzy).
Local Abbreviation build srcs :=
  (build_clusters table splitext_ext MARCReader ratio VALIDATE srcs weak
     use_fuzzy strong_only).

(** The cluster at a position after a record is placed: an old cluster
    untouched, or the cluster the record joined. *)
Lemma assign_lookup st sr i c :
  wf st →
  clusters (assign st sr) !! i = Some c →
  let found := find st (strong_key sr) (fuzzy_key sr) in
  (i ≠ target found st ∧ clusters st !! i = Some c)
  ∨ (i = target found st
     ∧ ∃ c0, c = joined sr c0
             ∧ ((found = Some i ∧ clusters st !! i = Some c0)
                ∨ (found = None ∧ i = length (clusters st)
                   ∧ c0 = mkCluster (next_id st) [] ∅ ∅))).
Proof.
  intros Hwf Hi found.
  destruct (assign_cases ratio weak use_fuzzy strong_only st sr Hwf)
    as [(l1 & cl & l2 & Hf & Hcl & Hcl') | [Hf Hcl']];
    fold found in Hf; rewrite Hcl' in Hi; rewrite Hf; simpl.
  - destruct (decide (i = length l1)) as [-> | Hne].
    + right. split; [done |]. exists cl.
      rewrite list_lookup_middle in Hi by done. injection Hi as <-.
      split; [done |]. left. split; [done |]. rewrite Hcl.
      by rewrite list_lookup_middle.
    + left. split; [done |]. rewrite Hcl, <- Hi.
      destruct (decide (i < length l1)) as [Hlt | Hge].
      * by rewrite !lookup_app_l.
      * rewrite !lookup_app_r by lia.
        destruct (i - length l1) as [|j] eqn:Hj; [lia | done].
  - apply lookup_app_Some in Hi as [Hi | [Hge Hi]].
    + left. split; [| done]. apply lookup_lt_Some in Hi. lia.
    + destruct (i - length (clusters st)) as [|j] eqn:Hj; [| by destruct j].
      injection Hi as <-. right. split; [lia |]. eexists. split; [done |].
      right. split; [done |]. split; [lia | done].
Qed.

Lemma find_cluster_strong st sk fk i :
  truthy sk = true → strong_index st !! or_empty sk = Some i →
  find st sk fk = Some i.
Proof. intros Ht Hi. unfold find_cluster. by rewrite Ht, Hi. Qed.

Lemma strong_index_assign st sr :
  strong_index (assign st sr) =
    if truthy (strong_key sr)
    then <[ or_empty (strong_key sr)
            := target (find st (strong_key sr) (fuzzy_key sr)) st ]> (strong_index st)
    else strong_index st.
Proof. apply place_strong_index. Qed.

(** *** Equal strong keys, one cluster *)

Lemma strong_indexed_assign st sr :
  wf st → strong_indexed st → strong_indexed (assign st sr).
Proof.
  intros Hwf Hinv i c m Hi Hm Ht.
  rewrite strong_index_assign.
  set (found := find st (strong_key sr) (fuzzy_key sr)).
  assert (Hold : ∀ j c', clusters st !! j = Some c' → m ∈ members c' →
            (if truthy (strong_key sr)
             then <[or_empty (strong_key sr) := target found st]> (strong_index st)
             else strong_index st) !! or_empty (strong_key m) = Some j).
  { intros j c' Hj Hm'. pose proof (Hinv j c' m Hj Hm' Ht) as Hidx.
    destruct (truthy (strong_key sr)) eqn:Hsr; [| done].
    destruct (decide (or_empty (strong_key sr) = or_empty (strong_key m))) as [E | E].
    - rewrite E, lookup_insert_eq. f_equal. unfold found, target.
      rewrite (find_cluster_strong st (strong_key sr) (fuzzy_key sr) j Hsr); [done |].
      by rewrite E.
    - by rewrite lookup_insert_ne. }
  destruct (assign_lookup st sr i c Hwf Hi) as [[Hne Hc] | [Hit (c0 & -> & Hc0)]].
  - by eapply Hold.
  - fold found in Hit, Hc0. rewrite members_joined in Hm.
    apply elem_of_app in Hm as [Hm | Hm].
    + destruct Hc0 as [[Hf Hc0] | (Hf & Hlen & ->)]; [| by apply not_elem_of_nil in Hm].
      by eapply Hold.
    + apply list_elem_of_singleton in Hm as ->. rewrite Ht, Hit.
      apply lookup_insert_eq.
Qed.

Lemma strong_indexed_assign_all srs : strong_indexed (assign_all init srs).
Proof.
  induction srs as [|sr srs IH] using rev_ind.
  - intros i c m Hi. simpl in Hi. by rewrite lookup_nil in Hi.
  - rewrite assign_all_snoc. apply strong_indexed_assign; [apply wf_assign_all | done].
Qed.

(** X9: two members with the same usable strong key are in the same cluster,
    whatever the fuzzy settings and the order of arrival. *)
Theorem same_strong_key_same_cluster srcs cls i j c c' m m' :
  build_clusters table splitext_ext MARCReader ratio VALIDATE srcs weak
    use_fuzzy strong_only = Some cls →
  cls !! i = Some c → cls !! j = Some c' →
  m ∈ members c → m' ∈ members c' →
  truthy (strong_key m) = true →
  strong_key m = strong_key m' →
  i = j.
Proof.
  rewrite build_assign_all.
  destruct (run_records srcs) as [srs|]; simpl; [| done]. intros [= <-].
  intros Hi Hj Hm Hm' Ht Heq.
  pose proof (strong_indexed_assign_all srs i c m Hi Hm Ht) as H1.
  assert (Ht' : truthy (strong_key m') = true) by by rewrite <- Heq.
  pose proof (strong_indexed_assign_all srs j c' m' Hj Hm' Ht') as H2.
  rewrite <- Heq in H2. congruence.
Qed.

(** *** The key sets of a cluster *)

Lemma keys_recorded_joined sr c :
  keys_recorded c → keys_recorded (joined sr c).
Proof.
  intros [Hs Hf]. split; intros k.
  - rewrite members_joined.
    assert (strong_keys (joined sr c)
            = if truthy (strong_key sr)
              then strong_keys c ∪ {[or_empty (strong_key sr)]} else strong_keys c) as ->.
    { unfold joined. by destruct (truthy (strong_key sr)), (truthy (fuzzy_key sr)). }
    destruct (truthy (strong_key sr)) eqn:Ht.
    + destruct (truthy_Some _ Ht) as [Hsk Hne].
      rewrite elem_of_union, Hs, elem_of_singleton. split.
      * intros [(m & Hm & Hk) | ->].
        -- exists m. split; [apply elem_of_app; by left | done].
        -- exists sr. split; [apply elem_of_app; right; by apply list_elem_of_singleton |].
           done.
      * intros (m & [Hm | ->%list_elem_of_singleton]%elem_of_app & Hk & Hne').
        -- left. by exists m.
        -- right. rewrite Hk. done.
    + rewrite Hs. split.
      * intros (m & Hm & Hk). exists m. split; [apply elem_of_app; by left | done].
      * intros (m & [Hm | ->%list_elem_of_singleton]%elem_of_app & Hk & Hne').
        -- by exists m.
        -- rewrite Hk in Ht. simpl in Ht. by rewrite (nonempty_true _ Hne') in Ht.
  - rewrite members_joined.
    assert (fuzzy_keys (joined sr c)
            = if truthy (fuzzy_key sr)
              then fuzzy_keys c ∪ {[or_empty (fuzzy_key sr)]} else fuzzy_keys c) as ->.
    { unfold joined. by destruct (truthy (strong_key sr)), (truthy (fuzzy_key sr)). }
    destruct (truthy (fuzzy_key sr)) eqn:Ht.
    + destruct (truthy_Some _ Ht) as [Hsk Hne].
      rewrite elem_of_union, Hf, elem_of_singleton. split.
      * intros [(m & Hm & Hk) | ->].
        -- exists m. split; [apply elem_of_app; by left | done].
        -- exists sr. split; [apply elem_of_app; right; by apply list_elem_of_singleton |].
           done.
      * intros (m & [Hm | ->%list_elem_of_singleton]%elem_of_app & Hk & Hne').
        -- left. by exists m.
        -- right. rewrite Hk. done.
    + rewrite Hf. split.
      * intros (m & Hm & Hk). exists m. split; [apply elem_of_app; by left | done].
      * intros (m & [Hm | ->%list_elem_of_singleton]%elem_of_app & Hk & Hne').
        -- by exists m.
        -- rewrite Hk in Ht. simpl in Ht. by rewrite (nonempty_true _ Hne') in Ht.
Qed.

Lemma keys_recorded_new n : keys_recorded (mkCluster n [] ∅ ∅).
Proof.
  split; intros k; simpl; (split; [by intros ?%not_elem_of_empty |]);
    intros (m & Hm & _); by apply not_elem_of_nil in Hm.
Qed.

Lemma keys_recorded_assign st sr :
  wf st → Forall keys_recorded (clusters st) →
  Forall keys_recorded (clusters (assign st sr)).
Proof.
  intros Hwf Hinv.
  destruct (assign_cases ratio weak use_fuzzy strong_only st sr Hwf)
    as [(l1 & cl & l2 & Hf & Hcl & Hcl') | [Hf Hcl']]; rewrite Hcl'.
  - rewrite Hcl in Hinv. apply Forall_app in Hinv as [H1 H2].
    apply Forall_cons in H2 as [Hc H2]. apply Forall_app. split; [done |].
    constructor; [by apply keys_recorded_joined | done].
  - apply Forall_app. split; [done |]. constructor; [| constructor].
    apply keys_recorded_joined, keys_recorded_new.
Qed.

(** X10: the strong and fuzzy key sets of every cluster of a run hold exactly
    the non-empty keys of its members. *)
Theorem cluster_key_sets_are_member_keys srcs cls :
  build_clusters table splitext_ext MARCReader ratio VALIDATE srcs weak
    use_fuzzy strong_only = Some cls → Forall keys_recorded cls.
Proof.
  rewrite build_assign_all.
  destruct (run_records srcs) as [srs|]; simpl; [| done]. intros [= <-].
  induction srs as [|sr srs IH] using rev_ind; [constructor |].
  rewrite assign_all_snoc. apply keys_recorded_assign; [apply wf_assign_all | done].
Qed.

End Keys.

(** ** Without the fuzzy pass *)

Section StrongOnly.

Variable table : ascii → string.
Variable splitext_ext : string → string.
Variable MARCReader : string → option (list (option MarcRecord)).
Variable ratio : string → string → Q.
Variables (VALIDATE : bool) (weak : Z) (use_fuzzy strong_only : bool).

Hypothesis fuzzy_off : use_fuzzy = false ∨ strong_only = true.

Local Abbreviation find := (find_cluster ratio weak use_fuzzy strong_only).
Local Abbreviation assign := (assign ratio weak use_fuzzy strong_only).
Local Abbreviation assign_all := (assign_all ratio weak use_fuzzy strong_only).
Local Abbreviation run_records :=
  (run_records table splitext_ext MARCReader VALIDATE use_fuzzy).
Local Abbreviation build srcs :=
  (build_clusters table splitext_ext MARCReader ratio VALIDATE srcs weak
     use_fuzzy strong_only).

Lemma find_cluster_off st sk fk :
  find st sk fk = if truthy sk then strong_index st !! or_empty sk else None.
Proof.
  unfold find_cluster.
  destruct (if truthy sk then strong_index st !! or_empty sk else None); [done |].
  destruct fuzzy_off as [-> | ->]; [done |]. by rewrite andb_false_r.
Qed.

Lemma strong_classes_assign st sr :
  wf st → strong_classes st → strong_classes (assign st sr).
Proof.
  intros Hwf Hinv i c Hi.
  pose proof (strong_index_assign ratio weak use_fuzzy strong_only st sr) as Hidx.
  destruct (assign_lookup ratio weak use_fuzzy strong_only st sr i c Hwf Hi)
    as [[Hne Hc] | [Hit (c0 & -> & Hc0)]].
  - (* an old cluster, not the one joined *)
    destruct (Hinv i c Hc) as (sk & Hnon & Hall & Hone & Href).
    exists sk. unfold keyed_by in *. split; [done |]. split; [done |]. split; [done |].
    intros k. rewrite Hidx.
    destruct (truthy (strong_key sr)); [| apply Href].
    destruct (decide (or_empty (strong_key sr) = k)) as [<- | Hk].
    + rewrite lookup_insert_eq. intros [= E]. by rewrite E in Hne.
    + rewrite lookup_insert_ne by done. apply Href.
  - rewrite find_cluster_off in Hit, Hc0.
    destruct (truthy (strong_key sr)) eqn:Ht.
    + destruct (truthy_Some _ Ht) as [Hsk Hknon].
      destruct Hc0 as [[Hf Hc0] | (Hf & Hlen & ->)].
      * (* joined through the strong index *)
        destruct (Hinv i c0 Hc0) as (sk & Hnon & Hall & Hone & Href).
        pose proof (Href _ Hf) as ->.
        exists (Some (or_empty (strong_key sr))). unfold keyed_by.
        split; [rewrite members_joined; by destruct (members c0) |].
        split; [| split].
        -- intros m. rewrite members_joined.
           intros [Hm | ->%list_elem_of_singleton]%elem_of_app; [by apply Hall | done].
        -- simpl. by rewrite (nonempty_true _ Hknon).
        -- intros k. rewrite Hidx.
           destruct (decide (or_empty (strong_key sr) = k)) as [<- | Hk]; [done |].
           rewrite lookup_insert_ne by done. apply Href.
      * (* a new cluster, with a key *)
        exists (strong_key sr). unfold keyed_by. rewrite members_joined. simpl.
        split; [done |]. split; [by intros m ->%list_elem_of_singleton |].
        split; [done |].
        intros k. rewrite Hidx.
        destruct (decide (or_empty (strong_key sr) = k)) as [<- | Hk]; [done |].
        rewrite lookup_insert_ne by done. intros Hk'.
        assert (i < length (clusters st)); [| lia].
        apply Hwf. left. by exists k.
    + (* a new cluster, without a key *)
      destruct Hc0 as [[Hf _] | (_ & Hlen & ->)]; [done |].
      exists (strong_key sr). unfold keyed_by. rewrite members_joined. simpl.
      split; [done |]. split; [by intros m ->%list_elem_of_singleton |].
      split; [done |].
      intros k. rewrite Hidx. intros Hk'.
      assert (i < length (clusters st)); [| lia].
      apply Hwf. left. by exists k.
Qed.

Lemma strong_classes_assign_all srs : strong_classes (assign_all init srs).
Proof.
  induction srs as [|sr srs IH] using rev_ind.
  - intros i c Hi. simpl in Hi. by rewrite lookup_nil in Hi.
  - rewrite assign_all_snoc. apply strong_classes_assign; [apply wf_assign_all | done].
Qed.

(** X11: with fuzzy matching disabled, or in strong-only mode, the members of
    a cluster all carry the same strong key, and a cluster whose key is
    absent has a single member. *)
Theorem strong_only_clusters_share_one_key srcs cls c :
  build_clusters table splitext_ext MARCReader ratio VALIDATE srcs weak
    use_fuzzy strong_only = Some cls → c ∈ cls →
  ∃ sk, (∀ m, m ∈ members c → strong_key m = sk)
        ∧ (truthy sk = false → length (members c) = 1).
Proof.
  rewrite build_assign_all.
  destruct (run_records srcs) as [srs|]; simpl; [| done]. intros [= <-].
  intros [i Hi]%list_elem_of_lookup.
  destruct (strong_classes_assign_all srs i c Hi) as (sk & _ & Hall & Hone & _).
  by exists sk.
Qed.

End StrongOnly.

(** ** Sources that cannot be read *)

Section Reader.

Variable table : ascii → string.
Variable splitext_ext : string → string.
Variable MARCReader : string → option (list (option MarcRecord)).
Variable ratio : string → string → Q.
Variables (VALIDATE : bool) (weak : Z) (use_fuzzy strong_only : bool).

Lemma stream_cons (src : string * string) srcs :
  stream splitext_ext MARCReader (src :: srcs) =
    recs ← iter_records_mrc splitext_ext MARCReader src.2;
    rest ← stream splitext_ext MARCReader srcs;
    Some (((λ r, (src.1, r)) <$> recs) ++ rest).
Proof. reflexivity. Qed.

Lemma stream_unreadable srcs lib_ path :
  (lib_, path) ∈ srcs →
  iter_records_mrc splitext_ext MARCReader path = None →
  stream splitext_ext MARCReader srcs = None.
Proof.
  intros Hin Hnone. induction srcs as [|src srcs IH]; [by apply not_elem_of_nil in Hin |].
  rewrite stream_cons.
  apply elem_of_cons in Hin as [<- | Hin].
  - cbn [snd]. by rewrite Hnone.
  - rewrite (IH Hin). by destruct (iter_records_mrc splitext_ext MARCReader src.2).
Qed.

(** X12: a source whose extension, in lower case, is none of the four that
    are accepted makes the whole run fail, whatever the other sources
    hold; so does a file that cannot be opened. *)
Theorem unsupported_source_aborts_run srcs lib_ path :
  (lib_, path) ∈ srcs →
  lower (splitext_ext path) ∉ MRC_EXTENSIONS ∨ MARCReader path = None →
  build_clusters table splitext_ext MARCReader ratio VALIDATE srcs weak
    use_fuzzy strong_only = None.
Proof.
  intros Hin Hbad. rewrite build_clusters_stream.
  rewrite (stream_unreadable srcs lib_ path Hin); [done |].
  unfold iter_records_mrc. destruct Hbad as [Hext | Hopen].
  - by rewrite bool_decide_eq_false_2.
  - rewrite Hopen. by destruct (bool_decide _).
Qed.

End Reader.

(** ** The primary record *)

Lemma foldl_max_ge (s0 : Z) (ss : list Z) :
  (s0 ≤ foldl Z.max s0 ss)%Z ∧ Forall (λ s, (s ≤ foldl Z.max s0 ss)%Z) ss.
Proof.
  revert s0. induction ss as [|s ss IH]; intros s0; simpl.
  - split; [lia | constructor].
  - destruct (IH (Z.max s0 s)) as [H1 H2]. split; [lia|].
    constructor; [lia | exact H2].
Qed.

Lemma foldl_max_upper (s0 : Z) (ss : list Z) (s : Z) :
  s ∈ s0 :: ss → (s ≤ foldl Z.max s0 ss)%Z.
Proof.
  destruct (foldl_max_ge s0 ss) as [H1 H2].
  intros [->|Hin]%elem_of_cons; [exact H1|].
  rewrite Forall_forall in H2. exact (H2 _ Hin).
Qed.

Lemma head_filter_first {A} (P : A → Prop) `{∀ x, Decision (P x)}
    (l : list A) (x : A) :
  head (filter P l) = Some x →
  ∃ i, l !! i = Some x ∧ P x ∧ ∀ j y, (j < i)%nat → l !! j = Some y → ¬ P y.
Proof.
  induction l as [|a l IH]; [discriminate|].
  rewrite filter_cons. destruct (decide (P a)) as [Ha|Ha].
  - intros [= ->]. exists 0. split; [reflexivity|]. split; [exact Ha|].
    intros j y Hj. lia.
  - intros Hh. destruct (IH Hh) as (i & Hi & HP & Hfirst).
    exists (S i). split; [exact Hi|]. split; [exact HP|].
    intros [|j] y Hj; simpl.
    + intros [= <-]. exact Ha.
    + apply Hfirst. lia.
Qed.

Lemma find_in {A} (f : A → bool) (l : list A) (x : A) :
  List.find f l = Some x → x ∈ l ∧ f x = true.
Proof.
  induction l as [|a l IH]; [discriminate|]. simpl.
  destruct (f a) eqn:Ha.
  - intros [= ->]. split; [left | exact Ha].
  - intros Hf. destruct (IH Hf) as [Hin Hx]. split; [right; exact Hin | exact Hx].
Qed.

Lemma find_none {A} (f : A → bool) (l : list A) :
  List.find f l = None → ∀ x, x ∈ l → f x = false.
Proof.
  induction l as [|a l IH]; simpl.
  - intros _ x Hx. inversion Hx.
  - destruct (f a) eqn:Ha; [discriminate|].
    intros Hf x [->|Hin]%elem_of_cons; [exact Ha | exact (IH Hf x Hin)].
Qed.

Lemma pick_preferred_lib prefer best i :
  pick_preferred prefer best = Some i →
  ∃ m, (i, m) ∈ best ∧ lib m ∈ prefer.
Proof.
  induction prefer as [|l prefer IH]; [discriminate|]. simpl.
  destruct (List.find _ best) as [[j m]|] eqn:Hf.
  - intros [= <-]. destruct (find_in _ _ _ Hf) as [Hin Heq]. simpl in Heq.
    apply String.eqb_eq in Heq. exists m. split; [exact Hin|].
    rewrite <- Heq. left.
  - intros Hp. destruct (IH Hp) as (m & Hin & Hl).
    exists m. split; [exact Hin | right; exact Hl].
Qed.

Lemma pick_preferred_none prefer best :
  pick_preferred prefer best = None →
  ∀ im, im ∈ best → lib im.2 ∉ prefer.
Proof.
  induction prefer as [|l prefer IH]; simpl.
  - intros _ im _ Hin. inversion Hin.
  - destruct (List.find _ best) as [[j m]|] eqn:Hf; [discriminate|].
    intros Hp im Him [Heq|Hin]%elem_of_cons.
    + pose proof (find_none _ _ Hf im Him) as Hne. simpl in Hne.
      rewrite Heq, String.eqb_refl in Hne. discriminate.
    + exact (IH Hp im Him Hin).
Qed.

Lemma scored_lookup members scores j i m s :
  scored_of members scores !! j = Some (i, (m, s)) ↔
  i = j ∧ members !! j = Some m ∧ scores !! j = Some s.
Proof.
  unfold scored_of. rewrite lookup_zip_with_Some. split.
  - intros (x & y & Heq & Hx & Hy). injection Heq as -> <-.
    apply lookup_seq in Hx as [-> _].
    apply lookup_zip_with_Some in Hy as (a & b & Heq & Ha & Hb).
    injection Heq as -> ->. done.
  - intros (-> & Hm & Hs). exists j, (m, s). split; [reflexivity|].
    split.
    + apply lookup_seq. split; [reflexivity|]. eapply lookup_lt_Some, Hm.
    + apply lookup_zip_with_Some. exists m, s. done.
Qed.

Lemma scores_lookup members scores :
  mapM (λ m, score_record (record m)) members = Some scores →
  (∀ j m, members !! j = Some m →
     ∃ s, scores !! j = Some s ∧ score_record (record m) = Some s) ∧
  (∀ j s, scores !! j = Some s →
     ∃ m, members !! j = Some m ∧ score_record (record m) = Some s).
Proof.
  intros HF%mapM_Some_1. split.
  - intros j m Hm. destruct (Forall2_lookup_l _ _ _ _ _ HF Hm) as (s & Hs & Hsc).
    exists s. done.
  - intros j s Hs. destruct (Forall2_lookup_r _ _ _ _ _ HF Hs) as (m & Hm & Hsc).
    exists m. done.
Qed.

(** What [choose_primary] returns, in full: the scores exist, the chosen
    position holds a member whose score is the maximum, and the position
    is either picked by the preference list or the first of the maximal
    ones when none of them belongs to a preferred library. *)
Lemma choose_primary_inv members prefer p :
  choose_primary members prefer = Some p →
  ∃ scores mp sp,
    mapM (λ m, score_record (record m)) members = Some scores ∧
    members !! p = Some mp ∧ scores !! p = Some sp ∧
    (∀ s, s ∈ scores → (s ≤ sp)%Z) ∧
    (lib mp ∈ prefer ∨
     (∀ j m s, members !! j = Some m → scores !! j = Some s → s = sp →
        (lib m ∉ prefer) ∧ (p ≤ j)%nat)).
Proof.
  unfold choose_primary.
  destruct (mapM _ members) as [scores|] eqn:Hsc; [|discriminate].
  cbn [mbind option_bind].
  destruct scores as [|s0 ss] eqn:Hss; [discriminate|]. rewrite <- Hss in *.
  set (maxsc := foldl Z.max s0 ss).
  fold (scored_of members scores).
  set (best := _ <$> filter _ (scored_of members scores)).
  assert (Hbest : ∀ i m, (i, m) ∈ best ↔
            members !! i = Some m ∧ scores !! i = Some maxsc).
  { intros i m. unfold best. rewrite list_elem_of_fmap. split.
    - intros ([i' [m' s']] & [= -> ->] & Hin).
      apply list_elem_of_filter in Hin as [Heq Hin]. simpl in Heq. subst s'.
      apply list_elem_of_lookup in Hin as [j Hj].
      apply scored_lookup in Hj as (-> & Hm & Hs). done.
    - intros [Hm Hs]. exists (i, (m, maxsc)). split; [reflexivity|].
      apply list_elem_of_filter. split; [reflexivity|].
      apply list_elem_of_lookup. exists i. apply scored_lookup. done. }
  assert (Hmax : ∀ s, s ∈ scores → (s ≤ maxsc)%Z).
  { intros s Hs. rewrite Hss in Hs. exact (foldl_max_upper _ _ _ Hs). }
  destruct (pick_preferred prefer best) as [i|] eqn:Hp.
  - intros [= <-]. destruct (pick_preferred_lib _ _ _ Hp) as (m & Hin & Hl).
    apply Hbest in Hin as [Hm Hs].
    exists scores, m, maxsc. repeat split; try done. left. exact Hl.
  - intros Hh. destruct (head best) as [[i m]|] eqn:Hhead; [|discriminate].
    injection Hh as <-.
    assert (Hin : (i, m) ∈ best).
    { destruct best; [discriminate|]. injection Hhead as <-. left. }
    pose proof (proj1 (Hbest _ _) Hin) as [Hm Hs].
    exists scores, m, maxsc. repeat split; try done. right.
    intros j m' s Hm' Hs' ->. split.
    + exact (pick_preferred_none _ _ Hp (j, m') (proj2 (Hbest _ _) (conj Hm' Hs'))).
    + unfold best in Hhead.
      destruct (filter _ (scored_of members scores)) as [|[i' [m0 s0']] fl] eqn:Hfl;
        [discriminate|].
      injection Hhead as -> ->.
      assert (Hhd : head (filter (λ ims : nat * (SourceRecord * Z), ims.2.2 = maxsc)
                        (scored_of members scores)) = Some (i, (m, s0')))
        by (rewrite Hfl; reflexivity).
      apply head_filter_first in Hhd as (k & Hk & _ & Hfirst).
      apply scored_lookup in Hk as (-> & _ & _).
      destruct (decide (k ≤ j)%nat) as [|Hlt]; [assumption|]. exfalso.
      apply (Hfirst j (j, (m', maxsc))); [lia | | reflexivity].
      apply scored_lookup. done.
Qed.

(** X13: the primary record has the highest score of the cluster. *)
Theorem primary_has_highest_score members prefer p :
  choose_primary members prefer = Some p →
  ∃ mp sp, members !! p = Some mp ∧ score_record (record mp) = Some sp ∧
    ∀ m, m ∈ members →
      ∃ s, score_record (record m) = Some s ∧ (s ≤ sp)%Z.
Proof.
  intros (scores & mp & sp & Hsc & Hm & Hs & Hmax & _)%choose_primary_inv.
  destruct (scores_lookup _ _ Hsc) as [Hfw Hbw].
  exists mp, sp. split; [exact Hm|]. split.
  - destruct (Hfw _ _ Hm) as (s & Hs' & Hr). congruence.
  - intros m [j Hj]%list_elem_of_lookup.
    destruct (Hfw _ _ Hj) as (s & Hs' & Hr). exists s. split; [exact Hr|].
    apply Hmax. eapply list_elem_of_lookup_2, Hs'.
Qed.

(** X14: among records tied at the highest score, a record of a preferred
    library wins; with none, the earliest one wins. *)
Theorem primary_tie_break members prefer p mp sp :
  choose_primary members prefer = Some p →
  members !! p = Some mp →
  score_record (record mp) = Some sp →
  ∀ j m, members !! j = Some m → score_record (record m) = Some sp →
    (lib m ∈ prefer → lib mp ∈ prefer) ∧
    (lib mp ∉ prefer → (p ≤ j)%nat).
Proof.
  intros (scores & mp' & sp' & Hsc & Hm & Hs & Hmax & Hcase)%choose_primary_inv
         Hmp Hsp j m Hj Hsj.
  destruct (scores_lookup _ _ Hsc) as [Hfw _].
  assert (mp' = mp) by congruence. subst mp'.
  destruct (Hfw _ _ Hmp) as (s & Hs' & Hr).
  assert (sp' = sp) by congruence. subst sp'.
  destruct (Hfw _ _ Hj) as (s' & Hs'' & Hr').
  assert (s' = sp) by congruence. subst s'.
  destruct Hcase as [Hpref|Hnone].
  - split; [intros _; exact Hpref | intros Hn; contradiction].
  - destruct (Hnone j m sp Hj Hs'' eq_refl) as [Hnot Hle].
    split; [intros Hin; contradiction | intros _; exact Hle].
Qed.

(** X15: [choose_primary] fails exactly when the cluster has no member or
    a member cannot be scored. *)
Theorem primary_exists_iff members prefer :
  is_Some (choose_primary members prefer) ↔
  members ≠ [] ∧ Forall (λ m, is_Some (score_record (record m))) members.
Proof.
  split.
  - intros [p Hp]. pose proof Hp as Hp'.
    apply choose_primary_inv in Hp as (scores & mp & sp & Hsc & Hm & _).
    split.
    + intros ->. discriminate.
    + destruct (scores_lookup _ _ Hsc) as [Hfw _].
      apply Forall_forall. intros m [j Hj]%list_elem_of_lookup.
      destruct (Hfw _ _ Hj) as (s & _ & Hr). rewrite Hr. eauto.
  - intros [Hne Hall].
    assert (Hsc : ∃ scores, mapM (λ m, score_record (record m)) members = Some scores).
    { apply (mapM_is_Some_2 (λ m, score_record (record m))), Hall. }
    destruct Hsc as [scores Hsc].
    pose proof (Forall2_length _ _ _ (mapM_Some_1 _ _ _ Hsc)) as Hlen.
    unfold choose_primary. rewrite Hsc. cbn [mbind option_bind].
    destruct scores as [|s0 ss] eqn:Hss.
    { destruct members; [contradiction | discriminate]. }
    rewrite <- Hss in *.
    set (maxsc := foldl Z.max s0 ss).
    destruct (pick_preferred prefer _) as [i|]; [eauto|].
    fold (scored_of members scores).
    assert (Hex : ∃ j, scores !! j = Some maxsc).
    { assert (Hin : maxsc ∈ scores).
      { rewrite Hss. unfold maxsc. clear. revert s0.
        induction ss as [|s ss IH]; intros s0; simpl; [left|].
        specialize (IH (Z.max s0 s)). apply elem_of_cons in IH as [Heq|Hin].
        - rewrite Heq. destruct (Z.max_spec s0 s) as [[_ ->]|[_ ->]];
            [right; left | left].
        - right. right. exact Hin. }
      apply list_elem_of_lookup in Hin. exact Hin. }
    destruct Hex as [j Hj].
    destruct (proj2 (scores_lookup _ _ Hsc) _ _ Hj) as (m & Hm & _).
    assert (Hin : (j, (m, maxsc)) ∈
              filter (λ ims : nat * (SourceRecord * Z), ims.2.2 = maxsc)
                (scored_of members scores)).
    { apply list_elem_of_filter. split; [reflexivity|].
      apply list_elem_of_lookup. exists j. apply scored_lookup. done. }
    destruct (filter _ (scored_of members scores)) as [|x fl].
    + inversion Hin.
    + simpl. eauto.
Qed.

(** ** The merged record *)

Lemma annotate_fold p prov hold (ms : list SourceRecord) (st : store)
    (libs : gset string) :
  foldl (annotate p prov hold) (st, libs) ms
  = (alter (λ rec, rec ++ flat_map (annotations prov hold) ms) p st,
     libs ∪ list_to_set (lib <$> ms)).
Proof.
  revert st libs. induction ms as [|sr ms IH]; intros st libs.
  - simpl. f_equal.
    + symmetry. apply list_alter_id. intros rec. apply app_nil_r.
    + symmetry. apply union_empty_r_L.
  - change (foldl (annotate p prov hold) (st, libs) (sr :: ms))
      with (foldl (annotate p prov hold) (annotate p prov hold (st, libs) sr) ms).
    unfold annotate at 2. rewrite IH. f_equal.
    + rewrite !list_alter_alter_eq. apply list_alter_ext; [|reflexivity].
      intros rec _. unfold add_field. simpl.
      rewrite <- !app_assoc. reflexivity.
    + rewrite fmap_cons, list_to_set_cons. symmetry. apply (assoc_L (∪)).
Qed.

Lemma find_donor_none (st : store) (t : string) (n i : nat) :
  (∀ j, get_fields (read st j) [t] = []) → find_donor st t i n = None.
Proof.
  intros Hall. revert i. induction n as [|n IH]; intros i; [reflexivity|].
  rewrite find_donor_S, Hall. apply IH.
Qed.

Lemma donate_idle p (st : store) (t : string) :
  strip t = EmptyString ∨ (∀ j, get_fields (read st j) [strip t] = []) →
  donate p st t = st.
Proof.
  intros [Hb|Hnone]; unfold donate.
  - rewrite Hb. reflexivity.
  - destruct (negb (nonempty (strip t))); [reflexivity|].
    rewrite (find_donor_none _ _ _ _ Hnone). reflexivity.
Qed.

Lemma read_fmap_record (ms : list SourceRecord) (j : nat) :
  read (record <$> ms) j = default [] (record <$> ms !! j).
Proof. unfold read. rewrite list_lookup_fmap. reflexivity. Qed.

(** X16: when no preferred tag applies (each is blank, or is a tag no
    member carries and neither annotation tag as the field constructor
    writes it, zero-filled to three characters), the merged record is the
    primary's own record followed by the provenance and holdings fields
    of every member in member order, and the closing note. *)
Theorem merge_appends_annotations
    (set_iter : gset string → list string) (cl : Cluster)
    (prefer prefer_fields : list string) (prov hold mt : string)
    (keep9 : bool) (p : nat) :
  choose_primary (members cl) prefer = Some p →
  Forall (λ t, strip t = EmptyString
               ∨ (strip t ≠ norm_tag prov ∧ strip t ≠ norm_tag hold
                  ∧ Forall (λ m, get_fields (record m) [strip t] = [])
                      (members cl)))
         prefer_fields →
  ∃ mp, members cl !! p = Some mp
    ∧ merge_cluster set_iter cl prefer prefer_fields prov hold mt keep9
      = Some (record mp ++ flat_map (annotations prov hold) (members cl)
                ++ [merge_note set_iter mt (members cl)]).
Proof.
  intros Hp Hidle.
  pose proof (choose_primary_lt _ _ _ Hp) as Hlt.
  destruct (lookup_lt_is_Some_2 _ _ Hlt) as [mp Hmp].
  exists mp. split; [exact Hmp|].
  unfold merge_cluster. rewrite Hp, bind_some.
  pose proof (annotate_store p prov hold (members cl) (record <$> members cl) ∅)
    as Hann.
  rewrite annotate_fold in *. cbn [fst] in Hann.
  set (st1 := alter _ p (record <$> members cl)) in *.
  assert (Hsame : foldl (donate p) st1 prefer_fields = st1).
  { induction Hidle as [|t ts Ht _ IH]; [reflexivity|].
    simpl. rewrite donate_idle; [exact IH|].
    destruct Ht as [Hb|(Hprov & Hhold & Hnone)]; [left; exact Hb|].
    right. intros j. destruct (Hann (strip t) Hprov Hhold) as [_ Hget].
    rewrite Hget, read_fmap_record.
    destruct (members cl !! j) as [m|] eqn:Hj; [|reflexivity].
    rewrite Forall_forall in Hnone. apply Hnone.
    eapply list_elem_of_lookup_2, Hj. }
  rewrite Hsame. f_equal.
  unfold st1, read. rewrite list_lookup_alter_eq, list_lookup_fmap, Hmp.
  simpl. unfold add_field, merge_note.
  rewrite <- app_assoc. do 4 f_equal.
  rewrite union_empty_l_L. reflexivity.
Qed.


(** The provenance tag given as [35] is written [035] by the field
    constructor: the annotations are found under [035]; and when [035] is
    also a preferred tag, the first record that has such a field is the
    annotated primary itself, so the merged record is left with none. *)
Example provenance_tag_is_zero_filled :
  (λ rec, get_fields rec ["035"])
    <$> merge_cluster (λ s, elements s) pair_cluster [] [] "35" "910" "948" false
  = Some (FieldCls "035" (Some " ") (Some " ") <$>
            [[Subf "a" "(L1)1"]; [Subf "a" "(L2)9"]])
  ∧ (λ rec, get_fields rec ["035"])
      <$> merge_cluster (λ s, elements s) pair_cluster [] ["035"] "35" "910" "948" false
    = Some [].
Proof. split; vm_compute; reflexivity. Qed.

(** ** The outputs of a run *)

Lemma length_concat_members (cls : list Cluster) :
  length (concat (members <$> cls)) = sum_list ((λ c, length (members c)) <$> cls).
Proof.
  induction cls as [|c cls IH]; [reflexivity|].
  rewrite !fmap_cons. cbn [concat sum_list sum_list_with].
  rewrite length_app, IH. reflexivity.
Qed.

Lemma sorted_spec (set_iter : gset string → list string) (s : gset string) :
  enumerates set_iter →
  Sorted str_le (sorted set_iter s) ∧ NoDup (sorted set_iter s)
  ∧ ∀ k, k ∈ sorted set_iter s ↔ k ∈ s.
Proof.
  intros Henum. unfold sorted.
  assert (Hperm : merge_sort str_le (set_iter s) ≡ₚ elements s).
  { rewrite merge_sort_Permutation. apply Henum. }
  split; [apply Sorted_merge_sort, _|]. split.
  - rewrite Hperm. apply NoDup_elements.
  - intros k. rewrite Hperm. apply elem_of_elements.
Qed.

Section Outputs.

Variable table : ascii → string.
Variable set_iter : gset string → list string.
Variable splitext_ext : string → string.
Variable MARCReader : string → option (list (option MarcRecord)).
Variable ratio : string → string → Q.

Local Abbreviation run := (main table set_iter splitext_ext MARCReader ratio).
Local Abbreviation stream := (stream splitext_ext MARCReader).

Lemma main_inv (a : Args) (out : Outputs) :
  run a = Some out →
  ∃ srs,
    run_records table splitext_ext MARCReader (negb (no_checksum a))
      (negb (no_fuzzy a)) (parse_sources (src a)) = Some srs
    ∧ let cls := clusters (assign_all ratio (weak_threshold a) (negb (no_fuzzy a))
                             (strong_only_ a) init srs) in
      length (union out) = length cls
      ∧ report out = write_report set_iter cls
      ∧ manifest out = if clusters_json a then Some (write_json set_iter cls) else None.
Proof.
  unfold main. rewrite build_assign_all.
  destruct (run_records _ _ _ _ _ _) as [srs|]; [|discriminate].
  simpl. unfold write_union.
  destruct (mapM _ _) as [merged|] eqn:Hm; [|discriminate].
  intros [= <-]. exists srs. split; [reflexivity|]. simpl.
  split; [|done].
  symmetry. exact (Forall2_length _ _ _ (mapM_Some_1 _ _ _ Hm)).
Qed.

(** X18: the report has one row per merged record; row [k] (from 0)
    carries the identifier [k + 1] and a size of at least one; the sizes
    add up to the number of records read. *)
Theorem report_accounts_for_every_record (a : Args) (out : Outputs) :
  run a = Some out →
  ∃ l, stream (parse_sources (src a)) = Some l
    ∧ length (union out) = length (report out)
    ∧ (∀ k row, report out !! k = Some row →
         row_id row = S k ∧ (1 ≤ row_size row)%nat)
    ∧ sum_list (row_size <$> report out) = length l.
Proof.
  intros (srs & Hrun & Hlen & Hrep & _)%main_inv.
  set (st := assign_all _ _ _ _ init srs) in *.
  unfold run_records in Hrun.
  destruct (stream (parse_sources (src a))) as [l|] eqn:Hl; [|discriminate].
  rewrite bind_some in Hrun.
  exists l. split; [reflexivity|].
  rewrite Hrep. unfold write_report. rewrite length_fmap.
  split; [exact Hlen|]. split.
  - intros k row. rewrite list_lookup_fmap.
    destruct (clusters st !! k) as [c|] eqn:Hc; [|discriminate].
    intros [= <-]. unfold row_id, row_size, report_row. simpl.
    destruct (numbered_assign_all ratio (weak_threshold a) (negb (no_fuzzy a))
                (strong_only_ a) srs) as [_ Hid].
    split; [exact (Hid _ _ Hc)|].
    pose proof (nonempty_assign_all ratio (weak_threshold a) (negb (no_fuzzy a))
                  (strong_only_ a) srs) as Hne.
    rewrite Forall_forall in Hne.
    specialize (Hne c (list_elem_of_lookup_2 _ _ _ Hc)).
    destruct (members c); [contradiction | simpl; lia].
  - rewrite <- list_fmap_compose.
    change (row_size ∘ report_row set_iter) with (λ c : Cluster, length (members c)).
    rewrite <- length_concat_members.
    destruct (conserved_assign_all ratio (weak_threshold a) (negb (no_fuzzy a))
                (strong_only_ a) srs) as [Hperm _].
    fold st in Hperm. rewrite Hperm.
    rewrite <- (records_of_project _ _ _ _ _ Hrun), length_fmap. reflexivity.
Qed.

(** X19: the manifest is written exactly when asked for; its entries
    follow the report row by row, with the same identifier, as many
    members as the row's size, and the row's strong keys as a list in
    ascending order without repetition. *)
Theorem manifest_follows_report (a : Args) (out : Outputs) :
  enumerates set_iter →
  run a = Some out →
  (is_Some (manifest out) ↔ clusters_json a = true)
  ∧ ∀ js, manifest out = Some js →
      Forall2 (λ row e,
                 entry_id e = row_id row
                 ∧ length (entry_members e) = row_size row
                 ∧ join ";" (entry_keys e) = row_keys row
                 ∧ Sorted str_le (entry_keys e)
                 ∧ NoDup (entry_keys e))
              (report out) js.
Proof.
  intros Henum (srs & _ & _ & Hrep & Hman)%main_inv.
  set (st := assign_all _ _ _ _ init srs) in *.
  rewrite Hrep, Hman. split.
  - destruct (clusters_json a); split; intros H; try done; by eauto.
  - intros js. destruct (clusters_json a); [|discriminate].
    intros [= <-]. unfold write_report, write_json.
    apply Forall2_fmap, Forall_Forall2_diag, Forall_forall.
    intros c _. unfold entry_id, entry_members, entry_keys, row_id, row_size,
      row_keys, json_entry, report_row. simpl.
    rewrite length_fmap.
    destruct (sorted_spec set_iter (strong_keys c) Henum) as (Hs & Hn & _).
    done.
Qed.

End Outputs.

(** ** Text and command-line handling *)

Lemma plain_char (c : ascii) : plain (PUNCT_TABLE (lower_char c)) = true.
Proof. destruct c as [[] [] [] [] [] [] [] []]; vm_compute; reflexivity. Qed.

Lemma all_str_map_any p f (s : string) :
  (∀ c, p (f c) = true) → all_str p (map_str f s) = true.
Proof.
  intros H. induction s as [|c s IH]; [reflexivity|].
  simpl. by rewrite H, IH.
Qed.

(** X20: whatever the transliteration table, normalised text is a list of
    words separated by single spaces; a word is non-empty and holds no
    whitespace, no punctuation of PUNCT and no capital A-Z. *)
Theorem normalize_text_shape (table : ascii → string) (s : option string) :
  ∃ ws, normalize_text table s = join " " ws
        ∧ Forall token ws
        ∧ Forall (λ w, all_str plain w = true) ws.
Proof.
  exists (split (prep table (or_empty s))).
  split; [reflexivity|]. split; [apply split_tokens|].
  apply split_all. unfold prep, translate, lower.
  induction (unidecode table (or_empty s)) as [|c u IH]; [reflexivity|].
  simpl. by rewrite plain_char, IH.
Qed.

(** *** [strip] *)

Lemma rstrip_idem (s : string) : rstrip (rstrip s) = rstrip s.
Proof.
  induction s as [|c s IH]; [reflexivity|].
  simpl. destruct (rstrip s) as [|c' r] eqn:Hr.
  - destruct (isspace c) eqn:Hc; [reflexivity|]. simpl. by rewrite Hc.
  - simpl. simpl in IH. by rewrite IH.
Qed.

Lemma lstrip_head (s : string) :
  match lstrip s with String c _ => isspace c = false | EmptyString => True end.
Proof.
  induction s as [|c s IH]; [exact I|].
  simpl. destruct (isspace c) eqn:Hc; [exact IH | exact Hc].
Qed.

Lemma lstrip_rstrip (s : string) :
  match s with String c _ => isspace c = false | EmptyString => True end →
  lstrip (rstrip s) = rstrip s.
Proof.
  destruct s as [|c s]; [reflexivity|]. intros Hc.
  simpl. destruct (rstrip s); rewrite ?Hc; simpl; rewrite ?Hc; reflexivity.
Qed.

Lemma strip_idem (s : string) : strip (strip s) = strip s.
Proof.
  unfold strip. rewrite (lstrip_rstrip _ (lstrip_head s)). apply rstrip_idem.
Qed.

Lemma all_str_lstrip p (s : string) :
  all_str p s = true → all_str p (lstrip s) = true.
Proof.
  induction s as [|c s IH]; [done|]. simpl.
  intros [Hc Hs]%andb_true_iff.
  destruct (isspace c); [by apply IH|]. simpl. by rewrite Hc, Hs.
Qed.

Lemma all_str_rstrip p (s : string) :
  all_str p s = true → all_str p (rstrip s) = true.
Proof.
  induction s as [|c s IH]; [done|]. simpl.
  intros [Hc Hs]%andb_true_iff. specialize (IH Hs).
  destruct (rstrip s) as [|c' r].
  - destruct (isspace c); [reflexivity|]. simpl. by rewrite Hc.
  - change (all_str p (String c (String c' r))) with (p c && all_str p (String c' r)).
    by rewrite Hc, IH.
Qed.

Lemma all_str_strip p (s : string) :
  all_str p s = true → all_str p (strip s) = true.
Proof. intros H. by apply all_str_rstrip, all_str_lstrip. Qed.

Lemma mem_str_all c (s : string) :
  mem_str c s = false ↔ all_str (λ d, negb (Ascii.eqb c d)) s = true.
Proof.
  induction s as [|d s IH]; [done|]. simpl.
  destruct (Ascii.eqb c d); simpl; [split; discriminate | exact IH].
Qed.

(** *** Comma-separated options *)

Lemma split_on_pieces sep (s : string) :
  split_on sep s ≠ []
  ∧ Forall (λ w, mem_str sep w = false) (split_on sep s).
Proof.
  induction s as [|c s [Hne IH]].
  - split; [discriminate | by repeat constructor].
  - simpl. destruct (Ascii.eqb c sep) eqn:Hc.
    + split; [discriminate|]. by constructor.
    + destruct (split_on sep s) as [|w ws]; [contradiction|].
      split; [discriminate|].
      inversion IH as [|? ? Hw Hws]; subst. constructor; [|exact Hws].
      simpl. rewrite Ascii.eqb_sym, Hc. exact Hw.
Qed.

(** X21: the entries of a comma-separated option ([--prefer],
    [--prefer-fields]) are non-empty, carry no whitespace at either end
    and no comma; blank entries are dropped. *)
Theorem comma_list_entries (s : string) :
  Forall (λ x, x ≠ EmptyString ∧ trimmed x ∧ mem_str "," x = false)
         (comma_list s).
Proof.
  unfold comma_list. apply Forall_fmap, Forall_forall.
  intros x Hx. apply list_elem_of_In, List.filter_In in Hx as [Hin Hne].
  apply list_elem_of_In in Hin.
  destruct (split_on_pieces "," s) as [_ Hall].
  rewrite Forall_forall in Hall. specialize (Hall x Hin).
  simpl. split; [|split].
  - destruct (strip x); [discriminate | discriminate].
  - apply strip_idem.
  - apply mem_str_all, all_str_strip, mem_str_all, Hall.
Qed.

(** *** [LIB=path] arguments *)

Lemma split_once_spec sep (s : string) :
  mem_str sep s = true →
  ∃ a b, split_once sep s = (a, b)
         ∧ s = a +:+ String sep b ∧ mem_str sep a = false.
Proof.
  induction s as [|c s IH]; [discriminate|]. simpl.
  rewrite Ascii.eqb_sym.
  destruct (Ascii.eqb c sep) eqn:Hc.
  - intros _. apply Ascii.eqb_eq in Hc as ->.
    exists EmptyString, s. by rewrite app_str_nil.
  - intros (a & b & Hs & -> & Ha)%IH. rewrite Hs.
    exists (String c a), b. split; [reflexivity|]. split.
    + by rewrite app_str_cons.
    + simpl. by rewrite Ascii.eqb_sym, Hc.
Qed.

Lemma split_once_app sep (a b : string) :
  mem_str sep a = false →
  mem_str sep (a +:+ String sep b) = true
  ∧ split_once sep (a +:+ String sep b) = (a, b).
Proof.
  induction a as [|c a IH].
  - intros _. rewrite app_str_nil. simpl. by rewrite Ascii.eqb_refl.
  - rewrite app_str_cons. simpl.
    destruct (Ascii.eqb sep c) eqn:Hc; [discriminate|].
    intros [Hm Hs]%IH. rewrite Ascii.eqb_sym, Hc, Hs. done.
Qed.

(** X22: a [--src] argument contributes a source exactly when it holds an
    equals sign: the label is the text before the first sign and the path
    all the text after it, both stripped.  Arguments without the sign
    contribute nothing. *)
Theorem parse_sources_spec (srcs : list string) (l p : string) :
  (l, p) ∈ parse_sources srcs ↔
  ∃ a b, (a +:+ String "=" b) ∈ srcs ∧ mem_str "=" a = false
         ∧ l = strip a ∧ p = strip b.
Proof.
  unfold parse_sources. rewrite list_elem_of_In, in_flat_map. split.
  - intros (s & Hs%list_elem_of_In & Hin).
    destruct (mem_str "=" s) eqn:Hm; simpl in Hin; [|contradiction].
    destruct (split_once_spec _ _ Hm) as (a & b & Hsp & -> & Ha).
    rewrite Hsp in Hin. destruct Hin as [[= <- <-]|[]].
    exists a, b. done.
  - intros (a & b & Hs & Ha & -> & ->).
    exists (a +:+ String "=" b). split; [by apply list_elem_of_In|].
    destruct (split_once_app "=" a b Ha) as [Hm Hsp].
    rewrite Hm, Hsp. simpl. left. reflexivity.
Qed.

(** X23: a local identifier never carries whitespace at either end,
    whether it comes from 999$c or from 001. *)
Theorem get_local_id_trimmed (rec : MarcRecord) : trimmed (get_local_id rec).
Proof.
  assert (H001 : trimmed (local_id_001 rec)).
  { unfold trimmed, local_id_001.
    destruct (get_fields rec ["001"]); [reflexivity | apply strip_idem]. }
  unfold get_local_id.
  destruct (get_fields rec ["999"]) as [|f fs]; [exact H001|].
  destruct (get_subfields f ["c"]); [exact H001 | apply strip_idem].
Qed.

(** ** The fuzzy index over a run *)

(** [d[k] = v] keeps one entry per key; the entries of the other keys
    stay as they are. *)
Lemma dict_set_spec k v (d : list (string * nat)) :
  NoDup d.*1 →
  NoDup (dict_set k v d).*1
  ∧ ∀ k' v', (k', v') ∈ dict_set k v d
             ↔ (k' = k ∧ v' = v) ∨ (k' ≠ k ∧ (k', v') ∈ d).
Proof.
  induction d as [|[k0 v0] d IH]; intros Hnd.
  - split; [apply NoDup_singleton |]. intros k' v'. simpl.
    rewrite list_elem_of_singleton. split.
    + intros [= -> ->]. by left.
    + intros [[-> ->] | [_ H]]; [done | by apply not_elem_of_nil in H].
  - rewrite fmap_cons in Hnd. apply NoDup_cons in Hnd as [Hk0 Hnd].
    destruct (IH Hnd) as [IHnd IHin]. simpl.
    destruct (String.eqb k0 k) eqn:E.
    + apply String.eqb_eq in E as ->. split.
      * rewrite fmap_cons. by apply NoDup_cons.
      * intros k' v'. rewrite !elem_of_cons. split.
        -- intros [[= -> ->] | Hin]; [by left |]. right. split; [| by right].
           intros ->. apply Hk0. apply list_elem_of_fmap. by exists (k, v').
        -- intros [[-> ->] | [Hne [[= -> ->] | Hin]]]; [by left | done | by right].
    + apply String.eqb_neq in E. split.
      * rewrite fmap_cons. apply NoDup_cons. split; [| done].
        intros ([k1 v1] & Hk1 & Hin)%list_elem_of_fmap. simpl in Hk1. subst k1.
        apply IHin in Hin as [[-> _] | [_ Hin]]; [done |].
        apply Hk0. apply list_elem_of_fmap. by exists (k0, v1).
      * intros k' v'. rewrite !elem_of_cons, IHin. split.
        -- intros [[= -> ->] | [[-> ->] | [Hne Hin]]];
             [right; split; [done | by left] | by left | right; split; [done | by right]].
        -- intros [[-> ->] | [Hne [[= -> ->] | Hin]]];
             [right; by left | by left | right; right; by split].
Qed.

Section Growth.

Variable ratio : string → string → Q.
Variables (weak : Z) (use_fuzzy strong_only : bool).

Local Abbreviation find := (find_cluster ratio weak use_fuzzy strong_only).
Local Abbreviation assign := (assign ratio weak use_fuzzy strong_only).
Local Abbreviation assign_all := (assign_all ratio weak use_fuzzy strong_only).

Lemma assign_all_cons st sr srs :
  assign_all st (sr :: srs) = assign_all (assign st sr) srs.
Proof. reflexivity. Qed.

Lemma assign_all_app st l1 l2 :
  assign_all st (l1 ++ l2) = assign_all (assign_all st l1) l2.
Proof. unfold assign_all. apply foldl_app. Qed.

Lemma wf_assign_from st srs : wf st → wf (assign_all st srs).
Proof.
  revert st. induction srs as [|sr srs IH]; intros st Hwf; [done |].
  rewrite assign_all_cons. by apply IH, wf_assign.
Qed.

Lemma fuzzy_index_assign st sr :
  fuzzy_index (assign st sr) =
    if truthy (fuzzy_key sr)
    then dict_set (or_empty (fuzzy_key sr))
           (target (find st (strong_key sr) (fuzzy_key sr)) st) (fuzzy_index st)
    else fuzzy_index st.
Proof. apply place_fuzzy_index. Qed.

Lemma one_entry_assign st sr :
  one_entry_per_key st → one_entry_per_key (assign st sr).
Proof.
  unfold one_entry_per_key. rewrite fuzzy_index_assign. intros Hnd.
  destruct (truthy (fuzzy_key sr)); [| done]. by apply dict_set_spec.
Qed.

Lemma one_entry_assign_from st srs :
  one_entry_per_key st → one_entry_per_key (assign_all st srs).
Proof.
  revert st. induction srs as [|sr srs IH]; intros st H; [done |].
  rewrite assign_all_cons. by apply IH, one_entry_assign.
Qed.

(** Step 7: the record's own fuzzy key enters the index and points to
    the cluster the record was put in. *)
Lemma own_key_indexed st sr fk :
  fuzzy_key sr = Some fk → fk ≠ EmptyString →
  (fk, target (find st (strong_key sr) (fuzzy_key sr)) st)
    ∈ fuzzy_index (assign st sr).
Proof.
  intros Hfk Hne. rewrite fuzzy_index_assign, Hfk. simpl.
  rewrite (nonempty_true _ Hne). apply dict_set_elem_of.
Qed.

(** The entry of a key stays as it is while no record carries that key. *)
Lemma entry_kept st sr k i :
  one_entry_per_key st → (k, i) ∈ fuzzy_index st →
  fuzzy_key sr ≠ Some k → (k, i) ∈ fuzzy_index (assign st sr).
Proof.
  intros Hnd Hin Hne. rewrite fuzzy_index_assign.
  destruct (truthy (fuzzy_key sr)) eqn:Ht; [| done].
  apply truthy_Some in Ht as [Hfk _].
  apply dict_set_spec; [done |]. right. split; [| done].
  intros ->. by rewrite Hfk in Hne.
Qed.

Lemma entry_kept_from st srs k i :
  one_entry_per_key st → (k, i) ∈ fuzzy_index st →
  Forall (λ r, fuzzy_key r ≠ Some k) srs →
  (k, i) ∈ fuzzy_index (assign_all st srs).
Proof.
  revert st. induction srs as [|sr srs IH]; intros st Hnd Hin Hall; [done |].
  apply Forall_cons in Hall as [Hsr Hall]. rewrite assign_all_cons.
  apply IH; [by apply one_entry_assign | by apply entry_kept | done].
Qed.

(** A record is a member of the cluster it is put in; members stay. *)
Lemma placed_in_target st sr :
  wf st →
  in_cluster (clusters (assign st sr))
    (target (find st (strong_key sr) (fuzzy_key sr)) st) sr.
Proof.
  intros Hwf.
  destruct (assign_cases ratio weak use_fuzzy strong_only st sr Hwf)
    as [(l1 & cl & l2 & Hf & Hcl & Hcl') | [Hf Hcl']]; rewrite Hf, Hcl'; simpl.
  - exists (joined sr cl). split; [by rewrite list_lookup_middle |].
    rewrite members_joined. apply elem_of_app. right. by left.
  - eexists. split; [by rewrite list_lookup_middle |].
    rewrite members_joined. apply elem_of_app. right. by left.
Qed.

Lemma member_kept st sr i m :
  wf st → in_cluster (clusters st) i m → in_cluster (clusters (assign st sr)) i m.
Proof.
  intros Hwf (c & Hc & Hm).
  destruct (assign_cases ratio weak use_fuzzy strong_only st sr Hwf)
    as [(l1 & cl & l2 & Hf & Hcl & Hcl') | [Hf Hcl']]; rewrite Hcl'.
  - rewrite Hcl in Hc. destruct (decide (i = length l1)) as [-> | Hne].
    + rewrite list_lookup_middle in Hc by done. injection Hc as ->.
      exists (joined sr c). split; [by rewrite list_lookup_middle |].
      rewrite members_joined. apply elem_of_app. by left.
    + exists c. split; [| done]. rewrite <- Hc.
      destruct (decide (i < length l1)) as [Hlt | Hge].
      * by rewrite !lookup_app_l.
      * rewrite !lookup_app_r by lia.
        destruct (i - length l1) as [|n] eqn:Hn; [lia | done].
  - exists c. split; [| done]. by apply lookup_app_l_Some.
Qed.

Lemma member_kept_from st srs i m :
  wf st → in_cluster (clusters st) i m →
  in_cluster (clusters (assign_all st srs)) i m.
Proof.
  revert st. induction srs as [|sr srs IH]; intros st Hwf Hin; [done |].
  rewrite assign_all_cons. apply IH; [by apply wf_assign | by apply member_kept].
Qed.

End Growth.

Section Chain.

Variable table : ascii → string.
Variable splitext_ext : string → string.
Variable MARCReader : string → option (list (option MarcRecord)).
Variable ratio : string → string → Q.
Variables (VALIDATE : bool) (weak : Z).

Local Abbreviation find := (find_cluster ratio weak true false).
Local Abbreviation assign := (assign ratio weak true false).
Local Abbreviation assign_all := (assign_all ratio weak true false).

(** A record that reaches the fuzzy scan joins the cluster the index
    holds for the key that achieves the scan maximum. *)
Lemma joins_by_scan st sr fk k c j i :
  wf st → one_entry_per_key st →
  fuzzy_key sr = Some fk → fk ≠ EmptyString →
  no_strong_hit st (strong_key sr) →
  first_max ratio fk (fuzzy_index st) j (k, c) →
  (0 < ratio fk k)%Q → (inject_Z weak <= ratio fk k)%Q →
  (k, i) ∈ fuzzy_index st →
  c = i
  ∧ in_cluster (clusters (assign st sr)) i sr
  ∧ (fk, i) ∈ fuzzy_index (assign st sr).
Proof.
  intros Hwf Hnd Hfk Hne Hs Hfm Hpos Hw Hin.
  assert (Hc : c = i).
  { pose proof Hfm as (Hj & _ & _). apply list_elem_of_lookup_2 in Hj.
    unfold one_entry_per_key in Hnd.
    destruct (list_elem_of_lookup_1 _ _ Hj) as [a Ha].
    destruct (list_elem_of_lookup_1 _ _ Hin) as [b Hb].
    assert (a = b).
    { apply (NoDup_lookup _ a b k Hnd); rewrite list_lookup_fmap;
        [by rewrite Ha | by rewrite Hb]. }
    subst b. congruence. }
  subst i. split; [done |].
  assert (Hfind : find st (strong_key sr) (fuzzy_key sr) = Some c).
  { rewrite Hfk. apply (find_cluster_first_max ratio weak st _ fk c Hs Hne).
    exists j, (k, c). done. }
  pose proof (placed_in_target ratio weak true false st sr Hwf) as Hin'.
  pose proof (own_key_indexed ratio weak true false st sr fk Hfk Hne) as Hidx.
  rewrite Hfind in Hin', Hidx. done.
Qed.

(** C2, as amended: with fuzzy matching on and strong-only off, let A,
    B, C be three records of a run, processed in that order, each with a
    fuzzy key, B and C without a hit in the strong index when their turn
    comes.  Let A's key achieve the maximum of B's scan and B's key the
    maximum of C's scan, each maximum above zero and at or above the
    threshold, whatever the similarity of C's key to A's.  If no record
    processed between A and B carries A's fuzzy key, and none between B
    and C carries B's, then the run returns, B joins the cluster A was put
    in, and C joins that same cluster: the clusters returned have one
    whose members include A, B and C.  C gets there through B's own key,
    which step 7 entered in the fuzzy index when B joined. *)
Theorem index_growth_chaining
    (srcs : list (string * string))
    (pre m1 m2 post : list SourceRecord) (A B C : SourceRecord)
    (fkA fkB fkC : string) (i j cA cB : nat) :
  run_records table splitext_ext MARCReader VALIDATE true srcs
    = Some (pre ++ A :: m1 ++ B :: m2 ++ C :: post) →
  fuzzy_key A = Some fkA → fkA ≠ EmptyString →
  fuzzy_key B = Some fkB → fkB ≠ EmptyString →
  fuzzy_key C = Some fkC → fkC ≠ EmptyString →
  let stB := assign_all init (pre ++ A :: m1) in
  let stC := assign_all init (pre ++ A :: m1 ++ B :: m2) in
  no_strong_hit stB (strong_key B) →
  first_max ratio fkB (fuzzy_index stB) i (fkA, cA) →
  (0 < ratio fkB fkA)%Q → (inject_Z weak <= ratio fkB fkA)%Q →
  Forall (λ r, fuzzy_key r ≠ Some fkA) m1 →
  no_strong_hit stC (strong_key C) →
  first_max ratio fkC (fuzzy_index stC) j (fkB, cB) →
  (0 < ratio fkC fkB)%Q → (inject_Z weak <= ratio fkC fkB)%Q →
  Forall (λ r, fuzzy_key r ≠ Some fkB) m2 →
  ∃ cls c,
    build_clusters table splitext_ext MARCReader ratio VALIDATE srcs weak
      true false = Some cls
    ∧ cB = cA
    ∧ cls !! cA = Some c
    ∧ A ∈ members c ∧ B ∈ members c ∧ C ∈ members c.
Proof.
  intros Hrun HfkA HneA HfkB HneB HfkC HneC stB stC
         HsB HmaxB HposB HwB Hm1 HsC HmaxC HposC HwC Hm2.
  set (st0 := assign_all init pre).
  assert (Hwf0 : wf st0) by apply wf_assign_all.
  assert (Hnd0 : one_entry_per_key st0).
  { apply one_entry_assign_from. apply NoDup_nil_2. }
  (* A *)
  set (iA := target (find st0 (strong_key A) (fuzzy_key A)) st0).
  set (stA := assign st0 A).
  assert (HwfA : wf stA) by by apply wf_assign.
  assert (HndA : one_entry_per_key stA) by by apply one_entry_assign.
  assert (HinA : in_cluster (clusters stA) iA A) by by apply placed_in_target.
  assert (HidxA : (fkA, iA) ∈ fuzzy_index stA) by by apply own_key_indexed.
  (* up to B *)
  assert (HstB : stB = assign_all stA m1).
  { unfold stB. by rewrite assign_all_app, assign_all_cons. }
  assert (HwfB : wf stB) by (rewrite HstB; by apply wf_assign_from).
  assert (HndB : one_entry_per_key stB)
    by (rewrite HstB; by apply one_entry_assign_from).
  assert (HidxB : (fkA, iA) ∈ fuzzy_index stB)
    by (rewrite HstB; by apply entry_kept_from).
  assert (HinAB : in_cluster (clusters stB) iA A)
    by (rewrite HstB; by apply member_kept_from).
  destruct (joins_by_scan stB B fkB fkA cA i iA HwfB HndB HfkB HneB HsB
              HmaxB HposB HwB HidxB) as (-> & HinB & HidxB').
  set (stB' := assign stB B) in *.
  assert (HwfB' : wf stB') by by apply wf_assign.
  assert (HndB' : one_entry_per_key stB') by by apply one_entry_assign.
  assert (HinAB' : in_cluster (clusters stB') iA A) by by apply member_kept.
  (* up to C *)
  assert (HstC : stC = assign_all stB' m2).
  { assert (E : pre ++ A :: m1 ++ B :: m2 = (pre ++ A :: m1) ++ B :: m2)
      by (repeat (rewrite <- app_assoc || rewrite <- app_comm_cons); reflexivity).
    unfold stC, stB', stB. by rewrite E, assign_all_app, assign_all_cons. }
  assert (HwfC : wf stC) by (rewrite HstC; by apply wf_assign_from).
  assert (HndC : one_entry_per_key stC)
    by (rewrite HstC; by apply one_entry_assign_from).
  assert (HidxC : (fkB, iA) ∈ fuzzy_index stC)
    by (rewrite HstC; by apply entry_kept_from).
  assert (HinAC : in_cluster (clusters stC) iA A)
    by (rewrite HstC; by apply member_kept_from).
  assert (HinBC : in_cluster (clusters stC) iA B)
    by (rewrite HstC; by apply member_kept_from).
  destruct (joins_by_scan stC C fkC fkB cB j iA HwfC HndC HfkC HneC HsC
              HmaxC HposC HwC HidxC) as (-> & HinC & _).
  set (stC' := assign stC C) in *.
  assert (HwfC' : wf stC') by by apply wf_assign.
  (* to the end of the run *)
  set (fin := assign_all stC' post).
  assert (Hfin : assign_all init (pre ++ A :: m1 ++ B :: m2 ++ C :: post) = fin).
  { assert (E : pre ++ A :: m1 ++ B :: m2 ++ C :: post
                 = (pre ++ A :: m1 ++ B :: m2) ++ C :: post)
      by (repeat (rewrite <- app_assoc || rewrite <- app_comm_cons); reflexivity).
    unfold fin, stC', stC. by rewrite E, assign_all_app, assign_all_cons. }
  destruct (member_kept_from ratio weak true false stC' post iA A HwfC')
    as (c & Hc & HA); [by apply member_kept |].
  destruct (member_kept_from ratio weak true false stC' post iA B HwfC')
    as (c' & Hc' & HB); [by apply member_kept |].
  destruct (member_kept_from ratio weak true false stC' post iA C HwfC' HinC)
    as (c'' & Hc'' & HC).
  fold fin in Hc, Hc', Hc''.
  assert (c' = c) by congruence. assert (c'' = c) by congruence. subst c' c''.
  exists (clusters fin), c. split.
  - rewrite build_assign_all, Hrun. simpl. by rewrite Hfin.
  - done.
Qed.

End Chain.

(** *** The chaining at a concrete run, and the run that breaks it *)

Ltac first_max_by_computation :=
  split; [vm_compute; reflexivity |];
  split;
  [ intros ? Hin; apply list_elem_of_In in Hin; vm_compute in Hin;
    repeat (destruct Hin as [<- | Hin]; [vm_compute; discriminate |]);
    destruct Hin
  | intros n ? Hn Hl;
    repeat (destruct n as [|n];
            [vm_compute in Hl; injection Hl as <-; vm_compute; reflexivity |]);
    exfalso; lia ].

Lemma index_growth_chaining_witness :
  ∃ cls c,
    build_clusters latin_table posix_ext (reader_of growth_files) indel_ratio
      true sources_ab 70 true false = Some cls
    ∧ 1 = 1
    ∧ cls !! 1 = Some c
    ∧ sr_A ∈ members c ∧ sr_B ∈ members c ∧ sr_C ∈ members c.
Proof.
  apply (index_growth_chaining latin_table posix_ext (reader_of growth_files)
           indel_ratio true 70 sources_ab [sr_X] [] [sr_N] []
           sr_A sr_B sr_C "abcd" "abcde" "bcdef" 1 2 1 1).
  - reflexivity.
  - reflexivity.
  - discriminate.
  - reflexivity.
  - discriminate.
  - reflexivity.
  - discriminate.
  - reflexivity.
  - first_max_by_computation.
  - vm_compute. reflexivity.
  - vm_compute. discriminate.
  - constructor.
  - reflexivity.
  - first_max_by_computation.
  - vm_compute. reflexivity.
  - vm_compute. discriminate.
  - constructor; [discriminate | constructor].
Defined.

(** The run X, A, B, E, C at threshold 70.  A and B are similar at or
    above the threshold and B joins A's cluster; C's key is below the
    threshold against A's and at or above it against B's, and B's key
    achieves the maximum of C's scan.  E, processed between B and C,
    carries B's fuzzy key and joins X by its strong key: the entry of that
    key now points to X's cluster, and C ends with X and E, not with A
    and B. *)
Lemma index_repointed_counterexample :
  run_records latin_table posix_ext (reader_of repoint_files) true true sources_ab
    = Some [sr_X; sr_A; sr_B; sr_E; sr_C]
  ∧ (inject_Z 70 <= indel_ratio "abcde" "abcd")%Q
  ∧ (indel_ratio "bcdef" "abcd" < inject_Z 70)%Q
  ∧ (inject_Z 70 <= indel_ratio "bcdef" "abcde")%Q
  ∧ fmap (M:=list) members
      (clusters (assign_all indel_ratio 70 true false init [sr_X; sr_A; sr_B]))
    = [[sr_X]; [sr_A; sr_B]]
  ∧ first_max indel_ratio "bcdef"
      (fuzzy_index (assign_all indel_ratio 70 true false init
                      [sr_X; sr_A; sr_B; sr_E]))
      2 ("abcde", 0)
  ∧ fmap (M:=list) members
      <$> build_clusters latin_table posix_ext (reader_of repoint_files)
            indel_ratio true sources_ab 70 true false
    = Some [[sr_X; sr_E; sr_C]; [sr_A; sr_B]].
Proof.
  split; [reflexivity |].
  split; [vm_compute; discriminate |].
  split; [vm_compute; reflexivity |].
  split; [vm_compute; discriminate |].
  split; [vm_compute; reflexivity |].
  split; [first_max_by_computation |].
  vm_compute. reflexivity.
Qed.

(** The run X, A, B, C where C carries X's identifier: the strong index
    is consulted first, and C ends with X although B's key achieves the
    maximum of the scan C never makes. *)
Example strong_hit_precedes_scan :
  run_records latin_table posix_ext (reader_of strong_hit_files) true true sources_ab
    = Some [sr_X; sr_A; sr_B; sr_C_keyed]
  ∧ first_max indel_ratio "bcdef"
      (fuzzy_index (assign_all indel_ratio 70 true false init [sr_X; sr_A; sr_B]))
      2 ("abcde", 1)
  ∧ fmap (M:=list) members
      <$> build_clusters latin_table posix_ext (reader_of strong_hit_files)
            indel_ratio true sources_ab 70 true false
    = Some [[sr_X; sr_C_keyed]; [sr_A; sr_B]].
Proof.
  split; [reflexivity |].
  split; [first_max_by_computation |].
  vm_compute. reflexivity.
Qed.

(** ** Records without keys *)

(** *** What the validators accept is valid as the specification has it *)

Ltac use_digits :=
  repeat match goal with
         | H : _ && _ = true |- _ => apply andb_true_iff in H as [? ?]
         end;
  repeat match goal with
         | H : re_d ?c = true |- _ => rewrite H; clear H
         end.

Lemma isbn10_accepted_valid (d : string) :
  is_valid_isbn10 d = true → isbn10_valid_spec d = true.
Proof.
  intros (Hlen & Hall & Hchk)%is_valid_isbn10_inv.
  explicit_string d 10. unfold isbn10_valid_spec, isbn10_sum.
  cbn in *.
  destruct Hchk as [[-> Hm] | [Hd Hm]]; use_digits; cbn.
  - apply orb_true_iff. left. apply Z.eqb_eq. exact Hm.
  - apply orb_true_iff. right. apply Z.eqb_eq. exact Hm.
Qed.

Lemma isbn13_accepted_valid (d : string) :
  is_valid_isbn13 d = Some true → isbn13_valid_spec d = true.
Proof.
  intros (Hlen & Hall & Hlast & Heq)%is_valid_isbn13_inv.
  explicit_string d 13. unfold isbn13_valid_spec, isbn13_sum.
  cbn in *. use_digits. cbn.
  apply Z.eqb_eq. exact Heq.
Qed.

Lemma issn_accepted_valid (d : string) :
  is_valid_issn d = true → issn_valid_spec d = true.
Proof.
  intros (Hlen & Hall & Hchk)%is_valid_issn_inv.
  unfold issn_valid_spec. cbv zeta. revert Hlen Hall Hchk.
  generalize (pad7 d). clear d. intros d Hlen Hall Hchk.
  explicit_string d 8. unfold issn_check_char, issn_sum.
  cbn in *. use_digits. cbn.
  apply Ascii.eqb_eq. exact Hchk.
Qed.

(** *** A record whose identifiers are all invalid has no strong key *)

Lemma norm_isbn_of_invalid (v : string) :
  isbn10_valid_spec (only_digits_x v) = false →
  isbn13_valid_spec (only_digits_x v) = false →
  norm_isbn true v = Some None ∨ norm_isbn true v = None.
Proof.
  intros H10 H13. unfold norm_isbn. simpl.
  destruct (String.length (only_digits_x v) =? 10)%nat.
  { destruct (is_valid_isbn10 (only_digits_x v)) eqn:E; [| by left].
    apply isbn10_accepted_valid in E. congruence. }
  destruct (String.length (only_digits_x v) =? 13)%nat; [| by left].
  destruct (is_valid_isbn13 (only_digits_x v)) as [[]|] eqn:E; simpl;
    [| by left | by right].
  apply isbn13_accepted_valid in E. congruence.
Qed.

Lemma norm_issn_of_invalid (v : string) :
  issn_valid_spec (only_digits_x v) = false → norm_issn true v = None.
Proof.
  intros H. unfold norm_issn. simpl.
  destruct (negb (nonempty (only_digits_x v))); [done |].
  destruct (is_valid_issn (only_digits_x v)) eqn:E; [| done].
  apply issn_accepted_valid in E. congruence.
Qed.

Lemma first_isbn_of_invalid (vs : list string) :
  Forall (λ v, isbn10_valid_spec (only_digits_x v) = false
               ∧ isbn13_valid_spec (only_digits_x v) = false) vs →
  first_isbn true vs = Some None ∨ first_isbn true vs = None.
Proof.
  induction 1 as [|v vs [H10 H13] _ IH]; simpl; [by left |].
  destruct (norm_isbn_of_invalid v H10 H13) as [-> | ->]; [exact IH | by right].
Qed.

Lemma first_issn_of_invalid (vs : list string) :
  Forall (λ v, issn_valid_spec (only_digits_x v) = false) vs →
  first_issn true vs = None.
Proof.
  induction 1 as [|v vs Hv _ IH]; simpl; [done |].
  by rewrite (norm_issn_of_invalid v Hv).
Qed.

Lemma strong_key_of_invalid (r : MarcRecord) :
  no_valid_identifier r →
  is_Some (extract_strong_key true r) →
  extract_strong_key true r = Some None.
Proof.
  intros [Hb Hs] Hsome. unfold extract_strong_key in *.
  assert (Hb' : Forall (λ v, isbn10_valid_spec (only_digits_x v) = false
                            ∧ isbn13_valid_spec (only_digits_x v) = false)
                  (isbn_values r)).
  { apply Forall_forall. intros v Hv. by apply Hb, values_of_fields. }
  assert (Hs' : Forall (λ v, issn_valid_spec (only_digits_x v) = false)
                  (issn_values r)).
  { apply Forall_forall. intros v Hv. by apply Hs, values_of_fields. }
  destruct (first_isbn_of_invalid _ Hb') as [E | E]; rewrite E in *.
  - simpl. by rewrite (first_issn_of_invalid _ Hs').
  - by destruct Hsome.
Qed.

Section Keyless.

Variable table : ascii → string.
Variable splitext_ext : string → string.
Variable MARCReader : string → option (list (option MarcRecord)).
Variable ratio : string → string → Q.
Variables (VALIDATE : bool) (weak : Z) (uf so : bool).

Local Abbreviation step := (step table ratio VALIDATE weak uf so).
Local Abbreviation steps := (steps table ratio VALIDATE weak uf so).
Local Abbreviation keys_of := (keys_of table VALIDATE uf).

(** A run raises only where the keys of a record cannot be extracted. *)
Lemma steps_return st (l : list (string * MarcRecord)) :
  Forall (λ lr, is_Some (keys_of lr.2)) l → is_Some (steps st l).
Proof.
  revert st. induction l as [|lr l IH]; intros st Hall; [by eexists |].
  apply Forall_cons in Hall as [[ks Hks] Hall].
  rewrite steps_cons, step_keys, Hks. simpl. apply IH, Hall.
Qed.

End Keyless.

Section Singleton.

Variable table : ascii → string.
Variable splitext_ext : string → string.
Variable MARCReader : string → option (list (option MarcRecord)).
Variable ratio : string → string → Q.
Variables (weak : Z).


End Singleton.

(** *** At a concrete run, with checksums enforced and without *)

Ltac values_by_computation :=
  intros ? Hv; apply values_of_fields, list_elem_of_In in Hv; vm_compute in Hv;
  repeat (destruct Hv as [<- | Hv]; [repeat split; reflexivity |]);
  destruct Hv.

Lemma rec_unkeyed_invalid : no_valid_identifier rec_unkeyed.
Proof. split; values_by_computation. Qed.



(** ** Check digits detect the change of one character *)

Lemma mod11_product (w δ : Z) :
  (1 <= w <= 10)%Z → (-10 <= δ <= 10)%Z → δ ≠ 0%Z → ((w * δ) mod 11 ≠ 0)%Z.
Proof.
  intros Hw Hd Hne.
  assert (Hall : forallb (λ a, forallb (λ b,
             let x := (Z.of_nat b - 10)%Z in
             (x =? 0)%Z || negb (((Z.of_nat a + 1) * x) mod 11 =? 0)%Z)
           (seq 0 21)) (seq 0 10) = true) by (vm_compute; reflexivity).
  rewrite forallb_forall in Hall.
  specialize (Hall (Z.to_nat (w - 1))). rewrite forallb_forall in Hall.
  specialize (Hall ltac:(apply in_seq; lia) (Z.to_nat (δ + 10))
                ltac:(apply in_seq; lia)).
  cbv zeta in Hall.
  replace (Z.of_nat (Z.to_nat (δ + 10)) - 10)%Z with δ in Hall by lia.
  replace (Z.of_nat (Z.to_nat (w - 1)) + 1)%Z with w in Hall by lia.
  apply orb_true_iff in Hall as [H%Z.eqb_eq | H%negb_true_iff%Z.eqb_neq]; done.
Qed.

Lemma mod11_same (t w δ : Z) :
  (1 <= w <= 10)%Z → (-10 <= δ <= 10)%Z → δ ≠ 0%Z →
  (t mod 11 ≠ (t + w * δ) mod 11)%Z.
Proof.
  intros Hw Hd Hne Heq. apply (mod11_product w δ Hw Hd Hne).
  revert Heq. generalize (w * δ)%Z. intros p Heq.
  Z.div_mod_to_equations. lia.
Qed.

Lemma mod10_same (s w δ v : Z) :
  w = 1%Z ∨ w = 3%Z → (-9 <= δ <= 9)%Z → δ ≠ 0%Z →
  ((10 - s mod 10) mod 10 = v)%Z →
  ((10 - (s + w * δ) mod 10) mod 10 ≠ v)%Z.
Proof.
  intros Hw Hd Hne <- Heq.
  assert (E : (s mod 10 = (s + w * δ) mod 10)%Z).
  { revert Heq. generalize (w * δ)%Z. intros p Heq.
    Z.div_mod_to_equations. lia. }
  clear Heq. destruct Hw as [-> | ->]; Z.div_mod_to_equations; lia.
Qed.

Section Detection.

Variable int_of_char : N → option Z.

(** [int] of one character is a digit value. *)
Hypothesis int_range : ∀ c v, int_of_char c = Some v → (0 <= v <= 9)%Z.

Local Abbreviation weighted_sum := (Unicode.weighted_sum int_of_char).
Local Abbreviation is_valid_issn := (Unicode.is_valid_issn int_of_char).
Local Abbreviation same_digit := (Unicode.same_digit int_of_char).

(** The sum before and after the change of one character. *)
Lemma weighted_sum_change w i (s : list N) k x c t t' :
  s !! k = Some x →
  weighted_sum w i s = Some t →
  weighted_sum w i (<[k:=c]> s) = Some t' →
  ∃ vx vc, int_of_char x = Some vx ∧ int_of_char c = Some vc
           ∧ t' = (t + w (i + k)%nat * (vc - vx))%Z.
Proof.
  revert i k t t'. induction s as [|y s IH]; intros i k t t' Hk; [done |].
  destruct k as [|k]; simpl in *.
  - injection Hk as ->.
    destruct (int_of_char x) as [vx|]; [| done].
    destruct (int_of_char c) as [vc|]; [| done]. simpl.
    destruct (weighted_sum w (S i) s) as [r|]; [| done]. simpl.
    intros [= <-] [= <-]. exists vx, vc. rewrite Nat.add_0_r.
    split; [done |]. split; [done |]. lia.
  - destruct (int_of_char y) as [vy|]; [| done]. simpl.
    destruct (weighted_sum w (S i) s) as [r|] eqn:Hr; [| done].
    destruct (weighted_sum w (S i) (<[k:=c]> s)) as [r'|] eqn:Hr'; [| done].
    simpl. intros [= <-] [= <-].
    destruct (IH (S i) k r r' Hk Hr Hr') as (vx & vc & Hx & Hc & ->).
    exists vx, vc. split; [done |]. split; [done |].
    replace (i + S k)%nat with (S i + k)%nat by lia. lia.
Qed.

Lemma values_differ x c vx vc :
  ¬ same_digit c x → int_of_char x = Some vx → int_of_char c = Some vc →
  (-9 <= vc - vx <= 9)%Z ∧ (vc - vx ≠ 0)%Z.
Proof.
  intros Hne Hx Hc. pose proof (int_range _ _ Hx). pose proof (int_range _ _ Hc).
  split; [lia |]. intros E. apply Hne. exists vx. split; [| done].
  rewrite Hc. f_equal. lia.
Qed.

Lemma char_at_insert_ne (d : list N) k c n :
  k ≠ n → Unicode.char_at n (<[k:=c]> d) = Unicode.char_at n d.
Proof. intros H. unfold Unicode.char_at. by rewrite list_lookup_insert_ne. Qed.

Lemma char_at_insert_eq (d : list N) k c :
  k < length d → Unicode.char_at k (<[k:=c]> d) = c.
Proof. intros H. unfold Unicode.char_at. by rewrite list_lookup_insert_eq. Qed.

Lemma char_at_lookup (d : list N) k x :
  d !! k = Some x → Unicode.char_at k d = x.
Proof. intros H. unfold Unicode.char_at. by rewrite H. Qed.

Section Isbn.

Variable isdigit : N → bool.

(** [int("X")] raises. *)
Hypothesis int_X : int_of_char Unicode.X = None.

Local Abbreviation is_valid_isbn10 := (Unicode.is_valid_isbn10 isdigit int_of_char).
Local Abbreviation is_valid_isbn13 := (Unicode.is_valid_isbn13 isdigit int_of_char).

(** *** ISBN-13 *)

Lemma isbn13_codes_inv (d : list N) :
  is_valid_isbn13 d = Some true →
  length d = 13
  ∧ ∃ s v, weighted_sum (λ i, if Nat.even i then 1 else 3)%Z 0 (take 12 d) = Some s
           ∧ int_of_char (Unicode.char_at 12 d) = Some v
           ∧ ((10 - s mod 10) mod 10 = v)%Z.
Proof.
  unfold Unicode.is_valid_isbn13.
  destruct (length d =? 13)%nat eqn:Hlen; [| done].
  destruct (Unicode.str_isdigit isdigit d); [| done]. simpl.
  destruct (weighted_sum _ 0 (take 12 d)) as [s|]; [| done]. simpl.
  destruct (int_of_char (Unicode.char_at 12 d)) as [v|]; [| done]. simpl.
  intros [= H%Z.eqb_eq]. apply Nat.eqb_eq in Hlen. eauto 10.
Qed.

(** X1: an ISBN-13 that passes the check no longer passes once one of
    its characters is replaced, unless the new character is one that
    [int] reads as the same digit (the digit of another script).  The two
    library functions are any that read a character as a digit value. *)
Theorem isbn13_detects_substitution (d : list N) (k : nat) (x c : N) :
  Unicode.is_valid_isbn13 isdigit int_of_char d = Some true →
  d !! k = Some x →
  ¬ Unicode.same_digit int_of_char c x →
  Unicode.is_valid_isbn13 isdigit int_of_char (<[k:=c]> d) ≠ Some true.
Proof.
  intros (Hlen & s & v & Hs & Hv & Heq)%isbn13_codes_inv Hk Hne
         (_ & s' & v' & Hs' & Hv' & Heq')%isbn13_codes_inv.
  pose proof (lookup_lt_Some _ _ _ Hk) as Hlt.
  destruct (decide (k < 12)) as [Hk12 | Hk12].
  - rewrite take_insert_lt in Hs' by done.
    rewrite char_at_insert_ne in Hv' by lia.
    assert (Hk' : take 12 d !! k = Some x) by by rewrite lookup_take_lt.
    destruct (weighted_sum_change _ _ _ _ _ _ _ _ Hk' Hs Hs')
      as (vx & vc & Hx & Hc & ->).
    destruct (values_differ _ _ _ _ Hne Hx Hc) as [Hr Hd].
    assert (Ev : v' = v) by congruence. rewrite Ev in Heq'.
    revert Heq'. apply mod10_same; [| done | done | done].
    destruct (Nat.even (0 + k)); auto.
  - assert (k = 12) by lia. subst k.
    rewrite take_insert_ge in Hs' by done.
    rewrite char_at_insert_eq in Hv' by lia.
    rewrite (char_at_lookup _ _ _ Hk) in Hv.
    apply Hne. exists v. split; [| done]. rewrite Hv'. f_equal. congruence.
Qed.

(** *** ISBN-10 *)

Lemma isbn10_codes_inv (d : list N) :
  is_valid_isbn10 d = true →
  length d = 10
  ∧ ∃ t, weighted_sum (λ i, Z.of_nat i + 1)%Z 0 (take 9 d) = Some t
         ∧ ((Unicode.char_at 9 d = Unicode.X ∧ t mod 11 = 10)
            ∨ int_of_char (Unicode.char_at 9 d) = Some (t mod 11))%Z.
Proof.
  unfold Unicode.is_valid_isbn10.
  destruct (length d =? 10)%nat eqn:Hlen; [| done]. simpl.
  destruct (weighted_sum _ 0 (take 9 d)) as [t|]; [| done]. simpl.
  apply Nat.eqb_eq in Hlen. intros H. split; [done |]. exists t. split; [done |].
  destruct ((Unicode.char_at 9 d =? Unicode.X)%N && (t mod 11 =? 10)%Z) eqn:HX.
  { apply andb_true_iff in HX as [HX%N.eqb_eq Hm%Z.eqb_eq]. by left. }
  destruct (isdigit (Unicode.char_at 9 d)); [| done].
  destruct (int_of_char (Unicode.char_at 9 d)) as [v|]; [| done]. simpl in H.
  apply Z.eqb_eq in H. right. by rewrite H.
Qed.

(** X2: an ISBN-10 that passes the check is rejected once one of its
    characters, the check character included, is replaced by a different
    one, unless the new character is one that [int] reads as the same
    digit. *)
Theorem isbn10_detects_substitution (d : list N) (k : nat) (x c : N) :
  Unicode.is_valid_isbn10 isdigit int_of_char d = true →
  d !! k = Some x →
  c ≠ x → ¬ Unicode.same_digit int_of_char c x →
  Unicode.is_valid_isbn10 isdigit int_of_char (<[k:=c]> d) = false.
Proof.
  intros (Hlen & t & Ht & Hchk)%isbn10_codes_inv Hk Hcx Hne.
  apply not_true_is_false.
  intros (_ & t' & Ht' & Hchk')%isbn10_codes_inv.
  pose proof (lookup_lt_Some _ _ _ Hk) as Hlt.
  destruct (decide (k < 9)) as [Hk9 | Hk9].
  - rewrite take_insert_lt in Ht' by done.
    rewrite char_at_insert_ne in Hchk' by lia.
    assert (Hk' : take 9 d !! k = Some x) by by rewrite lookup_take_lt.
    destruct (weighted_sum_change _ _ _ _ _ _ _ _ Hk' Ht Ht')
      as (vx & vc & Hx & Hc & ->).
    destruct (values_differ _ _ _ _ Hne Hx Hc) as [Hr Hd].
    apply (mod11_same t (Z.of_nat (0 + k) + 1) (vc - vx)); [lia | lia | done |].
    destruct Hchk as [[HX Hm] | Hm], Hchk' as [[HX' Hm'] | Hm'].
    + congruence.
    + rewrite HX, int_X in Hm'. done.
    + rewrite HX', int_X in Hm. done.
    + congruence.
  - assert (k = 9) by lia. subst k.
    rewrite take_insert_ge in Ht' by done.
    rewrite char_at_insert_eq in Hchk' by lia.
    rewrite (char_at_lookup _ _ _ Hk) in Hchk.
    assert (t' = t) by congruence. subst t'.
    destruct Hchk as [[HX Hm] | Hm], Hchk' as [[HX' Hm'] | Hm'].
    + congruence.
    + apply int_range in Hm'. lia.
    + apply int_range in Hm. lia.
    + apply Hne. by exists (t mod 11)%Z.
Qed.

End Isbn.

(** *** ISSN *)

(** The check character of an ISSN whose check value is [chk]. *)
Lemma check_char_inj (a b : Z) :
  (0 <= a <= 10)%Z → (0 <= b <= 10)%Z →
  (if (a =? 10)%Z then Unicode.X else (Unicode.zero + Z.to_N a)%N)
  = (if (b =? 10)%Z then Unicode.X else (Unicode.zero + Z.to_N b)%N) →
  a = b.
Proof.
  intros Ha Hb. unfold Unicode.X, Unicode.zero.
  destruct (a =? 10)%Z eqn:Ea, (b =? 10)%Z eqn:Eb;
    rewrite ?Z.eqb_eq, ?Z.eqb_neq in *; lia.
Qed.

Lemma issn_codes_inv (d : list N) :
  is_valid_issn d = true →
  let p := if (length d =? 7)%nat then Unicode.zero :: d else d in
  length p = 8
  ∧ ∃ t, weighted_sum (λ i, 8 - Z.of_nat i)%Z 0 (take 7 p) = Some t
         ∧ (let chk := ((11 - t mod 11) mod 11)%Z in
            if (chk =? 10)%Z then Unicode.X else (Unicode.zero + Z.to_N chk)%N)
           = Unicode.char_at 7 p.
Proof.
  unfold Unicode.is_valid_issn. cbv zeta.
  set (p := if (length d =? 7)%nat then Unicode.zero :: d else d).
  destruct (length p =? 8)%nat eqn:Hlen; [| done]. simpl.
  destruct (weighted_sum _ 0 (take 7 p)) as [t|]; [| done]. simpl.
  intros H%N.eqb_eq. apply Nat.eqb_eq in Hlen. eauto.
Qed.

Lemma issn_change (p : list N) (k : nat) (x c : N) (t t' : Z) :
  length p = 8 → p !! k = Some x → c ≠ x → ¬ same_digit c x →
  weighted_sum (λ i, 8 - Z.of_nat i)%Z 0 (take 7 p) = Some t →
  (let chk := ((11 - t mod 11) mod 11)%Z in
   if (chk =? 10)%Z then Unicode.X else (Unicode.zero + Z.to_N chk)%N)
  = Unicode.char_at 7 p →
  weighted_sum (λ i, 8 - Z.of_nat i)%Z 0 (take 7 (<[k:=c]> p)) = Some t' →
  (let chk := ((11 - t' mod 11) mod 11)%Z in
   if (chk =? 10)%Z then Unicode.X else (Unicode.zero + Z.to_N chk)%N)
  = Unicode.char_at 7 (<[k:=c]> p) →
  False.
Proof.
  intros Hlen Hk Hcx Hne Ht Hchk Ht' Hchk'. cbv zeta in Hchk, Hchk'.
  pose proof (lookup_lt_Some _ _ _ Hk) as Hlt.
  destruct (decide (k < 7)) as [Hk7 | Hk7].
  - rewrite take_insert_lt in Ht' by done.
    rewrite char_at_insert_ne in Hchk' by lia.
    assert (Hk' : take 7 p !! k = Some x) by by rewrite lookup_take_lt.
    destruct (weighted_sum_change _ _ _ _ _ _ _ _ Hk' Ht Ht')
      as (vx & vc & Hx & Hc & ->).
    destruct (values_differ _ _ _ _ Hne Hx Hc) as [Hr Hd].
    rewrite <- Hchk in Hchk'. apply check_char_inj in Hchk';
      [| pose proof (Z.mod_pos_bound (11 - (t + (8 - Z.of_nat (0 + k)) * (vc - vx)) mod 11) 11); lia
       | pose proof (Z.mod_pos_bound (11 - t mod 11) 11); lia].
    apply (mod11_same t (8 - Z.of_nat (0 + k)) (vc - vx)); [lia | lia | done |].
    Z.div_mod_to_equations. lia.
  - assert (k = 7) by lia. subst k.
    rewrite take_insert_ge in Ht' by done.
    rewrite char_at_insert_eq in Hchk' by lia.
    rewrite (char_at_lookup _ _ _ Hk) in Hchk.
    assert (t' = t) by congruence. subst t'. congruence.
Qed.

(** X3: an ISSN that passes the check, written with eight characters or
    with seven, is rejected once one of its characters is replaced by a
    different one, unless the new character is one that [int] reads as
    the same digit. *)
Theorem issn_detects_substitution (d : list N) (k : nat) (x c : N) :
  Unicode.is_valid_issn int_of_char d = true →
  d !! k = Some x →
  c ≠ x → ¬ Unicode.same_digit int_of_char c x →
  Unicode.is_valid_issn int_of_char (<[k:=c]> d) = false.
Proof.
  intros Hv Hk Hcx Hne. apply not_true_is_false. intros Hv'.
  apply issn_codes_inv in Hv as (Hlen & t & Ht & Hchk).
  apply issn_codes_inv in Hv' as (_ & t' & Ht' & Hchk').
  rewrite length_insert in Ht', Hchk'.
  destruct (length d =? 7)%nat.
  - apply (issn_change (Unicode.zero :: d) (S k) x c t t'); done.
  - apply (issn_change d k x c t t'); done.
Qed.

End Detection.

(** The sample tables read a character as a digit value below ten, and
    refuse the letter. *)
Lemma sample_int_range (c : N) (v : Z) :
  Unicode.sample_int c = Some v → (0 <= v <= 9)%Z.
Proof.
  unfold Unicode.sample_int.
  destruct ((48 <=? c)%N && (c <=? 57)%N) eqn:H1.
  { apply andb_true_iff in H1 as [?%N.leb_le ?%N.leb_le]. intros [= <-]. lia. }
  destruct ((65296 <=? c)%N && (c <=? 65305)%N) eqn:H2; [| done].
  apply andb_true_iff in H2 as [?%N.leb_le ?%N.leb_le]. intros [= <-]. lia.
Qed.

(** The fullwidth seven in place of the check digit 7 of an ISBN-13, and
    the fullwidth two and zero in an ISBN-10 and an ISSN: each string
    still passes. *)
Example fullwidth_digit_is_accepted :
  Unicode.is_valid_isbn13 Unicode.sample_isdigit Unicode.sample_int
    (<[12 := 65303%N]> (Unicode.codes "9780306406157")) = Some true
  ∧ Unicode.is_valid_isbn10 Unicode.sample_isdigit Unicode.sample_int
      (<[9 := 65298%N]> (Unicode.codes "0306406152")) = true
  ∧ Unicode.is_valid_issn Unicode.sample_int
      (<[0 := 65296%N]> (Unicode.codes "03785955")) = true.
Proof. repeat split; vm_compute; reflexivity. Qed.

(** *** The validators of the Latin-1 model

    On a string of the model the validators on code points, with the
    tables of the model, are the validators of the model. *)

Lemma codes_cons (a : ascii) (s : string) :
  Unicode.codes (String a s) = N_of_ascii a :: Unicode.codes s.
Proof. reflexivity. Qed.

Lemma length_codes (s : string) : length (Unicode.codes s) = String.length s.
Proof. induction s as [|a s IH]; [done |]. rewrite codes_cons. simpl. by rewrite IH. Qed.

Lemma take_codes (n : nat) (s : string) :
  take n (Unicode.codes s) = Unicode.codes (substring 0 n s).
Proof.
  revert n. induction s as [|a s IH]; intros [|n]; try done.
  rewrite codes_cons. simpl. by rewrite IH.
Qed.

Lemma latin_int_code (a : ascii) : Unicode.latin_int (N_of_ascii a) = int_of_char a.
Proof.
  unfold Unicode.latin_int. pose proof (N_ascii_bounded a) as Hb.
  apply N.ltb_lt in Hb. by rewrite Hb, ascii_N_embedding.
Qed.

Lemma latin_isdigit_code (a : ascii) : Unicode.latin_isdigit (N_of_ascii a) = isdigit a.
Proof.
  unfold Unicode.latin_isdigit. pose proof (N_ascii_bounded a) as Hb.
  apply N.ltb_lt in Hb. by rewrite Hb, ascii_N_embedding.
Qed.

Lemma weighted_sum_codes w i (s : string) :
  Unicode.weighted_sum Unicode.latin_int w i (Unicode.codes s) = weighted_sum w i s.
Proof.
  revert i. induction s as [|a s IH]; intros i; [done |].
  rewrite codes_cons. simpl. by rewrite latin_int_code, IH.
Qed.

Lemma char_at_codes (i : nat) (s : string) :
  Unicode.char_at i (Unicode.codes s) = N_of_ascii (char_at i s).
Proof.
  unfold Unicode.char_at, char_at. revert i.
  induction s as [|a s IH]; intros [|i]; try done.
  rewrite codes_cons. simpl. apply IH.
Qed.

Lemma code_eqb (a b : ascii) : (N_of_ascii a =? N_of_ascii b)%N = Ascii.eqb a b.
Proof.
  destruct (Ascii.eqb a b) eqn:E.
  - apply Ascii.eqb_eq in E as ->. apply N.eqb_refl.
  - apply N.eqb_neq. intros H. apply Ascii.eqb_neq in E. apply E.
    by rewrite <- (ascii_N_embedding a), <- (ascii_N_embedding b), H.
Qed.

Lemma str_isdigit_codes (s : string) :
  Unicode.str_isdigit Unicode.latin_isdigit (Unicode.codes s) = str_isdigit s.
Proof.
  unfold Unicode.str_isdigit, str_isdigit.
  assert (H : ∀ s, forallb Unicode.latin_isdigit (Unicode.codes s) = all_str isdigit s).
  { clear s. induction s as [|a s IH]; [done |].
    rewrite codes_cons. simpl. by rewrite latin_isdigit_code, IH. }
  destruct s as [|a s]; [done |]. rewrite <- H. reflexivity.
Qed.

Lemma check_char_code (chk : Z) :
  (0 <= chk <= 10)%Z →
  (if (chk =? 10)%Z then Unicode.X else (Unicode.zero + Z.to_N chk)%N)
  = N_of_ascii (if (chk =? 10)%Z then "X"%char else char_of_digit chk).
Proof.
  intros H. destruct (chk =? 10)%Z eqn:E; [done |]. apply Z.eqb_neq in E.
  unfold char_of_digit, Unicode.zero. rewrite N_ascii_embedding; lia.
Qed.

(** The validators of the model are the validators on code points at the
    tables of the model. *)
Lemma validators_on_latin1 (d : string) :
  Unicode.is_valid_isbn10 Unicode.latin_isdigit Unicode.latin_int (Unicode.codes d)
  = is_valid_isbn10 d
  ∧ Unicode.is_valid_isbn13 Unicode.latin_isdigit Unicode.latin_int (Unicode.codes d)
    = is_valid_isbn13 d
  ∧ Unicode.is_valid_issn Unicode.latin_int (Unicode.codes d) = is_valid_issn d.
Proof.
  split; [| split].
  - unfold Unicode.is_valid_isbn10, is_valid_isbn10.
    rewrite length_codes, take_codes, weighted_sum_codes, char_at_codes,
      latin_isdigit_code, latin_int_code.
    change Unicode.X with (N_of_ascii "X"). rewrite code_eqb. reflexivity.
  - unfold Unicode.is_valid_isbn13, is_valid_isbn13.
    rewrite length_codes, str_isdigit_codes, take_codes, weighted_sum_codes,
      char_at_codes, latin_int_code. reflexivity.
  - unfold Unicode.is_valid_issn, is_valid_issn. cbv zeta.
    rewrite length_codes.
    assert (E : (if (String.length d =? 7)%nat
                 then Unicode.zero :: Unicode.codes d else Unicode.codes d)
                = Unicode.codes (if (String.length d =? 7)%nat then "0" +:+ d else d)).
    { destruct (String.length d =? 7)%nat; [| done].
      by rewrite (app_str_cons "0" EmptyString), app_str_nil. }
    rewrite E, length_codes, take_codes, weighted_sum_codes, char_at_codes.
    destruct (negb _); [done |].
    destruct (weighted_sum _ _ _) as [tot|]; [| done]. simpl.
    rewrite check_char_code, code_eqb; [done |].
    pose proof (Z.mod_pos_bound (11 - tot mod 11) 11). lia.
Qed.

(** ** The further properties at concrete inputs *)

Lemma isbn13_detects_substitution_witness :
  Unicode.is_valid_isbn13 Unicode.sample_isdigit Unicode.sample_int
    (Unicode.codes "9780306406157") = Some true
  ∧ Unicode.is_valid_isbn13 Unicode.sample_isdigit Unicode.sample_int
      (<[5 := 65304%N]> (Unicode.codes "9780306406157")) ≠ Some true.
Proof.
  split; [reflexivity |].
  apply (isbn13_detects_substitution Unicode.sample_int sample_int_range
           Unicode.sample_isdigit (Unicode.codes "9780306406157") 5 48%N 65304%N);
    [reflexivity | reflexivity |].
  intros (v & Hc & Hx). vm_compute in Hc, Hx. congruence.
Defined.

Lemma isbn10_detects_substitution_witness :
  Unicode.is_valid_isbn10 Unicode.sample_isdigit Unicode.sample_int
    (Unicode.codes "080442957X") = true
  ∧ Unicode.is_valid_isbn10 Unicode.sample_isdigit Unicode.sample_int
      (<[9 := 48%N]> (Unicode.codes "080442957X")) = false.
Proof.
  split; [reflexivity |].
  apply (isbn10_detects_substitution Unicode.sample_int sample_int_range
           Unicode.sample_isdigit eq_refl (Unicode.codes "080442957X") 9 88%N 48%N);
    [reflexivity | reflexivity | discriminate |].
  intros (v & Hc & Hx). vm_compute in Hc, Hx. congruence.
Defined.

Lemma issn_detects_substitution_witness :
  Unicode.is_valid_issn Unicode.sample_int (Unicode.codes "3785955") = true
  ∧ Unicode.is_valid_issn Unicode.sample_int
      (<[2 := 65299%N]> (Unicode.codes "3785955")) = false.
Proof.
  split; [reflexivity |].
  apply (issn_detects_substitution Unicode.sample_int sample_int_range
           (Unicode.codes "3785955") 2 56%N 65299%N);
    [reflexivity | reflexivity | discriminate |].
  intros (v & Hc & Hx). vm_compute in Hc, Hx. congruence.
Defined.

Lemma normalised_identifier_stable_witness :
  norm_isbn true "9780306406157" = Some (Some "9780306406157")
  ∧ norm_issn false "03785955" = Some "03785955".
Proof.
  split.
  - apply (proj1 (normalised_identifier_stable true "978-0-306-40615-7"
                    "9780306406157")). reflexivity.
  - apply (proj2 (normalised_identifier_stable false "ISSN 0378-5955"
                    "03785955")). reflexivity.
Defined.

Lemma strong_key_is_checked_witness :
  (∃ v, holds_value rec_isbn_b "020" ["a"; "z"] v
        ∧ norm_isbn true v = Some (Some (only_digits_x v))
        ∧ "ISBN:9780306406157" = "ISBN:" +:+ only_digits_x v
        ∧ (is_valid_isbn10 (only_digits_x v) = true
           ∨ is_valid_isbn13 (only_digits_x v) = Some true))
  ∨ ((∀ v, holds_value rec_isbn_b "020" ["a"; "z"] v → norm_isbn true v = Some None)
     ∧ ∃ v, holds_value rec_isbn_b "022" ["a"; "y"; "z"] v
            ∧ norm_issn true v = Some (only_digits_x v)
            ∧ "ISBN:9780306406157" = "ISSN:" +:+ only_digits_x v
            ∧ is_valid_issn (only_digits_x v) = true).
Proof.
  apply (strong_key_is_checked rec_isbn_b "ISBN:9780306406157"). reflexivity.
Defined.

Lemma extract_year_shape_witness :
  extract_year rec_rich = Some "1944"
  ∧ ("1944" = EmptyString
     ∨ (String.length "1944" = 4 ∧ all_str isdigit "1944" = true)).
Proof.
  split; [reflexivity |].
  apply (extract_year_shape rec_rich "1944"). reflexivity.
Defined.

Lemma clusters_numbered_and_inhabited_witness :
  ∃ cls,
    build_clusters latin_table posix_ext (reader_of isbn_files) indel_ratio
      true sources_ab 70 true false = Some cls
    ∧ length cls = 2
    ∧ (∀ k c, cls !! k = Some c → cluster_id c = S k)
    ∧ Forall (λ c, members c ≠ []) cls.
Proof.
  destruct (build_clusters latin_table posix_ext (reader_of isbn_files)
              indel_ratio true sources_ab 70 true false) as [cls|] eqn:Hb;
    [| vm_compute in Hb; discriminate].
  exists cls. split; [reflexivity |]. split.
  - pose proof Hb as Hb'. vm_compute in Hb'. injection Hb' as <-. reflexivity.
  - exact (clusters_numbered_and_inhabited latin_table posix_ext
             (reader_of isbn_files) indel_ratio true 70 true false
             sources_ab cls Hb).
Defined.

Lemma clusters_partition_the_stream_witness :
  ∃ cls,
    build_clusters latin_table posix_ext (reader_of isbn_files) indel_ratio
      true sources_ab 70 true false = Some cls
    ∧ ∃ l srs,
        stream posix_ext (reader_of isbn_files) sources_ab = Some l
        ∧ (λ sr, (lib sr, record sr)) <$> srs = l
        ∧ concat (members <$> cls) ≡ₚ srs
        ∧ Forall (λ c, members c `sublist_of` srs) cls.
Proof.
  destruct (build_clusters latin_table posix_ext (reader_of isbn_files)
              indel_ratio true sources_ab 70 true false) as [cls|] eqn:Hb;
    [| vm_compute in Hb; discriminate].
  exists cls. split; [reflexivity |].
  exact (clusters_partition_the_stream latin_table posix_ext
           (reader_of isbn_files) indel_ratio true 70 true false
           sources_ab cls Hb).
Defined.

Lemma same_strong_key_same_cluster_witness :
  ∃ cls c m m',
    build_clusters latin_table posix_ext (reader_of isbn_files) indel_ratio
      true sources_ab 70 true false = Some cls
    ∧ cls !! 0 = Some c
    ∧ m ∈ members c ∧ record m = rec_isbn_a
    ∧ strong_key m = strong_key m' ∧ record m' = rec_isbn_b
    ∧ ∀ j c', cls !! j = Some c' → m' ∈ members c' → 0 = j.
Proof.
  destruct (build_clusters latin_table posix_ext (reader_of isbn_files)
              indel_ratio true sources_ab 70 true false) as [cls|] eqn:Hb;
    [| vm_compute in Hb; discriminate].
  pose proof Hb as Hb'. vm_compute in Hb'. injection Hb' as Hcls.
  destruct cls as [|c cls']; [discriminate Hcls |].
  injection Hcls as Hc _.
  exists (c :: cls'), c,
    (mkSourceRecord "L1" (get_local_id rec_isbn_a) rec_isbn_a
       (Some "ISBN:9780306406157") (Some "plasma physics")),
    (mkSourceRecord "L2" (get_local_id rec_isbn_b) rec_isbn_b
       (Some "ISBN:9780306406157") (Some "introduction to plasmas")).
  split; [reflexivity |]. split; [reflexivity |].
  assert (Hm : mkSourceRecord "L1" (get_local_id rec_isbn_a) rec_isbn_a
                 (Some "ISBN:9780306406157") (Some "plasma physics")
               ∈ members c).
  { rewrite <- Hc. left. }
  split; [exact Hm |]. split; [reflexivity |]. split; [reflexivity |].
  split; [reflexivity |].
  intros j c' Hj Hm'.
  exact (same_strong_key_same_cluster latin_table posix_ext
           (reader_of isbn_files) indel_ratio true 70 true false
           sources_ab (c :: cls') 0 j c c' _ _ Hb eq_refl Hj Hm Hm'
           eq_refl eq_refl).
Defined.

Lemma cluster_key_sets_are_member_keys_witness :
  ∃ cls,
    build_clusters latin_table posix_ext (reader_of isbn_files) indel_ratio
      true sources_ab 70 true false = Some cls
    ∧ Forall keys_recorded cls.
Proof.
  destruct (build_clusters latin_table posix_ext (reader_of isbn_files)
              indel_ratio true sources_ab 70 true false) as [cls|] eqn:Hb;
    [| vm_compute in Hb; discriminate].
  exists cls. split; [reflexivity |].
  exact (cluster_key_sets_are_member_keys latin_table posix_ext
           (reader_of isbn_files) indel_ratio true 70 true false
           sources_ab cls Hb).
Defined.

Lemma strong_only_clusters_share_one_key_witness :
  ∃ cls,
    build_clusters latin_table posix_ext (reader_of isbn_files) indel_ratio
      true sources_ab 70 true true = Some cls
    ∧ Forall (λ c, ∃ sk, (∀ m, m ∈ members c → strong_key m = sk)
                         ∧ (truthy sk = false → length (members c) = 1)) cls.
Proof.
  destruct (build_clusters latin_table posix_ext (reader_of isbn_files)
              indel_ratio true sources_ab 70 true true) as [cls|] eqn:Hb;
    [| vm_compute in Hb; discriminate].
  exists cls. split; [reflexivity |].
  apply Forall_forall. intros c Hc.
  exact (strong_only_clusters_share_one_key latin_table posix_ext
           (reader_of isbn_files) indel_ratio true 70 true true
           (or_intror eq_refl) sources_ab cls c Hb Hc).
Defined.

Lemma unsupported_source_aborts_run_witness :
  build_clusters latin_table posix_ext (reader_of chain_files) indel_ratio
    true sources_txt 70 true false = None.
Proof.
  apply (unsupported_source_aborts_run latin_table posix_ext
           (reader_of chain_files) indel_ratio true 70 true false
           sources_txt "L9" "notes.txt").
  - right. left.
  - left. vm_compute. intros H.
    repeat (apply elem_of_cons in H as [H|H]; [discriminate H |]).
    inversion H.
Defined.

Lemma primary_has_highest_score_witness :
  ∃ mp sp, members pair_cluster !! 1 = Some mp
    ∧ score_record (record mp) = Some sp
    ∧ ∀ m, m ∈ members pair_cluster →
        ∃ s, score_record (record m) = Some s ∧ (s ≤ sp)%Z.
Proof.
  apply (primary_has_highest_score (members pair_cluster) [] 1). reflexivity.
Defined.

Lemma primary_tie_break_witness :
  choose_primary tied_members ["L2"] = Some 1
  ∧ choose_primary tied_members [] = Some 0
  ∧ (("L2" ∈ ["L2"] → "L2" ∈ ["L2"]) ∧ ("L2" ∉ ["L2"] → (1 ≤ 2)%nat)).
Proof.
  split; [reflexivity |]. split; [reflexivity |].
  apply (primary_tie_break tied_members ["L2"] 1
           (mkSourceRecord "L2" "2" rec_abcde None (Some "abcde")) 17 eq_refl
           eq_refl eq_refl 2
           (mkSourceRecord "L2" "7" rec_bcdef None (Some "bcdef")));
    reflexivity.
Defined.

Lemma merge_appends_annotations_witness :
  ∃ mp, members pair_cluster !! 1 = Some mp
    ∧ merge_cluster (λ s, elements s) pair_cluster [] ["  "; "300"]
        "035" "910" "948" false
      = Some (record mp ++ flat_map (annotations "035" "910") (members pair_cluster)
                ++ [merge_note (λ s, elements s) "948" (members pair_cluster)]).
Proof.
  apply (merge_appends_annotations (λ s, elements s) pair_cluster []
           ["  "; "300"] "035" "910" "948" false 1); [reflexivity |].
  constructor; [left; reflexivity |].
  constructor; [| constructor]. right.
  split; [discriminate |]. split; [discriminate |].
  repeat constructor.
Defined.


Lemma report_accounts_for_every_record_witness :
  ∃ out l,
    main latin_table (λ s, elements s) posix_ext (reader_of chain_files)
         indel_ratio args_chain = Some out
    ∧ stream posix_ext (reader_of chain_files) (parse_sources (src args_chain))
      = Some l
    ∧ length (union out) = length (report out)
    ∧ (∀ k row, report out !! k = Some row →
         row_id row = S k ∧ (1 ≤ row_size row)%nat)
    ∧ sum_list (row_size <$> report out) = length l.
Proof.
  destruct (main latin_table (λ s, elements s) posix_ext (reader_of chain_files)
              indel_ratio args_chain) as [out|] eqn:Hm;
    [| vm_compute in Hm; discriminate].
  destruct (report_accounts_for_every_record latin_table (λ s, elements s)
              posix_ext (reader_of chain_files) indel_ratio args_chain out Hm)
    as (l & Hl & Hrest).
  exists out, l. split; [reflexivity |]. split; [exact Hl | exact Hrest].
Defined.

Lemma manifest_follows_report_witness :
  ∃ out,
    main latin_table (λ s, elements s) posix_ext (reader_of chain_files)
         indel_ratio args_chain = Some out
    ∧ (is_Some (manifest out) ↔ clusters_json args_chain = true)
    ∧ ∀ js, manifest out = Some js →
        Forall2 (λ row e,
                   entry_id e = row_id row
                   ∧ length (entry_members e) = row_size row
                   ∧ join ";" (entry_keys e) = row_keys row
                   ∧ Sorted str_le (entry_keys e)
                   ∧ NoDup (entry_keys e))
                (report out) js.
Proof.
  destruct (main latin_table (λ s, elements s) posix_ext (reader_of chain_files)
              indel_ratio args_chain) as [out|] eqn:Hm;
    [| vm_compute in Hm; discriminate].
  exists out. split; [reflexivity |].
  exact (manifest_follows_report latin_table (λ s, elements s) posix_ext
           (reader_of chain_files) indel_ratio args_chain out
           enumerates_elements Hm).
Defined.
